(** * cola: linear operators and Krylov solvers, a shallow embedding

    Arrays of floating-point numbers are modelled in exact arithmetic: an
    entry is a real number ([R]), a one-dimensional array is a [list R], a
    two-dimensional array is the list of its rows.  The backend primitives
    the code calls through [xnp] ([norm], [zeros_like], [update_array],
    [sqrt], ...) are given their mathematical meaning in [Module Xnp].
    [Module HouseholderFloat] has the Householder functions once more on
    binary64 numbers, for what rounding does to them, and
    [Module CgLanczosArith] the conjugate gradients loop in any arithmetic,
    for what [inf] and [nan] do to it. *)

From Stdlib Require Import Reals Lra Lia List ZArith Bool PeanoNat.
From Stdlib Require PrimFloat.
Import ListNotations.

Open Scope R_scope.

(** ** Decisions on real numbers, as booleans *)

Definition Reqb (a b : R) : bool := if Req_dec_T a b then true else false.
Definition Rleb (a b : R) : bool := if Rle_dec a b then true else false.
Definition Rltb (a b : R) : bool := if Rlt_dec a b then true else false.

Lemma Reqb_true (a b : R) : Reqb a b = true <-> a = b.
Proof. unfold Reqb; destruct (Req_dec_T a b); split; congruence. Qed.

Lemma Reqb_false (a b : R) : Reqb a b = false <-> a <> b.
Proof. unfold Reqb; destruct (Req_dec_T a b); split; congruence. Qed.

Lemma Rleb_true (a b : R) : Rleb a b = true <-> a <= b.
Proof. unfold Rleb; destruct (Rle_dec a b); split; congruence. Qed.

Lemma Rleb_false (a b : R) : Rleb a b = false <-> b < a.
Proof.
  unfold Rleb; destruct (Rle_dec a b); split; try congruence; intros; lra.
Qed.

Lemma Rltb_true (a b : R) : Rltb a b = true <-> a < b.
Proof. unfold Rltb; destruct (Rlt_dec a b); split; congruence. Qed.

Lemma Rltb_false (a b : R) : Rltb a b = false <-> b <= a.
Proof.
  unfold Rltb; destruct (Rlt_dec a b); split; try congruence; intros; lra.
Qed.

(** ** The array backend ([xnp]) on one-dimensional arrays *)

Module Xnp.

Definition vec := list R.

(** [xnp.sum(v * v)], the squared 2-norm. *)
Fixpoint sumsq (v : vec) : R :=
  match v with
  | [] => 0
  | a :: v' => a * a + sumsq v'
  end.

(** [xnp.norm(v)] *)
Definition norm (v : vec) : R := sqrt (sumsq v).

(** [xnp.zeros_like(v)] *)
Definition zeros_like (v : vec) : vec := repeat 0 (length v).

(** [xnp.update_array(v, vals, slice(idx, None, None))]: [v[idx:] = vals]. *)
Definition update_from (v vals : vec) (idx : nat) : vec :=
  firstn idx v ++ vals.

(** [xnp.update_array(v, a, idx)]: [v[idx] = a]. *)
Fixpoint update_at (v : vec) (a : R) (idx : nat) : vec :=
  match v, idx with
  | [], _ => []
  | _ :: v', O => a :: v'
  | b :: v', S i => b :: update_at v' a i
  end.

(** [v / a] *)
Definition vdiv (v : vec) (a : R) : vec := map (fun b => b / a) v.

(** [xnp.sum(u * v)] for two arrays of one length *)
Fixpoint dot (u v : vec) : R :=
  match u, v with
  | a :: u', b :: v' => a * b + dot u' v'
  | _, _ => 0
  end.

End Xnp.

(** ** cola/operators.py: Householder vectors *)

Module Householder.
Import Xnp.

(** [get_householder_vec(x, idx, xnp)] for an index [idx] of [x].  When
    [idx] is not an index of [x] the backends differ ([x[idx]] raises
    [IndexError] on numpy and torch, jax clamps the index and the call
    returns): the model follows none of them, and [None] then stands for
    no result of the model. *)
Definition get_householder_vec (x : vec) (idx : nat) : option (vec * R) :=
  if (length x <=? idx)%nat then None else
  let sigma_2 := (norm (skipn (idx + 1) x)) ^ 2 in
  let vec0 := zeros_like x in
  let vec1 := update_from vec0 (skipn idx x) idx in
  let xi := nth idx x 0 in
  if Reqb sigma_2 0 && Rleb 0 xi then Some (vec1, 0)
  else if Reqb sigma_2 0 && Rltb xi 0 then Some (vec1, -2)
  else
    let x_norm_partial := sqrt (xi ^ 2 + sigma_2) in
    let vec2 :=
      if Rleb xi 0 then update_at vec1 (xi - x_norm_partial) idx
      else update_at vec1 (- sigma_2 / (xi + x_norm_partial)) idx in
    let beta := 2 * (nth idx vec2 0) ^ 2 / (sigma_2 + (nth idx vec2 0) ^ 2) in
    let vec3 := vdiv vec2 (nth idx vec2 0) in
    let vec4 :=
      update_from vec3 (vdiv (skipn idx vec3) (nth idx vec3 0)) idx in
    Some (vec4, beta).

(** [Householder(vec, beta)._matmat(X)] on one column [x]:
    [angle = sum(X * vec)], [out = X - beta * angle * vec]. *)
Definition householder_matmat (v : vec) (beta : R) (x : vec) : vec :=
  let angle := dot x v in
  map (fun p => fst p - beta * angle * snd p) (combine x v).

End Householder.

(** ** cola/operators.py: Householder vectors, in binary64

    The same two functions on arrays of IEEE 754 binary64 numbers, the
    [float64] of the backends, with the kernel's primitive floats.  A sum
    over an array adds its terms from the last entry to the first; the
    backends may add in another order, which changes the rounding of a sum
    of three terms or more. *)

Module HouseholderFloat.
Import PrimFloat.
Local Open Scope float_scope.

Definition fvec := list float.

(** [xnp.sum(v * v)] *)
Fixpoint sumsq (v : fvec) : float :=
  match v with
  | [] => 0
  | a :: v' => a * a + sumsq v'
  end.

(** [xnp.norm(v)] *)
Definition norm (v : fvec) : float := sqrt (sumsq v).

(** [xnp.zeros_like(v)] *)
Definition zeros_like (v : fvec) : fvec := repeat 0 (length v).

(** [xnp.update_array(v, vals, slice(idx, None, None))] *)
Definition update_from (v vals : fvec) (idx : nat) : fvec :=
  firstn idx v ++ vals.

(** [xnp.update_array(v, a, idx)] *)
Fixpoint update_at (v : fvec) (a : float) (idx : nat) : fvec :=
  match v, idx with
  | [], _ => []
  | _ :: v', O => a :: v'
  | b :: v', S i => b :: update_at v' a i
  end.

(** [v / a] *)
Definition vdiv (v : fvec) (a : float) : fvec := map (fun b => b / a) v.

(** [xnp.sum(u * v)] *)
Fixpoint dot (u v : fvec) : float :=
  match u, v with
  | a :: u', b :: v' => a * b + dot u' v'
  | _, _ => 0
  end.

(** [get_householder_vec(x, idx, xnp)] for an index [idx] of [x]; [a ** 2.]
    is the rounded square [a * a]. *)
Definition get_householder_vec (x : fvec) (idx : nat)
    : option (fvec * float) :=
  if (length x <=? idx)%nat then None else
  let sigma_2 := norm (skipn (idx + 1) x) * norm (skipn (idx + 1) x) in
  let vec0 := zeros_like x in
  let vec1 := update_from vec0 (skipn idx x) idx in
  let xi := nth idx x 0 in
  if (sigma_2 =? 0) && (0 <=? xi) then Some (vec1, 0)
  else if (sigma_2 =? 0) && (xi <? 0) then Some (vec1, -2)
  else
    let x_norm_partial := sqrt (xi * xi + sigma_2) in
    let vec2 :=
      if xi <=? 0 then update_at vec1 (xi - x_norm_partial) idx
      else update_at vec1 (- sigma_2 / (xi + x_norm_partial)) idx in
    let vi := nth idx vec2 0 in
    let beta := 2 * (vi * vi) / (sigma_2 + vi * vi) in
    let vec3 := vdiv vec2 (nth idx vec2 0) in
    let vec4 :=
      update_from vec3 (vdiv (skipn idx vec3) (nth idx vec3 0)) idx in
    Some (vec4, beta).

(** [Householder(vec, beta)._matmat(X)] on one column [x]. *)
Definition householder_matmat (v : fvec) (beta : float) (x : fvec) : fvec :=
  let angle := dot x v in
  map (fun p => fst p - beta * angle * snd p) (combine x v).

End HouseholderFloat.

Section XnpFacts.
Import Xnp.

Lemma sumsq_nonneg (v : vec) : 0 <= sumsq v.
Proof. induction v as [|a v IH]; simpl; [lra | nra]. Qed.

Lemma norm_sq (v : vec) : (norm v) ^ 2 = sumsq v.
Proof.
  unfold norm. simpl. rewrite Rmult_1_r.
  apply sqrt_sqrt, sumsq_nonneg.
Qed.

Lemma sumsq_zero_iff (v : vec) : sumsq v = 0 <-> Forall (fun a => a = 0) v.
Proof.
  induction v as [|a v IH]; simpl.
  - split; [constructor | reflexivity].
  - pose proof (sumsq_nonneg v) as Hv. split.
    + intros H. assert (Ha : a = 0) by nra.
      constructor; [exact Ha | apply IH; nra].
    + intros H. inversion H as [|? ? Ha Hv']; subst.
      apply IH in Hv'. nra.
Qed.

End XnpFacts.


(** ** Facts on [get_householder_vec] *)

Section HouseholderFacts.
Import Xnp Householder.

Lemma firstn_zeros (n m : nat) :
  (n <= m)%nat -> firstn n (repeat 0 m) = repeat 0 n.
Proof.
  revert m; induction n as [|n IH]; intros [|m] Hle; simpl;
    try reflexivity; try lia.
  f_equal. apply IH. lia.
Qed.

Lemma update_at_app (pre tl : vec) (b a : R) :
  update_at (pre ++ b :: tl) a (length pre) = pre ++ a :: tl.
Proof. induction pre as [|c pre IH]; simpl; [reflexivity | now rewrite IH]. Qed.

Lemma nth_app_here (pre tl : vec) (a : R) :
  nth (length pre) (pre ++ a :: tl) 0 = a.
Proof. induction pre as [|c pre IH]; simpl; [reflexivity | exact IH]. Qed.

Lemma skipn_app_here (pre tl : vec) :
  skipn (length pre) (pre ++ tl) = tl.
Proof. induction pre as [|c pre IH]; simpl; [reflexivity | exact IH]. Qed.

Lemma skipn_app_next (pre tl : vec) (a : R) :
  skipn (length pre + 1) (pre ++ a :: tl) = tl.
Proof. induction pre as [|c pre IH]; simpl; [reflexivity | exact IH]. Qed.

Lemma firstn_app_here (pre tl : vec) :
  firstn (length pre) (pre ++ tl) = pre.
Proof.
  induction pre as [|c pre IH]; simpl; [now destruct tl | now rewrite IH].
Qed.

Lemma split_at_index (x : vec) (idx : nat) :
  (idx < length x)%nat ->
  exists pre tl, x = pre ++ nth idx x 0 :: tl /\ length pre = idx.
Proof.
  revert idx; induction x as [|a x IH]; intros idx Hlt; simpl in Hlt.
  - lia.
  - destruct idx as [|idx].
    + exists [], x. split; reflexivity.
    + destruct (IH idx) as (pre & tl & Hx & Hlen); [lia|].
      exists (a :: pre), tl. simpl. split; [now rewrite <- Hx | now rewrite Hlen].
Qed.

Lemma vdiv_zeros (n : nat) (a : R) : vdiv (repeat 0 n) a = repeat 0 n.
Proof.
  unfold vdiv. induction n as [|n IH]; simpl; [reflexivity|].
  rewrite IH. f_equal. unfold Rdiv. ring.
Qed.

Lemma vdiv_one (v : vec) : vdiv v 1 = v.
Proof.
  unfold vdiv. induction v as [|b v IH]; simpl; [reflexivity|].
  rewrite IH. f_equal. field.
Qed.

(** The reflector vector before the branches: zeros above the pivot, the
    entries of [x] from the pivot on. *)
Lemma householder_vec1 (pre tl : vec) (xi : R) :
  update_from (zeros_like (pre ++ xi :: tl))
    (skipn (length pre) (pre ++ xi :: tl)) (length pre)
  = repeat 0 (length pre) ++ xi :: tl.
Proof.
  unfold update_from, zeros_like.
  rewrite skipn_app_here, firstn_zeros; [reflexivity|].
  rewrite length_app. lia.
Qed.

(** The last lines of the general branch, once the pivot entry [v1] of the
    vector is known: two divisions by the pivot entry. *)
Lemma householder_normalise (pre tl : vec) (xi v1 s2 : R) :
  let idx := length pre in
  let vec2 := update_at (repeat 0 idx ++ xi :: tl) v1 idx in
  let vec3 := vdiv vec2 (nth idx vec2 0) in
  (update_from vec3 (vdiv (skipn idx vec3) (nth idx vec3 0)) idx,
   2 * (nth idx vec2 0) ^ 2 / (s2 + (nth idx vec2 0) ^ 2))
  = (repeat 0 idx ++ (v1 / v1) / (v1 / v1) :: vdiv (vdiv tl v1) (v1 / v1),
     2 * v1 ^ 2 / (s2 + v1 ^ 2)).
Proof.
  cbv zeta.
  pose proof (update_at_app (repeat 0 (length pre)) tl xi v1) as U.
  rewrite repeat_length in U. rewrite U.
  pose proof (nth_app_here (repeat 0 (length pre)) tl v1) as N1.
  rewrite repeat_length in N1. rewrite N1.
  assert (Hv3 : vdiv (repeat 0 (length pre) ++ v1 :: tl) v1
                = repeat 0 (length pre) ++ v1 / v1 :: vdiv tl v1).
  { unfold vdiv. rewrite map_app. simpl. f_equal. apply vdiv_zeros. }
  rewrite Hv3.
  pose proof (nth_app_here (repeat 0 (length pre)) (vdiv tl v1) (v1 / v1)) as N2.
  rewrite repeat_length in N2. rewrite N2.
  pose proof (skipn_app_here (repeat 0 (length pre)) (v1 / v1 :: vdiv tl v1)) as S2.
  rewrite repeat_length in S2.
  pose proof (firstn_app_here (repeat 0 (length pre)) (v1 / v1 :: vdiv tl v1)) as F2.
  rewrite repeat_length in F2.
  unfold update_from. rewrite S2, F2. reflexivity.
Qed.

(** [get_householder_vec] at a vector split around its pivot. *)
Lemma get_householder_vec_split (pre tl : vec) (xi : R) :
  get_householder_vec (pre ++ xi :: tl) (length pre) =
  let sigma_2 := sumsq tl in
  let z := repeat 0 (length pre) in
  if Reqb sigma_2 0 && Rleb 0 xi then Some (z ++ xi :: tl, 0)
  else if Reqb sigma_2 0 && Rltb xi 0 then Some (z ++ xi :: tl, -2)
  else
    let v1 := if Rleb xi 0 then xi - sqrt (xi ^ 2 + sigma_2)
              else - sigma_2 / (xi + sqrt (xi ^ 2 + sigma_2)) in
    Some (z ++ (v1 / v1) / (v1 / v1) :: vdiv (vdiv tl v1) (v1 / v1),
          2 * v1 ^ 2 / (sigma_2 + v1 ^ 2)).
Proof.
  unfold get_householder_vec.
  replace (length (pre ++ xi :: tl) <=? length pre)%nat with false.
  2:{ symmetry. apply Nat.leb_gt. rewrite length_app. simpl. lia. }
  rewrite skipn_app_next, norm_sq, nth_app_here, householder_vec1.
  cbv zeta.
  destruct (Reqb (sumsq tl) 0 && Rleb 0 xi); [reflexivity|].
  destruct (Reqb (sumsq tl) 0 && Rltb xi 0); [reflexivity|].
  f_equal.
  destruct (Rleb xi 0); apply householder_normalise.
Qed.

Lemma dot_zeros_r (u : vec) (n : nat) : dot u (repeat 0 n) = 0.
Proof.
  revert n; induction u as [|a u IH]; intros [|n]; simpl; try reflexivity.
  rewrite IH. ring.
Qed.

Lemma dot_app (u1 u2 v1 v2 : vec) :
  length u1 = length v1 ->
  dot (u1 ++ u2) (v1 ++ v2) = dot u1 v1 + dot u2 v2.
Proof.
  revert v1; induction u1 as [|a u1 IH]; intros [|b v1] Hlen; simpl in *;
    try discriminate; [ring|].
  rewrite IH by congruence. ring.
Qed.

Lemma dot_self_scaled (tl : vec) (c : R) :
  dot tl (map (fun b => b * c) tl) = sumsq tl * c.
Proof. induction tl as [|a tl IH]; simpl; [ring | rewrite IH; ring]. Qed.

Lemma dot_zero_l (tl v : vec) : Forall (fun a => a = 0) tl -> dot tl v = 0.
Proof.
  intros H; revert v; induction H as [|a tl Ha _ IH]; intros [|b v]; simpl;
    try reflexivity.
  rewrite IH, Ha. ring.
Qed.

Lemma combine_app_eq {A B : Type} (l1 l2 : list A) (m1 m2 : list B) :
  length l1 = length m1 ->
  combine (l1 ++ l2) (m1 ++ m2) = combine l1 m1 ++ combine l2 m2.
Proof.
  revert m1; induction l1 as [|a l1 IH]; intros [|b m1] Hlen; simpl in *;
    try discriminate; [reflexivity|].
  now rewrite IH by congruence.
Qed.

(** The reflector applied to a vector split around the pivot. *)
Lemma householder_matmat_split (pre tl z vt : vec) (xi vi beta : R) :
  length pre = length z ->
  householder_matmat (z ++ vi :: vt) beta (pre ++ xi :: tl) =
  let f := fun p : R * R =>
    fst p - beta * dot (pre ++ xi :: tl) (z ++ vi :: vt) * snd p in
  map f (combine pre z) ++ f (xi, vi) :: map f (combine tl vt).
Proof.
  intros Hlen. unfold householder_matmat. cbv zeta.
  rewrite combine_app_eq by exact Hlen. rewrite map_app. reflexivity.
Qed.

Lemma nth_past_pivot (l1 l2 : vec) (a : R) (i : nat) :
  Forall (fun b => b = 0) l2 ->
  (length l1 < i)%nat ->
  nth i (l1 ++ a :: l2) 0 = 0.
Proof.
  intros Hz Hi. rewrite app_nth2 by lia.
  destruct (i - length l1)%nat as [|j] eqn:E; [lia|]. simpl.
  clear - Hz. revert j; induction Hz as [|b l2 Hb _ IH]; intros [|j]; simpl;
    auto.
Qed.

(** In the general branch both formulas for the pivot entry give
    [x[idx] - norm], which is not zero and solves the reflector equation. *)
Lemma householder_pivot_entry (xi s2 : R) :
  0 < s2 ->
  let v1 := if Rleb xi 0 then xi - sqrt (xi ^ 2 + s2)
            else - s2 / (xi + sqrt (xi ^ 2 + s2)) in
  v1 <> 0 /\ v1 ^ 2 - 2 * xi * v1 - s2 = 0.
Proof.
  intros Hs. cbv zeta.
  assert (Hpos : 0 < xi ^ 2 + s2) by nra.
  pose proof (sqrt_lt_R0 _ Hpos) as Hmu.
  pose proof (sqrt_sqrt (xi ^ 2 + s2) (Rlt_le _ _ Hpos)) as Hsq.
  set (mu := sqrt (xi ^ 2 + s2)) in *.
  destruct (Rleb xi 0) eqn:E.
  - apply Rleb_true in E. split; nra.
  - apply Rleb_false in E.
    assert (Hv : - s2 / (xi + mu) = xi - mu) by (field_simplify_eq; nra).
    rewrite Hv. split; nra.
Qed.

(** C9. When the entries of [x] strictly below the pivot have norm exactly
    zero, [get_householder_vec] returns [beta = 0] for a pivot entry
    [x[idx] >= 0] and [beta = -2] for a pivot entry [x[idx] < 0]. *)
Theorem householder_degenerate_beta (x : vec) (idx : nat) :
  (idx < length x)%nat ->
  norm (skipn (idx + 1) x) = 0 ->
  exists v beta,
    get_householder_vec x idx = Some (v, beta) /\
    (0 <= nth idx x 0 -> beta = 0) /\
    (nth idx x 0 < 0 -> beta = -2).
Proof.
  intros Hidx Hnorm.
  destruct (split_at_index x idx Hidx) as (pre & tl & Hx & Hlen).
  set (xi := nth idx x 0) in *. clearbody xi. subst x idx.
  rewrite skipn_app_next in Hnorm.
  assert (Hs : sumsq tl = 0) by (rewrite <- norm_sq, Hnorm; ring).
  rewrite get_householder_vec_split. cbv zeta. rewrite Hs.
  replace (Reqb 0 0) with true by (symmetry; now apply Reqb_true).
  simpl andb.
  destruct (Rleb 0 xi) eqn:E1.
  - apply Rleb_true in E1. do 2 eexists. split; [reflexivity|]. split; intros; lra.
  - apply Rleb_false in E1.
    replace (Rltb xi 0) with true by (symmetry; now apply Rltb_true).
    do 2 eexists. split; [reflexivity|]. split; intros; lra.
Qed.

Lemma householder_degenerate_beta_witness :
  exists v beta,
    get_householder_vec [1; -3; 0; 0] 1 = Some (v, beta) /\
    (0 <= nth 1 [1; -3; 0; 0] 0 -> beta = 0) /\
    (nth 1 [1; -3; 0; 0] 0 < 0 -> beta = -2).
Proof.
  apply (householder_degenerate_beta [1; -3; 0; 0] 1).
  - simpl. lia.
  - unfold norm. simpl.
    replace (0 * 0 + (0 * 0 + 0)) with 0 by ring. apply sqrt_0.
Defined.

End HouseholderFacts.

(** ** The array backend on n-dimensional arrays

    An array is its shape and its entries in row-major (C) order, as numpy,
    jax and torch lay them out.  [None] stands for the exception the backend
    raises. *)

Module NP.

Record ndarray := mk_ndarray { shape : list nat; data : list R }.

(** Number of entries of an array of shape [s]. *)
Definition size (s : list nat) : nat := fold_right Nat.mul 1%nat s.

(** Offset of the multi-index [idx] in an array of shape [s]. *)
Fixpoint ravel (s idx : list nat) : nat :=
  match s, idx with
  | _ :: s', i :: idx' => (i * size s' + ravel s' idx')%nat
  | _, _ => 0%nat
  end.

(** The multi-index at offset [p] in an array of shape [s]. *)
Fixpoint unravel (s : list nat) (p : nat) : list nat :=
  match s with
  | [] => []
  | _ :: s' => (p / size s')%nat :: unravel s' (p mod size s')
  end.

(** All the multi-indices of shape [s], in row-major order. *)
Fixpoint indices (s : list nat) : list (list nat) :=
  match s with
  | [] => [[]]
  | n :: s' => flat_map (fun i => map (cons i) (indices s')) (seq 0 n)
  end.

(** [a[idx]] *)
Definition get (a : ndarray) (idx : list nat) : R :=
  nth (ravel (shape a) idx) (data a) 0.

(** The array of shape [s] whose entry at [idx] is [f idx]. *)
Definition of_fun (s : list nat) (f : list nat -> R) : ndarray :=
  mk_ndarray s (map f (indices s)).

(** [idx] is a multi-index of shape [s]. *)
Definition in_shape (idx s : list nat) : Prop := Forall2 lt idx s.

(** The entries of [a] fill its shape. *)
Definition wf (a : ndarray) : Prop := length (data a) = size (shape a).

(** [a.reshape(s)] *)
Definition reshape (s : list nat) (a : ndarray) : option ndarray :=
  if (size s =? size (shape a))%nat then Some (mk_ndarray s (data a))
  else None.

(** [a.reshape(d1, ..., dk, -1)]: the last dimension is inferred, which the
    backends refuse when the known dimensions multiply to zero or do not
    divide the number of entries. *)
Definition reshape_infer (dims : list nat) (a : ndarray) : option ndarray :=
  let known := size dims in
  let total := size (shape a) in
  if (known =? 0)%nat then None
  else if (total mod known =? 0)%nat
       then Some (mk_ndarray (dims ++ [(total / known)%nat]) (data a))
       else None.

Fixpoint remove_at {A : Type} (i : nat) (l : list A) : list A :=
  match l, i with
  | [], _ => []
  | _ :: l', O => l'
  | a :: l', S i' => a :: remove_at i' l'
  end.

Fixpoint insert_at {A : Type} (i : nat) (x : A) (l : list A) : list A :=
  match i, l with
  | O, _ => x :: l
  | S i', a :: l' => a :: insert_at i' x l'
  | S _, [] => [x]
  end.

(** The list [l] with its element at position [src] moved to [dst]. *)
Definition move {A : Type} (src dst : nat) (d : A) (l : list A) : list A :=
  insert_at dst (nth src l d) (remove_at src l).

(** [xnp.moveaxis(a, src, dst)] *)
Definition moveaxis (a : ndarray) (src dst : nat) : option ndarray :=
  let nd := length (shape a) in
  if (src <? nd)%nat && (dst <? nd)%nat then
    Some (of_fun (move src dst 0%nat (shape a))
                 (fun idx => get a (move dst src 0%nat idx)))
  else None.

(** Sum of [f 0 .. f (n-1)]. *)
Fixpoint Rsum (n : nat) (f : nat -> R) : R :=
  match n with
  | O => 0
  | S n' => Rsum n' f + f n'
  end.

(** [a @ b] for two-dimensional arrays. *)
Definition matmul (a b : ndarray) : option ndarray :=
  match shape a, shape b with
  | [m; n], [n'; p] =>
    if (n =? n')%nat then
      Some (of_fun [m; p]
              (fun idx => Rsum n (fun k =>
                 get a [nth 0 idx 0%nat; k] * get b [k; nth 1 idx 0%nat])))
    else None
  | _, _ => None
  end.

(** [xnp.kron(a, b)] for two-dimensional arrays. *)
Definition kron (a b : ndarray) : option ndarray :=
  match shape a, shape b with
  | [m; n], [p; q] =>
    Some (of_fun [(m * p)%nat; (n * q)%nat]
            (fun idx =>
               let i := nth 0 idx 0%nat in
               let j := nth 1 idx 0%nat in
               get a [(i / p)%nat; (j / q)%nat]
               * get b [(i mod p)%nat; (j mod q)%nat]))
  | _, _ => None
  end.

(** Broadcasting of two shapes, aligned at their last dimensions. *)
Fixpoint broadcast_rev (r1 r2 : list nat) : option (list nat) :=
  match r1, r2 with
  | [], _ => Some r2
  | _, [] => Some r1
  | d1 :: r1', d2 :: r2' =>
    match broadcast_rev r1' r2' with
    | None => None
    | Some r =>
      if (d1 =? d2)%nat then Some (d1 :: r)
      else if (d1 =? 1)%nat then Some (d2 :: r)
      else if (d2 =? 1)%nat then Some (d1 :: r)
      else None
    end
  end.

Definition broadcast_shapes (s1 s2 : list nat) : option (list nat) :=
  option_map (@rev nat) (broadcast_rev (rev s1) (rev s2)).

(** The entry of [a] that broadcasting puts at [idx] of a larger shape. *)
Definition bget (a : ndarray) (idx : list nat) : R :=
  let own := skipn (length idx - length (shape a)) idx in
  get a (map (fun p => if (fst p =? 1)%nat then 0%nat else snd p)
             (combine (shape a) own)).

(** [a op b] with broadcasting. *)
Definition binop (op : R -> R -> R) (a b : ndarray) : option ndarray :=
  match broadcast_shapes (shape a) (shape b) with
  | Some s => Some (of_fun s (fun idx => op (bget a idx) (bget b idx)))
  | None => None
  end.

Fixpoint shape_eqb (s1 s2 : list nat) : bool :=
  match s1, s2 with
  | [], [] => true
  | d1 :: s1', d2 :: s2' => (d1 =? d2)%nat && shape_eqb s1' s2'
  | _, _ => false
  end.

(** [a += b]: the sum must have the shape of [a]. *)
Definition iadd (a b : ndarray) : option ndarray :=
  match binop Rplus a b with
  | Some c => if shape_eqb (shape c) (shape a) then Some c else None
  | None => None
  end.

(** [xnp.zeros(shape)] *)
Definition zeros (s : list nat) : ndarray := of_fun s (fun _ => 0).

(** [a[:-1]] along the first axis. *)
Definition drop_last_row (a : ndarray) : option ndarray :=
  match shape a with
  | [] => None
  | n :: s' =>
    Some (mk_ndarray ((n - 1)%nat :: s')
            (firstn ((n - 1) * size s') (data a)))
  end.

(** [a[1:]] along the first axis. *)
Definition drop_first_row (a : ndarray) : option ndarray :=
  match shape a with
  | [] => None
  | n :: s' =>
    Some (mk_ndarray ((n - 1)%nat :: s') (skipn (size s') (data a)))
  end.

(** Position of [i] in the index array [ind], the last one if repeated. *)
Fixpoint find_last (i : nat) (ind : list nat) (k : nat) : option nat :=
  match ind with
  | [] => None
  | j :: ind' =>
    match find_last i ind' (S k) with
    | Some k' => Some k'
    | None => if (i =? j)%nat then Some k else None
    end
  end.

(** [xnp.array(l)] of a list [l] of integers, for use as an array of
    indices: the array of the empty list is an array of floats, with which
    no backend indexes. *)
Definition index_array (l : list nat) : option (list nat) :=
  match l with
  | [] => None
  | _ :: _ => Some l
  end.

(** [xnp.update_array(a, vals, ind)] with an array of row indices [ind]:
    [a[ind] = vals], where [vals] broadcasts to the rows selected. *)
Definition update_rows (a vals : ndarray) (ind : list nat) : option ndarray :=
  match shape a with
  | [] => None
  | n :: s' =>
    let target := length ind :: s' in
    if forallb (fun i => (i <? n)%nat) ind then
      match broadcast_shapes (shape vals) target with
      | Some s =>
        if shape_eqb s target then
          Some (of_fun (shape a)
                  (fun idx =>
                     match idx with
                     | i :: rest =>
                       match find_last i ind 0 with
                       | Some k => bget vals (k :: rest)
                       | None => get a idx
                       end
                     | [] => 0
                     end))
        else None
      | None => None
      end
    else None
  end.

(** [a.T]: the axes reversed. *)
Definition transpose (a : ndarray) : ndarray :=
  of_fun (rev (shape a)) (fun idx => get a (rev idx)).

(** [a[ind, :]] with an array of row indices [ind], for [a] of two or more
    dimensions. *)
Definition take_rows (a : ndarray) (ind : list nat) : option ndarray :=
  match shape a with
  | n :: (_ :: _) as s' =>
    if forallb (fun i => (i <? n)%nat) ind then
      Some (of_fun (length ind :: s')
              (fun idx =>
                 match idx with
                 | i :: rest => get a (nth i ind 0%nat :: rest)
                 | [] => 0
                 end))
    else None
  | _ => None
  end.

(** [a[i, j]] for a two-dimensional [a]. *)
Definition get_item2 (a : ndarray) (i j : nat) : option R :=
  match shape a with
  | [n; p] => if (i <? n)%nat && (j <? p)%nat then Some (get a [i; j]) else None
  | _ => None
  end.

(** [xnp.norm(a, axis=-2)] for a two-dimensional [a]. *)
Definition norm_axis_m2 (a : ndarray) : option ndarray :=
  match shape a with
  | [n; b] =>
    Some (of_fun [b]
            (fun idx => sqrt (Rsum n (fun i =>
               get a [i; nth 0 idx 0%nat] * get a [i; nth 0 idx 0%nat]))))
  | _ => None
  end.

(** [a[..., None]] *)
Definition expand_last (a : ndarray) : ndarray :=
  mk_ndarray (shape a ++ [1%nat]) (data a).

(** [a[:, 0]] for a two-dimensional [a]. *)
Definition first_col (a : ndarray) : option ndarray :=
  match shape a with
  | [n; p] =>
    if (0 <? p)%nat
    then Some (of_fun [n] (fun idx => get a [nth 0 idx 0%nat; 0%nat]))
    else None
  | _ => None
  end.

(** [a[:, :-1]] for a two-dimensional [a]. *)
Definition drop_last_col (a : ndarray) : option ndarray :=
  match shape a with
  | [n; p] => Some (of_fun [n; (p - 1)%nat] (fun idx => get a idx))
  | _ => None
  end.

(** [xnp.update_array(a, vals, i)] with an integer [i]: [a[i] = vals], where
    [vals] broadcasts to a row of [a]. *)
Definition update_row (a vals : ndarray) (i : nat) : option ndarray :=
  match shape a with
  | [] => None
  | n :: s' =>
    if (i <? n)%nat then
      match broadcast_shapes (shape vals) s' with
      | Some s =>
        if shape_eqb s s' then
          Some (of_fun (shape a)
                  (fun idx =>
                     match idx with
                     | i' :: rest =>
                       if (i' =? i)%nat then bget vals rest else get a idx
                     | [] => 0
                     end))
        else None
      | None => None
      end
    else None
  end.

(** [xnp.zeros_like(a)] *)
Definition zeros_like (a : ndarray) : ndarray := zeros (shape a).

End NP.

(** ** cola/operators.py: composite operators *)

Module Operators.
Import NP.

Notation "x <- a ;; b" := (match a with Some x => b | None => None end)
  (at level 61, a at next level, right associativity).

Inductive Dtype := float32 | float64 | complex64 | int64.

(** An operand [M]: a [Dense] operator, with the shape and dtype of the
    two-dimensional array it wraps and the entries of that array in row-major
    order. *)
Record Dense := mk_Dense {
  op_shape : nat * nat;
  op_dtype : Dtype;
  op_A : list R
}.

(** [M.A] *)
Definition to_array (M : Dense) : ndarray :=
  mk_ndarray [fst (op_shape M); snd (op_shape M)] (op_A M).

(** [M @ X] *)
Definition op_matmul (M : Dense) (X : ndarray) : option ndarray :=
  matmul (to_array M) X.

Inductive exn :=
| ValueError (s1 s2 : nat * nat)   (* "dimension mismatch s1 vs s2" *)
| IndexError
| TypeError.

(** The object [self] while [__init__] runs: each attribute is set or not. *)
Record instance := mk_instance {
  self_Ms : option (list Dense);
  self_dtype : option Dtype;
  self_shape : option (nat * nat)
}.

(** The object [__new__] hands to [__init__]. *)
Definition fresh : instance := mk_instance None None None.

(** [self.Ms = Ms] *)
Definition set_Ms (Ms : list Dense) (self : instance) : instance :=
  mk_instance (Some Ms) (self_dtype self) (self_shape self).

(** Modelled from the spec: [LinearOperator.__init__(dtype, shape)] of
    cola/operator_base.py is not among the sources; the spec gives a
    LinearOperator the attributes [shape] and [dtype], which it sets. *)
Definition LinearOperator_init (dtype : Dtype) (shape : nat * nat)
    (self : instance) : instance :=
  mk_instance (self_Ms self) (Some dtype) (Some shape).

Definition pair_eqb (s1 s2 : nat * nat) : bool :=
  (fst s1 =? fst s2)%nat && (snd s1 =? snd s2)%nat.

(** The loop of [Product.__init__] over [zip(Ms[:-1], Ms[1:])]. *)
Fixpoint Product_check (pairs : list (Dense * Dense)) : option exn :=
  match pairs with
  | [] => None
  | (M1, M2) :: pairs' =>
    if negb (snd (op_shape M1) =? fst (op_shape M2))%nat
    then Some (ValueError (op_shape M1) (op_shape M2))
    else Product_check pairs'
  end.

(** [Product.__init__(self, *Ms)]: the object after the call, and the
    exception raised if any. *)
Definition Product_init (Ms : list Dense) (self : instance)
    : instance * option exn :=
  let self := set_Ms Ms self in
  match Product_check (combine (removelast Ms) (tl Ms)) with
  | Some e => (self, Some e)
  | None =>
    match Ms with
    | [] => (self, Some IndexError)
    | M0 :: _ =>
      let shape := (fst (op_shape M0), snd (op_shape (last Ms M0))) in
      let dtype := op_dtype M0 in
      (LinearOperator_init dtype shape self, None)
    end
  end.

(** The loop of [Sum.__init__] over [Ms]. *)
Fixpoint Sum_check (shape : nat * nat) (Ms : list Dense) : option exn :=
  match Ms with
  | [] => None
  | M :: Ms' =>
    if negb (pair_eqb (op_shape M) shape)
    then Some (ValueError (op_shape M) shape)
    else Sum_check shape Ms'
  end.

(** [Sum.__init__(self, *Ms)] *)
Definition Sum_init (Ms : list Dense) (self : instance)
    : instance * option exn :=
  let self := set_Ms Ms self in
  match Ms with
  | [] => (self, Some IndexError)
  | M0 :: _ =>
    let shape := op_shape M0 in
    match Sum_check shape Ms with
    | Some e => (self, Some e)
    | None =>
      let dtype := op_dtype M0 in
      (LinearOperator_init dtype shape self, None)
    end
  end.

(** [product(c)]: [reduce(lambda a, b: a * b, c)], a [TypeError] on the
    empty list. *)
Definition product (c : list nat) : option nat :=
  match c with
  | [] => None
  | a :: c' => Some (fold_left Nat.mul c' a)
  end.

(** [Kronecker.__init__(self, *Ms)] *)
Definition Kronecker_init (Ms : list Dense) (self : instance)
    : instance * option exn :=
  let self := set_Ms Ms self in
  match product (map (fun Mi => fst (op_shape Mi)) Ms),
        product (map (fun Mi => snd (op_shape Mi)) Ms), Ms with
  | Some r, Some c, M0 :: _ =>
    (LinearOperator_init (op_dtype M0) (r, c) self, None)
  | _, _, _ => (self, Some TypeError)
  end.

(** [KronSum.__init__(self, *Ms)] *)
Definition KronSum_init (Ms : list Dense) (self : instance)
    : instance * option exn :=
  let self := set_Ms Ms self in
  match product (map (fun Mi => fst (op_shape Mi)) Ms),
        product (map (fun Mi => snd (op_shape Mi)) Ms), Ms with
  | Some r, Some c, M0 :: _ =>
    (LinearOperator_init (op_dtype M0) (r, c) self, None)
  | _, _, _ => (self, Some TypeError)
  end.

(** The scalar [0] that Python's [sum] starts from. *)
Definition scalar (c : R) : ndarray := mk_ndarray [] [c].

(** [sum(M @ v for M in Ms)], from the accumulator [acc]. *)
Fixpoint Sum_loop (Ms : list Dense) (v acc : ndarray) : option ndarray :=
  match Ms with
  | [] => Some acc
  | M :: Ms' =>
    y <- op_matmul M v ;;
    acc' <- binop Rplus acc y ;;
    Sum_loop Ms' v acc'
  end.

(** [Sum._matmat(self, v)] *)
Definition Sum_matmat (self : instance) (v : ndarray) : option ndarray :=
  Ms <- self_Ms self ;;
  Sum_loop Ms v (scalar 0).

(** [for M in Ms: v = M @ v] *)
Fixpoint Product_loop (Ms : list Dense) (v : ndarray) : option ndarray :=
  match Ms with
  | [] => Some v
  | M :: Ms' => v' <- op_matmul M v ;; Product_loop Ms' v'
  end.

(** [Product._matmat(self, v)]: the loop runs over [self.Ms[::-1]]. *)
Definition Product_matmat (self : instance) (v : ndarray) : option ndarray :=
  Ms <- self_Ms self ;;
  Product_loop (rev Ms) v.

(** The loop of [Kronecker._matmat] over [enumerate(self.Ms)], from the
    operand of index [i] on. *)
Fixpoint Kronecker_loop (Ms : list Dense) (i : nat) (ev : ndarray)
    : option ndarray :=
  match Ms with
  | [] => Some ev
  | M :: Ms' =>
    ev_front <- moveaxis ev i 0 ;;
    let shape := fst (op_shape M) :: tl (shape ev_front) in
    x <- reshape_infer [snd (op_shape M)] ev_front ;;
    y <- op_matmul M x ;;
    Mev_front <- reshape shape y ;;
    ev' <- moveaxis Mev_front 0 i ;;
    Kronecker_loop Ms' (S i) ev'
  end.

(** [Kronecker._matmat(self, v)] *)
Definition Kronecker_matmat (self : instance) (v : ndarray)
    : option ndarray :=
  Ms <- self_Ms self ;;
  sh <- self_shape self ;;
  ev <- reshape_infer (map (fun Mi => snd (op_shape Mi)) Ms) v ;;
  ev' <- Kronecker_loop Ms 0 ev ;;
  reshape [fst sh; last (shape ev') 0%nat] ev'.

(** [reduce(self.ops.kron, Ms)] *)
Fixpoint reduce_kron (acc : ndarray) (Ms : list ndarray) : option ndarray :=
  match Ms with
  | [] => Some acc
  | M :: Ms' => acc' <- kron acc M ;; reduce_kron acc' Ms'
  end.

(** [Kronecker.to_dense(self)] *)
Definition Kronecker_to_dense (self : instance) : option ndarray :=
  Ms <- self_Ms self ;;
  match map to_array Ms with
  | [] => None
  | M0 :: Ms' => reduce_kron M0 Ms'
  end.

(** [Tridiagonal(alpha, beta, gamma)] *)
Record Tridiagonal := mk_Tridiagonal {
  tri_alpha : ndarray;
  tri_beta : ndarray;
  tri_gamma : ndarray
}.

(** [Tridiagonal._matmat(self, X)].  With an empty [alpha] or [gamma] the
    index array [ind] is [xnp.array([])], and [update_array] raises. *)
Definition Tridiagonal_matmat (self : Tridiagonal) (X : ndarray)
    : option ndarray :=
  let aux_alpha := zeros (shape X) in
  let aux_gamma := zeros (shape X) in
  output <- binop Rmult (tri_beta self) X ;;
  let ind := index_array (map (fun i => (i + 1)%nat)
                              (seq 0 (hd 0%nat (shape (tri_alpha self))))) in
  X_head <- drop_last_row X ;;
  upd <- binop Rmult (tri_alpha self) X_head ;;
  ind <- ind ;;
  aux_alpha <- update_rows aux_alpha upd ind ;;
  output <- iadd output aux_alpha ;;
  let ind := index_array (seq 0 (hd 0%nat (shape (tri_gamma self)))) in
  X_tail <- drop_first_row X ;;
  upd <- binop Rmult (tri_gamma self) X_tail ;;
  ind <- ind ;;
  aux_gamma <- update_rows aux_gamma upd ind ;;
  iadd output aux_gamma.

(** The banded stencil of the tridiagonal matrix with [alpha] below, [beta]
    on and [gamma] above the diagonal, for a column [x]: entry [i] is
    [beta[i]*x[i] + alpha[i-1]*x[i-1] + gamma[i]*x[i+1]], the terms out of
    range left out. *)
Definition tridiagonal_stencil (alpha beta gamma x : list R) (i : nat) : R :=
  nth i beta 0 * nth i x 0
  + (if (0 <? i)%nat then nth (i - 1) alpha 0 * nth (i - 1) x 0 else 0)
  + (if (i + 1 <? length x)%nat then nth i gamma 0 * nth (i + 1) x 0 else 0).

(** Column [j] of a two-dimensional array. *)
Definition column (X : ndarray) (j : nat) : list R :=
  map (fun i => get X [i; j]) (seq 0 (hd 0%nat (shape X))).

End Operators.

(** ** Construction of composite operators *)

Section ConstructionFacts.
Import NP Operators.

(** Adjacent operands of a product agree on their inner dimension. *)
Fixpoint inner_dims_agree (Ms : list Dense) : Prop :=
  match Ms with
  | M1 :: ((M2 :: _) as Ms') =>
    snd (op_shape M1) = fst (op_shape M2) /\ inner_dims_agree Ms'
  | _ => True
  end.



Lemma adjacent_pairs_cons (M1 M2 : Dense) (Ms : list Dense) :
  combine (removelast (M1 :: M2 :: Ms)) (tl (M1 :: M2 :: Ms))
  = (M1, M2) :: combine (removelast (M2 :: Ms)) (tl (M2 :: Ms)).
Proof. reflexivity. Qed.

Lemma Product_check_spec (Ms : list Dense) :
  (inner_dims_agree Ms ->
   Product_check (combine (removelast Ms) (tl Ms)) = None) /\
  (~ inner_dims_agree Ms ->
   exists s1 s2,
     Product_check (combine (removelast Ms) (tl Ms)) = Some (ValueError s1 s2)).
Proof.
  induction Ms as [|M1 Ms IH].
  - split; [reflexivity|]. intros H. exfalso. now apply H.
  - destruct Ms as [|M2 Ms].
    + split; [reflexivity|]. intros H. exfalso. now apply H.
    + rewrite adjacent_pairs_cons. destruct IH as [IH1 IH2].
      cbn [Product_check inner_dims_agree].
      destruct (snd (op_shape M1) =? fst (op_shape M2))%nat eqn:E; simpl.
      * apply Nat.eqb_eq in E. split.
        -- intros [_ H]. now apply IH1.
        -- intros H. apply IH2. intros HF. apply H. now split.
      * apply Nat.eqb_neq in E. split.
        -- intros [H _]. contradiction.
        -- intros _. now do 2 eexists.
Qed.

Lemma broadcast_rev_same (r : list nat) : broadcast_rev r r = Some r.
Proof.
  induction r as [|d r IH]; simpl; [reflexivity|].
  now rewrite IH, Nat.eqb_refl.
Qed.

Lemma broadcast_shapes_same (s : list nat) : broadcast_shapes s s = Some s.
Proof.
  unfold broadcast_shapes. rewrite broadcast_rev_same. simpl.
  now rewrite rev_involutive.
Qed.

Lemma broadcast_shapes_scalar (s : list nat) : broadcast_shapes [] s = Some s.
Proof. unfold broadcast_shapes. simpl. now rewrite rev_involutive. Qed.



Lemma Product_loop_app (l1 l2 : list Dense) (v : ndarray) :
  Product_loop (l1 ++ l2) v =
  match Product_loop l1 v with
  | Some v' => Product_loop l2 v'
  | None => None
  end.
Proof.
  revert v; induction l1 as [|M l1 IH]; intros v; simpl; [reflexivity|].
  destruct (op_matmul M v); [apply IH | reflexivity].
Qed.

Lemma last_nonempty_default {A : Type} (a : A) (l : list A) (d d' : A) :
  last (a :: l) d = last (a :: l) d'.
Proof.
  revert a; induction l as [|b l IH]; intros a; [reflexivity|].
  change (last (b :: l) d = last (b :: l) d'). apply IH.
Qed.


(** C7, as the claim states it, fails: a [Sum] and a [Product] of a 2x2
    and a 3x3 operand raise their dimension mismatch after [self.Ms] has been
    assigned, so the object is no longer the fresh one. *)
Lemma validation_before_fields_counterexample :
  let A := mk_Dense (2, 2)%nat float64 [1; 0; 0; 1] in
  let B := mk_Dense (3, 3)%nat float64 [1; 0; 0; 0; 1; 0; 0; 0; 1] in
  snd (Sum_init [A; B] fresh) = Some (ValueError (3, 3)%nat (2, 2)%nat)
  /\ snd (Product_init [A; B] fresh) = Some (ValueError (2, 2)%nat (3, 3)%nat)
  /\ self_Ms (fst (Sum_init [A; B] fresh)) = Some [A; B]
  /\ self_Ms (fst (Product_init [A; B] fresh)) = Some [A; B]
  /\ self_Ms fresh = None.
Proof. cbv zeta. repeat split; reflexivity. Qed.

(** C7, amended. When the construction of a composite operator raises, the
    validation has run after [self.Ms] was assigned and before
    [LinearOperator.__init__]: the object holds [Ms] and neither a shape nor a
    dtype. *)
Theorem failed_construction_state (Ms : list Dense) (self' : instance)
    (e : exn) :
  Sum_init Ms fresh = (self', Some e)
  \/ Product_init Ms fresh = (self', Some e)
  \/ Kronecker_init Ms fresh = (self', Some e)
  \/ KronSum_init Ms fresh = (self', Some e) ->
  self_Ms self' = Some Ms /\ self_dtype self' = None /\ self_shape self' = None.
Proof.
  intros [H | [H | [H | H]]].
  - unfold Sum_init in H. destruct Ms as [|M0 Ms'].
    + inversion H; subst. repeat split.
    + destruct (Sum_check (op_shape M0) (M0 :: Ms')); inversion H; subst.
      repeat split.
  - unfold Product_init in H.
    destruct (Product_check (combine (removelast Ms) (tl Ms))).
    + inversion H; subst. repeat split.
    + destruct Ms; inversion H; subst. repeat split.
  - unfold Kronecker_init in H.
    destruct (product (map (fun Mi => fst (op_shape Mi)) Ms));
      destruct (product (map (fun Mi => snd (op_shape Mi)) Ms));
      destruct Ms; inversion H; subst; repeat split.
  - unfold KronSum_init in H.
    destruct (product (map (fun Mi => fst (op_shape Mi)) Ms));
      destruct (product (map (fun Mi => snd (op_shape Mi)) Ms));
      destruct Ms; inversion H; subst; repeat split.
Qed.

Lemma failed_construction_state_witness :
  let A := mk_Dense (2, 2)%nat float64 [1; 0; 0; 1] in
  let B := mk_Dense (3, 3)%nat float64 [1; 0; 0; 0; 1; 0; 0; 0; 1] in
  self_Ms (set_Ms [A; B] fresh) = Some [A; B]
  /\ self_dtype (set_Ms [A; B] fresh) = None
  /\ self_shape (set_Ms [A; B] fresh) = None.
Proof.
  cbv zeta.
  apply (failed_construction_state _ _ (ValueError (3, 3)%nat (2, 2)%nat)).
  left. reflexivity.
Defined.


End ConstructionFacts.

(** ** Facts on n-dimensional arrays *)

Section NdarrayFacts.
Import NP.

Lemma flat_map_length_const {A B : Type} (g : A -> list B) (l : list A)
    (L : nat) :
  (forall a, In a l -> length (g a) = L) ->
  length (flat_map g l) = (length l * L)%nat.
Proof.
  induction l as [|a l IH]; intros H; simpl; [reflexivity|].
  rewrite length_app, H by now left. rewrite IH; [lia|].
  intros b Hb. apply H. now right.
Qed.

Lemma indices_length (s : list nat) : length (indices s) = size s.
Proof.
  induction s as [|n s IH]; simpl; [reflexivity|].
  rewrite flat_map_length_const with (L := size s).
  - now rewrite length_seq.
  - intros a _. now rewrite length_map.
Qed.

Lemma nth_flat_map_seq {B : Type} (g : nat -> list B) (L a n i r : nat)
    (d : B) :
  (forall j, length (g j) = L) ->
  (i < n)%nat -> (r < L)%nat ->
  nth (i * L + r) (flat_map g (seq a n)) d = nth r (g (a + i)%nat) d.
Proof.
  intros HL. revert a i. induction n as [|n IH]; intros a i Hi Hr; [lia|].
  simpl. destruct i as [|i].
  - simpl. rewrite app_nth1 by (rewrite HL; exact Hr).
    now rewrite Nat.add_0_r.
  - rewrite app_nth2 by (rewrite HL; simpl; lia).
    rewrite HL. replace (S i * L + r - L)%nat with (i * L + r)%nat
      by (simpl; lia).
    rewrite IH by lia. f_equal. f_equal. lia.
Qed.

Lemma ravel_lt (s idx : list nat) :
  in_shape idx s -> (ravel s idx < size s)%nat.
Proof.
  intros H. induction H as [|i n idx s Hi _ IH]; simpl; [lia|]. nia.
Qed.

Lemma nth_indices_ravel (s idx : list nat) (d : list nat) :
  in_shape idx s -> nth (ravel s idx) (indices s) d = idx.
Proof.
  intros H. induction H as [|i n idx s Hi Hin IH]; [reflexivity|].
  cbn [ravel indices].
  rewrite nth_flat_map_seq with (L := size s).
  - simpl. rewrite nth_indep with (d' := i :: d).
    + rewrite map_nth. now rewrite IH.
    + rewrite length_map, indices_length. now apply ravel_lt.
  - intros j. now rewrite length_map, indices_length.
  - exact Hi.
  - now apply ravel_lt.
Qed.

Lemma size_pos_of_lt (s : list nat) (p : nat) :
  (p < size s)%nat -> (0 < size s)%nat.
Proof. lia. Qed.

Lemma unravel_in_shape (s : list nat) (p : nat) :
  (p < size s)%nat -> in_shape (unravel s p) s.
Proof.
  revert p; induction s as [|n s IH]; intros p Hp; simpl in *.
  - constructor.
  - assert (Hs : (0 < size s)%nat) by nia.
    constructor.
    + apply Nat.Div0.div_lt_upper_bound. lia.
    + apply IH. apply Nat.mod_upper_bound. lia.
Qed.

Lemma ravel_unravel (s : list nat) (p : nat) :
  (p < size s)%nat -> ravel s (unravel s p) = p.
Proof.
  revert p; induction s as [|n s IH]; intros p Hp; simpl in *.
  - lia.
  - assert (Hs : (0 < size s)%nat) by nia.
    rewrite IH by (apply Nat.mod_upper_bound; lia).
    rewrite (Nat.div_mod_eq p (size s)) at 3. lia.
Qed.

Lemma unravel_ravel (s idx : list nat) :
  in_shape idx s -> unravel s (ravel s idx) = idx.
Proof.
  intros H. induction H as [|i n idx s Hi Hin IH]; [reflexivity|].
  cbn [ravel unravel]. pose proof (ravel_lt _ _ Hin) as Hr.
  f_equal.
  - rewrite Nat.div_add_l by lia. rewrite Nat.div_small by exact Hr. lia.
  - rewrite Nat.add_comm, Nat.Div0.mod_add, Nat.mod_small by exact Hr.
    exact IH.
Qed.

Lemma of_fun_wf (s : list nat) (f : list nat -> R) : wf (of_fun s f).
Proof. unfold wf, of_fun. simpl. now rewrite length_map, indices_length. Qed.

Lemma get_of_fun (s : list nat) (f : list nat -> R) (idx : list nat) :
  in_shape idx s -> get (of_fun s f) idx = f idx.
Proof.
  intros H. unfold get, of_fun. simpl.
  rewrite nth_indep with (d' := f []).
  - rewrite map_nth. now rewrite nth_indices_ravel.
  - rewrite length_map, indices_length. now apply ravel_lt.
Qed.

Lemma nth_data_get (a : ndarray) (p : nat) :
  (p < size (shape a))%nat ->
  nth p (data a) 0 = get a (unravel (shape a) p).
Proof. intros Hp. unfold get. now rewrite ravel_unravel. Qed.

(** Two arrays of one shape with the same entries are equal. *)
Lemma ndarray_ext (a b : ndarray) :
  wf a -> wf b -> shape a = shape b ->
  (forall idx, in_shape idx (shape a) -> get a idx = get b idx) ->
  a = b.
Proof.
  intros Ha Hb Hs Hget. destruct a as [sa da], b as [sb db].
  unfold wf in *. simpl in *. subst sb. f_equal.
  apply nth_ext with (d := 0) (d' := 0); [congruence|].
  intros p Hp. rewrite Ha in Hp.
  pose proof (Hget (unravel sa p) (unravel_in_shape sa p Hp)) as E.
  unfold get in E. simpl in E. now rewrite ravel_unravel in E.
Qed.

End NdarrayFacts.

(** ** [Tridiagonal._matmat] *)

Section TridiagonalFacts.
Import NP Operators.

(** C8, counterexample.  With one-dimensional diagonals [alpha = [5]],
    [beta = [1, 2]], [gamma = [7]] and the batch [X = [[1, 1], [0, 0]]] of
    two columns, [Tridiagonal._matmat] returns the entry [2] in row 0 of
    column 1: [self.beta * X] broadcasts [beta] along the columns, so that
    entry is [beta[1] * X[0, 1]], where the stencil of column 1 has
    [beta[0] * x[0] + gamma[0] * x[1] = 1].  And for [n = 1], whatever the
    layout of the diagonals (here columns), [alpha] is empty, [ind] is the
    empty array and [update_array] raises, where the stencil is
    [beta[0] * x[0]]. *)
Theorem Tridiagonal_matmat_batch_diverges :
  (let T := mk_Tridiagonal (mk_ndarray [1%nat] [5]) (mk_ndarray [2%nat] [1; 2])
              (mk_ndarray [1%nat] [7]) in
   let X := mk_ndarray [2%nat; 2%nat] [1; 1; 0; 0] in
   exists out,
     Tridiagonal_matmat T X = Some out
     /\ shape out = [2%nat; 2%nat]
     /\ get out [0%nat; 1%nat] = 2
     /\ tridiagonal_stencil [5] [1; 2] [7] (column X 1) 0 = 1
     /\ get out [0%nat; 1%nat]
        <> tridiagonal_stencil [5] [1; 2] [7] (column X 1) 0)
  /\ Tridiagonal_matmat
       (mk_Tridiagonal (mk_ndarray [0%nat; 1%nat] [])
          (mk_ndarray [1%nat; 1%nat] [3]) (mk_ndarray [0%nat; 1%nat] []))
       (mk_ndarray [1%nat; 1%nat] [1]) = None.
Proof.
  split; [|reflexivity].
  cbv zeta. eexists. split.
  - cbv -[IZR Rplus Rmult]. reflexivity.
  - cbv -[IZR Rplus Rmult]. repeat split; lra.
Qed.

End TridiagonalFacts.

(** ** Finite sums over indices and multi-indices *)

Section SumFacts.
Import NP.

(** Sum of [g js] over the multi-indices [js] of shape [ns]. *)
Fixpoint msum (ns : list nat) (g : list nat -> R) : R :=
  match ns with
  | [] => g []
  | n :: ns' => Rsum n (fun j => msum ns' (fun js => g (j :: js)))
  end.

Lemma Rsum_ext (n : nat) (f g : nat -> R) :
  (forall k, (k < n)%nat -> f k = g k) -> Rsum n f = Rsum n g.
Proof.
  induction n as [|n IH]; intros H; simpl; [reflexivity|].
  rewrite IH, H by (intros; try apply H; lia). reflexivity.
Qed.

Lemma Rsum_zero (n : nat) : Rsum n (fun _ => 0) = 0.
Proof. induction n as [|n IH]; simpl; [reflexivity | rewrite IH; ring]. Qed.

Lemma Rsum_plus (n : nat) (f g : nat -> R) :
  Rsum n (fun k => f k + g k) = Rsum n f + Rsum n g.
Proof. induction n as [|n IH]; simpl; [ring | rewrite IH; ring]. Qed.

Lemma Rsum_scal (n : nat) (c : R) (f : nat -> R) :
  c * Rsum n f = Rsum n (fun k => c * f k).
Proof. induction n as [|n IH]; simpl; [ring | rewrite <- IH; ring]. Qed.

Lemma Rsum_scal_r (n : nat) (c : R) (f : nat -> R) :
  Rsum n f * c = Rsum n (fun k => f k * c).
Proof. induction n as [|n IH]; simpl; [ring | rewrite <- IH; ring]. Qed.

Lemma Rsum_swap (n m : nat) (f : nat -> nat -> R) :
  Rsum n (fun i => Rsum m (fun j => f i j))
  = Rsum m (fun j => Rsum n (fun i => f i j)).
Proof.
  induction n as [|n IH]; simpl.
  - now rewrite Rsum_zero.
  - now rewrite IH, <- Rsum_plus.
Qed.

Lemma Rsum_app (a b : nat) (h : nat -> R) :
  Rsum (a + b) h = Rsum a h + Rsum b (fun r => h (a + r)%nat).
Proof.
  induction b as [|b IH]; simpl.
  - rewrite Nat.add_0_r. ring.
  - rewrite Nat.add_succ_r. simpl. rewrite IH. ring.
Qed.

Lemma Rsum_blocks (n P : nat) (h : nat -> R) :
  Rsum (n * P) h = Rsum n (fun j => Rsum P (fun r => h (j * P + r)%nat)).
Proof.
  induction n as [|n IH]; simpl; [reflexivity|].
  rewrite Nat.add_comm, Rsum_app, IH. reflexivity.
Qed.

Lemma msum_ext (ns : list nat) (f g : list nat -> R) :
  (forall js, in_shape js ns -> f js = g js) -> msum ns f = msum ns g.
Proof.
  revert f g; induction ns as [|n ns IH]; intros f g H; simpl.
  - apply H. constructor.
  - apply Rsum_ext. intros k Hk. apply IH. intros js Hjs.
    apply H. now constructor.
Qed.

Lemma msum_Rsum_swap (ns : list nat) (n : nat) (g : nat -> list nat -> R) :
  msum ns (fun js => Rsum n (fun j => g j js))
  = Rsum n (fun j => msum ns (g j)).
Proof.
  revert g; induction ns as [|m ns IH]; intros g; simpl; [reflexivity|].
  rewrite Rsum_swap. apply Rsum_ext. intros j _.
  rewrite <- (IH (fun j js => g j (_ :: js))). reflexivity.
Qed.

(** A sum over the offsets of a shape is the sum over its multi-indices. *)
Lemma Rsum_size_msum (ns : list nat) (h : nat -> R) :
  Rsum (size ns) h = msum ns (fun js => h (ravel ns js)).
Proof.
  revert h; induction ns as [|n ns IH]; intros h; simpl.
  - ring.
  - rewrite Rsum_blocks. apply Rsum_ext. intros j _. now rewrite IH.
Qed.

End SumFacts.

(** ** [Kronecker._matmat] and [Kronecker.to_dense] *)

Section KroneckerFacts.
Import NP Operators.

Definition rows (M : Dense) : nat := fst (op_shape M).
Definition cols (M : Dense) : nat := snd (op_shape M).

(** Entry [(i, j)] of the operand [M]. *)
Definition entry (M : Dense) (i j : nat) : R := get (to_array M) [i; j].

(** One trip of the loop of [Kronecker._matmat]. *)
Definition Kronecker_step (M : Dense) (i : nat) (ev : ndarray)
    : option ndarray :=
  ev_front <- moveaxis ev i 0 ;;
  let shape := fst (op_shape M) :: tl (shape ev_front) in
  x <- reshape_infer [snd (op_shape M)] ev_front ;;
  y <- op_matmul M x ;;
  Mev_front <- reshape shape y ;;
  moveaxis Mev_front 0 i.

Lemma Kronecker_loop_cons (M : Dense) (Ms : list Dense) (i : nat)
    (ev : ndarray) :
  Kronecker_loop (M :: Ms) i ev =
  match Kronecker_step M i ev with
  | Some ev' => Kronecker_loop Ms (S i) ev'
  | None => None
  end.
Proof.
  unfold Kronecker_step. cbn [Kronecker_loop].
  destruct (moveaxis ev i 0); [|reflexivity].
  destruct (reshape_infer _ _); [|reflexivity].
  destruct (op_matmul M _); [|reflexivity].
  destruct (reshape _ _); [|reflexivity].
  reflexivity.
Qed.

Lemma remove_at_app {A : Type} (pre post : list A) (x : A) :
  remove_at (length pre) (pre ++ x :: post) = pre ++ post.
Proof. induction pre as [|a pre IH]; simpl; [reflexivity | now rewrite IH]. Qed.

Lemma insert_at_app {A : Type} (pre post : list A) (x : A) :
  insert_at (length pre) x (pre ++ post) = pre ++ x :: post.
Proof.
  induction pre as [|a pre IH]; simpl; [now destruct post | now rewrite IH].
Qed.

Lemma nth_app_mid {A : Type} (pre post : list A) (x d : A) :
  nth (length pre) (pre ++ x :: post) d = x.
Proof. induction pre as [|a pre IH]; simpl; [reflexivity | exact IH]. Qed.

Lemma in_shape_app (i1 i2 s1 s2 : list nat) :
  in_shape i1 s1 -> in_shape i2 s2 -> in_shape (i1 ++ i2) (s1 ++ s2).
Proof. apply Forall2_app. Qed.

Lemma in_shape_length (idx s : list nat) :
  in_shape idx s -> length idx = length s.
Proof. apply Forall2_length. Qed.

Lemma size_app (s1 s2 : list nat) : size (s1 ++ s2) = (size s1 * size s2)%nat.
Proof. induction s1 as [|n s1 IH]; simpl; [lia | rewrite IH; lia]. Qed.

Lemma moveaxis_to_front (ev : ndarray) (pre_s post_s : list nat) (n : nat) :
  shape ev = pre_s ++ n :: post_s ->
  moveaxis ev (length pre_s) 0
  = Some (of_fun (n :: pre_s ++ post_s)
            (fun idx => get ev (move 0 (length pre_s) 0%nat idx))).
Proof.
  intros Hs. unfold moveaxis. rewrite Hs.
  replace (length pre_s <? length (pre_s ++ n :: post_s))%nat with true
    by (symmetry; apply Nat.ltb_lt; rewrite length_app; simpl; lia).
  replace (0 <? length (pre_s ++ n :: post_s))%nat with true
    by (symmetry; apply Nat.ltb_lt; rewrite length_app; simpl; lia).
  simpl andb. cbv iota. unfold move at 1.
  now rewrite nth_app_mid, remove_at_app.
Qed.

Lemma moveaxis_from_front (a : ndarray) (pre_s post_s : list nat) (m : nat) :
  shape a = m :: pre_s ++ post_s ->
  moveaxis a 0 (length pre_s)
  = Some (of_fun (pre_s ++ m :: post_s)
            (fun idx => get a (move (length pre_s) 0 0%nat idx))).
Proof.
  intros Hs. unfold moveaxis. rewrite Hs.
  replace (length pre_s <? length (m :: pre_s ++ post_s))%nat with true
    by (symmetry; apply Nat.ltb_lt; simpl; rewrite length_app; lia).
  simpl. unfold move at 1. simpl. now rewrite insert_at_app.
Qed.

Lemma move_from_front (pre post : list nat) (j : nat) :
  move 0 (length pre) 0%nat (j :: pre ++ post) = pre ++ j :: post.
Proof. unfold move. simpl. apply insert_at_app. Qed.

Lemma move_to_front (pre post : list nat) (j : nat) :
  move (length pre) 0 0%nat (pre ++ j :: post) = j :: pre ++ post.
Proof. unfold move. simpl. now rewrite nth_app_mid, remove_at_app. Qed.


Lemma reshape_infer_front (a : ndarray) (n : nat) (rs : list nat) :
  (0 < n)%nat -> shape a = n :: rs ->
  reshape_infer [n] a = Some (mk_ndarray [n; size rs] (data a)).
Proof.
  intros Hn Hs. unfold reshape_infer. rewrite Hs. cbn [size fold_right].
  fold (size rs).
  replace (n * 1 =? 0)%nat with false by (symmetry; apply Nat.eqb_neq; lia).
  replace (n * size rs mod (n * 1) =? 0)%nat with true.
  2:{ symmetry. apply Nat.eqb_eq. rewrite Nat.mul_1_r, Nat.mul_comm.
      apply Nat.Div0.mod_mul. }
  rewrite Nat.mul_1_r, Nat.mul_comm, Nat.div_mul by lia. reflexivity.
Qed.

Lemma get_flat_2d (d : list R) (n P j q : nat) :
  get (mk_ndarray [n; P] d) [j; q] = nth (j * P + q) d 0.
Proof. unfold get. simpl. f_equal. lia. Qed.

Lemma get_cons (d : list R) (n : nat) (rs : list nat) (j : nat)
    (u : list nat) :
  get (mk_ndarray (n :: rs) d) (j :: u) = nth (j * size rs + ravel rs u) d 0.
Proof. reflexivity. Qed.

(** One trip of the loop multiplies the operand against its own axis. *)
Lemma Kronecker_step_spec (M : Dense) (ev : ndarray)
    (pre_s post_s : list nat) :
  (0 < cols M)%nat ->
  shape ev = pre_s ++ cols M :: post_s ->
  exists ev',
    Kronecker_step M (length pre_s) ev = Some ev'
    /\ shape ev' = pre_s ++ rows M :: post_s
    /\ wf ev'
    /\ forall pre a post,
         in_shape pre pre_s -> (a < rows M)%nat -> in_shape post post_s ->
         get ev' (pre ++ a :: post)
         = Rsum (cols M)
             (fun j => entry M a j * get ev (pre ++ j :: post)).
Proof.
  intros Hn Hs. unfold Kronecker_step.
  rewrite (moveaxis_to_front ev pre_s post_s (cols M) Hs).
  cbn [shape of_fun tl]. fold (cols M) (rows M).
  rewrite (reshape_infer_front _ (cols M) (pre_s ++ post_s));
    [| exact Hn | reflexivity].
  unfold op_matmul, matmul, to_array. cbn [shape]. fold (cols M) (rows M).
  rewrite Nat.eqb_refl.
  unfold reshape. cbn [shape of_fun].
  replace (size (rows M :: pre_s ++ post_s)
           =? size [rows M; size (pre_s ++ post_s)])%nat with true
    by (symmetry; apply Nat.eqb_eq; simpl; lia).
  rewrite (moveaxis_from_front _ pre_s post_s (rows M)); [| reflexivity].
  set (rs := pre_s ++ post_s).
  set (ev_front := of_fun (cols M :: rs) _).
  set (x := mk_ndarray [cols M; size rs] _).
  set (y := of_fun [rows M; size rs] _).
  set (Mev := mk_ndarray (rows M :: rs) _).
  eexists. split; [reflexivity|]. split; [reflexivity|].
  split; [apply of_fun_wf|].
  intros pre a post Hpre Ha Hpost.
  pose proof (in_shape_length _ _ Hpre) as Lpre.
  assert (Hin : in_shape (pre ++ post) rs) by now apply in_shape_app.
  rewrite get_of_fun.
  2:{ apply in_shape_app; [exact Hpre|]. now constructor. }
  rewrite <- Lpre, move_to_front.
  unfold Mev. rewrite get_cons.
  assert (Hy : nth (a * size rs + ravel rs (pre ++ post)) (data y) 0
               = get y [a; ravel rs (pre ++ post)]).
  { unfold get. cbn [shape y of_fun ravel size fold_right]. f_equal. lia. }
  rewrite Hy. unfold y. rewrite get_of_fun.
  2:{ constructor; [exact Ha|]. constructor; [|constructor].
      now apply ravel_lt. }
  cbn [nth]. apply Rsum_ext. intros j Hj. unfold entry, to_array.
  fold (rows M) (cols M). f_equal.
  unfold x. rewrite get_flat_2d.
  change (nth (j * size rs + ravel rs (pre ++ post)) (data ev_front) 0)
    with (get ev_front (j :: pre ++ post)).
  unfold ev_front. rewrite get_of_fun by (constructor; assumption).
  now rewrite <- Lpre, move_from_front.
Qed.


(** The product of the entries [M_u[is_u, js_u]] over the operands. *)
Fixpoint kprod (Ms : list Dense) (ix jx : list nat) : R :=
  match Ms, ix, jx with
  | M :: Ms', i :: ix', j :: jx' => entry M i j * kprod Ms' ix' jx'
  | _, _, _ => 1
  end.

(** The loop of [Kronecker._matmat] from the axis [length pre_s] on. *)
Lemma Kronecker_loop_spec (Ms : list Dense) :
  forall (pre_s : list nat) (ev : ndarray) (B : nat),
  Forall (fun M => (0 < cols M)%nat) Ms ->
  shape ev = pre_s ++ map cols Ms ++ [B] ->
  exists ev',
    Kronecker_loop Ms (length pre_s) ev = Some ev'
    /\ shape ev' = pre_s ++ map rows Ms ++ [B]
    /\ (Ms <> [] \/ wf ev -> wf ev')
    /\ forall pre ix b,
         in_shape pre pre_s -> in_shape ix (map rows Ms) -> (b < B)%nat ->
         get ev' (pre ++ ix ++ [b])
         = msum (map cols Ms)
             (fun jx => kprod Ms ix jx * get ev (pre ++ jx ++ [b])).
Proof.
  induction Ms as [|M Ms IH]; intros pre_s ev B Hpos Hs.
  - exists ev. split; [reflexivity|]. split; [exact Hs|].
    split; [intros [H|H]; [congruence | exact H]|].
    intros pre ix b Hpre His Hb. inversion His; subst. simpl. ring.
  - inversion Hpos as [|? ? HM Hpos']; subst.
    cbn [map] in Hs. rewrite <- app_comm_cons in Hs.
    destruct (Kronecker_step_spec M ev pre_s (map cols Ms ++ [B]) HM Hs)
      as (ev1 & Hstep & Hs1 & Hwf1 & Hget1).
    destruct (IH (pre_s ++ [rows M]) ev1 B Hpos') as (ev' & Hloop & Hs' & Hwf' & Hget').
    { rewrite Hs1, <- app_assoc. reflexivity. }
    exists ev'. rewrite Kronecker_loop_cons, Hstep.
    rewrite length_app, Nat.add_comm in Hloop. simpl in Hloop.
    split; [exact Hloop|].
    split; [rewrite Hs', <- app_assoc; reflexivity|].
    split; [intros _; apply Hwf'; now right|].
    intros pre ix b Hpre His Hb.
    cbn [map] in His. inversion His as [|a n ix' ns' Ha His']; subst.
    replace (pre ++ (a :: ix') ++ [b]) with ((pre ++ [a]) ++ ix' ++ [b])
      by (rewrite <- app_assoc; reflexivity).
    rewrite Hget'; [| apply in_shape_app; [exact Hpre | now repeat constructor]
                    | exact His' | exact Hb].
    cbn [map msum].
    rewrite (msum_ext _ _
      (fun jx => Rsum (cols M)
         (fun j => kprod (M :: Ms) (a :: ix') (j :: jx)
                   * get ev (pre ++ (j :: jx) ++ [b])))).
    + apply msum_Rsum_swap.
    + intros jx Hjs. rewrite <- app_assoc. cbn [app].
      rewrite Hget1; [| exact Hpre | exact Ha
                      | apply in_shape_app; [exact Hjs | now repeat constructor]].
      rewrite Rsum_scal. apply Rsum_ext. intros j _. cbn [kprod app]. ring.
Qed.


Lemma kron_spec (a b : ndarray) (m n p q : nat) :
  shape a = [m; n] -> shape b = [p; q] ->
  exists D,
    kron a b = Some D
    /\ shape D = [(m * p)%nat; (n * q)%nat]
    /\ wf D
    /\ forall I J i j,
         (I < m)%nat -> (J < n)%nat -> (i < p)%nat -> (j < q)%nat ->
         get D [(I * p + i)%nat; (J * q + j)%nat]
         = get a [I; J] * get b [i; j].
Proof.
  intros Ha Hb. unfold kron. rewrite Ha, Hb.
  eexists. split; [reflexivity|]. split; [reflexivity|].
  split; [apply of_fun_wf|].
  intros I J i j HI HJ Hi Hj. rewrite get_of_fun.
  2:{ repeat constructor; nia. }
  cbn [nth].
  rewrite !Nat.div_add_l, !Nat.div_small, !Nat.add_0_r by lia.
  rewrite (Nat.add_comm (I * p)), (Nat.add_comm (J * q)).
  rewrite !Nat.Div0.mod_add, !Nat.mod_small by lia. reflexivity.
Qed.

Lemma reduce_kron_spec (Ms : list Dense) :
  forall (acc : ndarray) (ma na : nat),
  shape acc = [ma; na] ->
  exists D,
    reduce_kron acc (map to_array Ms) = Some D
    /\ shape D = [(ma * size (map rows Ms))%nat; (na * size (map cols Ms))%nat]
    /\ (Ms <> [] \/ wf acc -> wf D)
    /\ forall I J ix jx,
         (I < ma)%nat -> (J < na)%nat ->
         in_shape ix (map rows Ms) -> in_shape jx (map cols Ms) ->
         get D [(I * size (map rows Ms) + ravel (map rows Ms) ix)%nat;
                (J * size (map cols Ms) + ravel (map cols Ms) jx)%nat]
         = get acc [I; J] * kprod Ms ix jx.
Proof.
  induction Ms as [|M Ms IH]; intros acc ma na Hacc.
  - exists acc. split; [reflexivity|]. simpl.
    split; [now rewrite !Nat.mul_1_r|].
    split; [intros [H|H]; [congruence | exact H]|].
    intros I J ix jx HI HJ Hix Hjx. inversion Hix; inversion Hjx; subst.
    simpl. rewrite !Nat.mul_1_r, !Nat.add_0_r. ring.
  - cbn [map reduce_kron].
    destruct (kron_spec acc (to_array M) ma na (rows M) (cols M) Hacc eq_refl)
      as (acc' & Hk & Hs' & Hwf' & Hget').
    rewrite Hk.
    destruct (IH acc' _ _ Hs') as (D & HD & HsD & HwfD & HgetD).
    exists D. split; [exact HD|].
    split; [rewrite HsD; unfold size; cbn [fold_right]; f_equal; [|f_equal];
            lia|].
    split; [intros _; apply HwfD; now right|].
    intros I J ix jx HI HJ Hix Hjx.
    inversion Hix as [|i m ix' ms' Hi Hix']; subst.
    inversion Hjx as [|j n jx' ns' Hj Hjx']; subst.
    cbn [ravel size fold_right kprod].
    fold (size (map rows Ms)) (size (map cols Ms)).
    replace (I * (rows M * size (map rows Ms))
             + (i * size (map rows Ms) + ravel (map rows Ms) ix'))%nat
      with ((I * rows M + i) * size (map rows Ms)
            + ravel (map rows Ms) ix')%nat by nia.
    replace (J * (cols M * size (map cols Ms))
             + (j * size (map cols Ms) + ravel (map cols Ms) jx'))%nat
      with ((J * cols M + j) * size (map cols Ms)
            + ravel (map cols Ms) jx')%nat by nia.
    rewrite HgetD by (try assumption; nia).
    rewrite Hget' by assumption. unfold entry. ring.
Qed.

Lemma fold_left_mul_size (l : list nat) (a : nat) :
  fold_left Nat.mul l a = (a * size l)%nat.
Proof.
  revert a; induction l as [|b l IH]; intros a; simpl; [lia|].
  rewrite IH. lia.
Qed.

Lemma product_size (l : list nat) : l <> [] -> product l = Some (size l).
Proof.
  destruct l as [|a l]; [congruence|]. intros _. simpl.
  now rewrite fold_left_mul_size.
Qed.

Lemma ravel_snoc (ms ix : list nat) (B b : nat) :
  in_shape ix ms ->
  ravel (ms ++ [B]) (ix ++ [b]) = (ravel ms ix * B + b)%nat.
Proof.
  intros H. induction H as [|i m ix ms _ _ IH]; simpl; [lia|].
  rewrite IH, size_app. simpl. nia.
Qed.

Lemma size_pos (l : list nat) :
  Forall (fun n => (0 < n)%nat) l -> (0 < size l)%nat.
Proof. induction 1; simpl; [lia | nia]. Qed.

Lemma reshape_infer_batch (X : ndarray) (ns : list nat) (B : nat) :
  (0 < size ns)%nat -> shape X = [size ns; B] ->
  reshape_infer ns X = Some (mk_ndarray (ns ++ [B]) (data X)).
Proof.
  intros Hn Hs. unfold reshape_infer. rewrite Hs. cbn [size fold_right].
  fold (size ns).
  replace (size ns =? 0)%nat with false by (symmetry; apply Nat.eqb_neq; lia).
  rewrite Nat.mul_1_r.
  replace (size ns * B mod size ns =? 0)%nat with true.
  2:{ symmetry. apply Nat.eqb_eq. rewrite Nat.mul_comm.
      apply Nat.Div0.mod_mul. }
  rewrite Nat.mul_comm, Nat.div_mul by lia. reflexivity.
Qed.


Lemma last_snoc (l : list nat) (B d : nat) : last (l ++ [B]) d = B.
Proof. apply last_last. Qed.

(** C1, counterexample: an operand without columns.  [Kronecker] of a 2x2
    and a 2x0 operand is constructed with shape [(4, 0)], its dense form is
    the 4x0 array, and the input [X] of shape [(0, 1)] has the row count the
    claim asks for: [to_dense() @ X] is defined, and [_matmat] raises, at
    [v.reshape(2, 0, -1)], which cannot infer the last dimension. *)
Lemma Kronecker_matmat_zero_columns_raises :
  exists self D Y,
    Kronecker_init [mk_Dense (2, 2)%nat float64 [1; 2; 3; 4];
                    mk_Dense (2, 0)%nat float64 []] fresh = (self, None)
    /\ self_shape self = Some (4%nat, 0%nat)
    /\ Kronecker_to_dense self = Some D
    /\ matmul D (mk_ndarray [0%nat; 1%nat] []) = Some Y
    /\ Kronecker_matmat self (mk_ndarray [0%nat; 1%nat] []) = None.
Proof. do 3 eexists. repeat split; reflexivity. Qed.

(** C1, amended.  For operands [M0 :: Ms] with at least one column each
    and an input [X] of shape [(N, B)], [N] the product of the operands'
    column counts: the [Kronecker] operator is constructed with shape
    (product of the row counts, product of the column counts), and its
    [_matmat] returns the product of its dense form [to_dense()], the
    Kronecker product of the operands, with [X]. *)
Theorem Kronecker_matmat_is_dense_matmul (M0 : Dense) (Ms : list Dense)
    (X : ndarray) (B : nat) :
  let all := M0 :: Ms in
  Forall (fun M => (0 < cols M)%nat) all ->
  shape X = [size (map cols all); B] ->
  exists self D Y,
    Kronecker_init all fresh = (self, None)
    /\ self_shape self = Some (size (map rows all), size (map cols all))
    /\ Kronecker_to_dense self = Some D
    /\ matmul D X = Some Y
    /\ Kronecker_matmat self X = Some Y.
Proof.
  cbv zeta. intros Hpos HX.
  set (all := M0 :: Ms) in *.
  set (ms := map rows all) in *. set (ns := map cols all) in *.
  assert (Hns : (0 < size ns)%nat).
  { apply size_pos. unfold ns. clear - Hpos.
    induction Hpos; simpl; constructor; assumption. }
  (* construction *)
  assert (Hinit : Kronecker_init all fresh
                  = (mk_instance (Some all) (Some (op_dtype M0))
                       (Some (size ms, size ns)), None)).
  { unfold Kronecker_init.
    change (map (fun Mi => fst (op_shape Mi)) all) with ms.
    change (map (fun Mi => snd (op_shape Mi)) all) with ns.
    rewrite !product_size by (unfold ms, ns, all; simpl; congruence).
    reflexivity. }
  (* the dense form *)
  destruct (reduce_kron_spec Ms (to_array M0) (rows M0) (cols M0) eq_refl)
    as (D & HD & HsD & _ & HgetD).
  assert (HsD' : shape D = [size ms; size ns]) by exact HsD.
  assert (HDk : forall ix jx, in_shape ix ms -> in_shape jx ns ->
            get D [ravel ms ix; ravel ns jx] = kprod all ix jx).
  { intros ix jx Hix Hjx.
    inversion Hix as [|i m ix' ms' Hi Hix']; subst.
    inversion Hjx as [|j n jx' ns' Hj Hjx']; subst.
    cbn [ravel kprod]. apply HgetD; assumption. }
  (* the product with the dense form *)
  assert (HY : matmul D X
               = Some (of_fun [size ms; B]
                   (fun idx => Rsum (size ns) (fun k =>
                      get D [nth 0 idx 0%nat; k] * get X [k; nth 1 idx 0%nat])))).
  { unfold matmul. rewrite HsD', HX. now rewrite Nat.eqb_refl. }
  (* the mode products *)
  pose (ev0 := mk_ndarray (ns ++ [B]) (data X)).
  destruct (Kronecker_loop_spec all [] ev0 B Hpos eq_refl)
    as (ev' & Hloop & Hs' & Hwf' & Hget').
  cbn [app length] in Hloop, Hs'. fold ms in Hs'. fold ns in Hget'.
  assert (Hwf : wf ev') by (apply Hwf'; left; discriminate).
  assert (Happly : Kronecker_matmat
                     (mk_instance (Some all) (Some (op_dtype M0))
                        (Some (size ms, size ns))) X
                   = Some (mk_ndarray [size ms; B] (data ev'))).
  { unfold Kronecker_matmat. cbn [self_Ms self_shape fst].
    change (map (fun Mi => snd (op_shape Mi)) all) with ns.
    rewrite (reshape_infer_batch X ns B Hns HX). fold ev0. rewrite Hloop.
    unfold reshape. rewrite Hs', last_snoc, size_app.
    replace (size [size ms; B] =? size ms * size [B])%nat with true
      by (symmetry; apply Nat.eqb_eq; simpl; lia).
    reflexivity. }
  do 3 eexists. split; [exact Hinit|]. split; [reflexivity|].
  split; [exact HD|]. split; [exact HY|].
  rewrite Happly. f_equal.
  apply ndarray_ext.
  - unfold wf in *. cbn [data shape]. rewrite Hwf, Hs', size_app. simpl. lia.
  - apply of_fun_wf.
  - reflexivity.
  - intros idx Hidx. cbn [shape] in Hidx.
    inversion Hidx as [|I ? idx1 ? HI Hidx1]; subst.
    inversion Hidx1 as [|b ? idx2 ? Hb Hidx2]; subst.
    inversion Hidx2; subst.
    rewrite get_of_fun by exact Hidx. cbn [nth].
    pose proof (unravel_in_shape ms I HI) as Hix.
    pose proof (ravel_unravel ms I HI) as HrI.
    (* the entry of the mode products *)
    assert (E1 : get (mk_ndarray [size ms; B] (data ev')) [I; b]
                 = get ev' ([] ++ unravel ms I ++ [b])).
    { unfold get. cbn [shape app]. rewrite Hs'.
      rewrite ravel_snoc by exact Hix. rewrite HrI.
      f_equal. simpl. lia. }
    rewrite E1, Hget'; [| constructor | exact Hix | exact Hb].
    rewrite Rsum_size_msum. apply msum_ext. intros jx Hjx.
    rewrite <- HrI at 2. rewrite HDk by assumption. f_equal.
    unfold get, ev0. cbn [shape data app]. rewrite HX.
    rewrite ravel_snoc by exact Hjx. f_equal. simpl. lia.
Qed.

Lemma Kronecker_matmat_is_dense_matmul_witness :
  let A := mk_Dense (2, 2)%nat float64 [1; 2; 3; 4] in
  let C := mk_Dense (1, 2)%nat float64 [5; 6] in
  let X := mk_ndarray [4%nat; 1%nat] [1; 0; 2; 1] in
  exists self D Y,
    Kronecker_init [A; C] fresh = (self, None)
    /\ self_shape self = Some (2%nat, 4%nat)
    /\ Kronecker_to_dense self = Some D
    /\ matmul D X = Some Y
    /\ Kronecker_matmat self X = Some Y.
Proof.
  cbv zeta.
  apply (Kronecker_matmat_is_dense_matmul
           (mk_Dense (2, 2)%nat float64 [1; 2; 3; 4])
           [mk_Dense (1, 2)%nat float64 [5; 6]]
           (mk_ndarray [4%nat; 1%nat] [1; 0; 2; 1]) 1%nat).
  - repeat constructor.
  - reflexivity.
Defined.

End KroneckerFacts.

(** ** tests/algorithms/test_cg.py: the Lanczos form of conjugate gradients

    The two-dimensional work arrays [x], [res], [q], [des] of shape
    [(n, max_iters)] are only read and written by column, so they are
    modelled as the list of their columns; [A] is the list of its rows.

    A division by zero raises nothing in floating point: it gives [inf] or
    [nan].  [res[:, k] / alpha[k]] with [alpha[k] = 0], which needs a
    negative tolerance, puts them in [q] and from there in the loop test:
    the model stops there with [NotModelled].  The divisions by [dir[k]]
    reach [nu], [gamma], [des] and [x] only, never the loop test nor [q],
    [res], [alpha] and [beta]: they are Rocq's [x / 0], and after one the
    model's [nu], [gamma], [des] and [x] mean nothing.
    [Module CgLanczosArith] has the same code in any arithmetic, for what
    the call does on every input. *)

Module CgLanczos.
Import Xnp.

Inductive pyexn := IndexError | ValueError.

(** What a call does: it returns, raises, or runs out of the fuel given to
    its loop; [NotModelled] when the model does not follow the code (shapes
    that do not conform, a [nan] or [inf] that decides the control flow). *)
Inductive outcome (A : Type) : Type :=
| Return (a : A)
| Raise (e : pyexn)
| Diverge
| NotModelled.
Arguments Return {A} a.
Arguments Raise {A} e.
Arguments Diverge {A}.
Arguments NotModelled {A}.

Definition bind {A B : Type} (c : outcome A) (f : A -> outcome B)
    : outcome B :=
  match c with
  | Return a => f a
  | Raise e => Raise e
  | Diverge => Diverge
  | NotModelled => NotModelled
  end.

Notation "x <-- c ;; f" := (bind c (fun x => f))
  (at level 61, c at next level, right associativity).

(** [v[i]] *)
Definition get_at (v : vec) (i : nat) : outcome R :=
  match nth_error v i with
  | Some a => Return a
  | None => Raise IndexError
  end.

(** [v[i] = a] *)
Definition set_at (v : vec) (i : nat) (a : R) : outcome vec :=
  if (i <? length v)%nat then Return (update_at v a i) else Raise IndexError.

(** [m[:, j]] *)
Definition get_col (m : list vec) (j : nat) : outcome vec :=
  match nth_error m j with
  | Some c => Return c
  | None => Raise IndexError
  end.

Fixpoint update_col (m : list vec) (c : vec) (j : nat) : list vec :=
  match m, j with
  | [], _ => []
  | _ :: m', O => c :: m'
  | b :: m', S j' => b :: update_col m' c j'
  end.

(** [m[:, j] = c] *)
Definition set_col (m : list vec) (j : nat) (c : vec) : outcome (list vec) :=
  if (j <? length m)%nat then Return (update_col m c j) else Raise IndexError.

Definition vadd (u v : vec) : vec := map (fun p => fst p + snd p) (combine u v).
Definition vsub (u v : vec) : vec := map (fun p => fst p - snd p) (combine u v).
Definition vscale (c : R) (v : vec) : vec := map (fun a => c * a) v.

(** [A @ v] *)
Definition matvec (A : list vec) (v : vec) : vec := map (fun row => dot row v) A.

(** [A] is [n] by [n], and [rhs] and [x0] have [n] entries. *)
Definition conforming (A : list vec) (rhs x0 : vec) : bool :=
  let n := length rhs in
  (length A =? n)%nat && forallb (fun row => (length row =? n)%nat) A
  && (length x0 =? n)%nat.

Record cg_state := mk_cg_state {
  st_x : list vec;
  st_alpha : vec;
  st_beta : vec;
  st_k : nat;
  st_res : list vec;
  st_q : list vec;
  st_des : list vec;
  st_dir : vec;
  st_nu : vec;
  st_gamma : vec
}.

(** [initialize_cg_lanczos(A, rhs, x0, max_iters)].  [np.zeros] raises on a
    negative dimension; inputs whose shapes do not conform, on which numpy
    raises or broadcasts, are not modelled. *)
Definition initialize_cg_lanczos (A : list vec) (rhs x0 : vec) (max_iters : Z)
    : outcome cg_state :=
  if (max_iters <? 0)%Z then Raise ValueError
  else if negb (conforming A rhs x0) then NotModelled
  else
    let m := Z.to_nat max_iters in
    let n := length rhs in
    let k := 0%nat in
    let res := repeat (repeat 0 n) m in
    let q := repeat (repeat 0 n) m in
    let des := repeat (repeat 0 n) m in
    let x := repeat (repeat 0 n) m in
    let dir := repeat 0 m in
    let gamma := repeat 0 m in
    let beta := repeat 0 m in
    let alpha := repeat 0 m in
    let nu := repeat 0 m in
    x <-- set_col x 0 x0 ;;
    xk <-- get_col x k ;;
    res <-- set_col res k (vsub rhs (matvec A xk)) ;;
    rk <-- get_col res k ;;
    alpha <-- set_at alpha k (norm rk) ;;
    Return (mk_cg_state x alpha beta k res q des dir nu gamma).

(** The body of the [while] loop of [run_cg_lanczos]. *)
Definition cg_lanczos_body (A : list vec) (st : cg_state) : outcome cg_state :=
  let '(mk_cg_state x alpha beta k res q des dir nu gamma) := st in
  rk <-- get_col res k ;;
  ak <-- get_at alpha k ;;
  q <-- (if Reqb ak 0 then NotModelled
         else set_col q (k + 1) (vdiv rk ak)) ;;
  let k := (k + 1)%nat in
  qk <-- get_col q k ;;
  let Aq := matvec A qk in
  beta <-- set_at beta k (dot qk Aq) ;;
  bk <-- get_at beta k ;;
  ak1 <-- get_at alpha (k - 1) ;;
  branch <--
    (if (k =? 1)%nat then
       dir <-- set_at dir k bk ;;
       dk <-- get_at dir k ;;
       nu <-- set_at nu k (ak1 / dk) ;;
       des <-- set_col des k qk ;;
       Return (dir, nu, des, gamma)
     else
       dk1 <-- get_at dir (k - 1) ;;
       gamma <-- set_at gamma (k - 1) (ak1 / dk1) ;;
       gk1 <-- get_at gamma (k - 1) ;;
       dir <-- set_at dir k (bk - ak1 * gk1) ;;
       nk1 <-- get_at nu (k - 1) ;;
       dk <-- get_at dir k ;;
       nu <-- set_at nu k (- (ak1 * nk1) / dk) ;;
       dk1c <-- get_col des (k - 1) ;;
       des <-- set_col des k (vsub qk (vscale gk1 dk1c)) ;;
       Return (dir, nu, des, gamma)) ;;
  let '(dir, nu, des, gamma) := branch in
  xk1 <-- get_col x (k - 1) ;;
  nk <-- get_at nu k ;;
  dk <-- get_col des k ;;
  x <-- set_col x k (vadd xk1 (vscale nk dk)) ;;
  qk1 <-- get_col q (k - 1) ;;
  res <-- set_col res k (vsub (vsub Aq (vscale bk qk)) (vscale ak1 qk1)) ;;
  rk <-- get_col res k ;;
  alpha <-- set_at alpha k (norm rk) ;;
  Return (mk_cg_state x alpha beta k res q des dir nu gamma).

(** The [while] loop: [fuel] bounds the number of times its condition is
    evaluated.  Python's [&] evaluates both operands. *)
Fixpoint cg_lanczos_loop (fuel : nat) (A : list vec) (max_iters : Z)
    (tolerance : R) (st : cg_state) : outcome cg_state :=
  match fuel with
  | O => Diverge
  | S fuel' =>
    ak <-- get_at (st_alpha st) (st_k st) ;;
    if Rltb tolerance ak && (Z.of_nat (st_k st) <? max_iters - 1)%Z then
      st' <-- cg_lanczos_body A st ;;
      cg_lanczos_loop fuel' A max_iters tolerance st'
    else Return st
  end.

(** [run_cg_lanczos(A, rhs, x0, max_iters, tolerance)], its loop given
    [max_iters] evaluations of the condition. *)
Definition run_cg_lanczos (A : list vec) (rhs x0 : vec) (max_iters : Z)
    (tolerance : R) : outcome cg_state :=
  st <-- initialize_cg_lanczos A rhs x0 max_iters ;;
  cg_lanczos_loop (Z.to_nat max_iters) A max_iters tolerance st.

(** [construct_tri(band, diag)]: the rows of [T]. *)
Fixpoint construct_tri_rows (band diag : vec) (dim : nat) (idxs : list nat)
    (T : list vec) : outcome (list vec) :=
  match idxs with
  | [] => Return T
  | idx :: idxs' =>
    d <-- get_at diag idx ;;
    row <-- get_col T idx ;;
    row <-- set_at row idx d ;;
    row <--
      (if (idx =? 0)%nat then
         b <-- get_at band idx ;;
         set_at row (idx + 1) b
       else if (idx =? dim - 1)%nat then
         b <-- get_at band (idx - 1) ;;
         set_at row (idx - 1) b
       else
         b <-- get_at band idx ;;
         row <-- set_at row (idx + 1) b ;;
         b' <-- get_at band (idx - 1) ;;
         set_at row (idx - 1) b') ;;
    T <-- set_col T idx row ;;
    construct_tri_rows band diag dim idxs' T
  end.

Definition construct_tri (band diag : vec) : outcome (list vec) :=
  let dim := length diag in
  construct_tri_rows band diag dim (seq 0 dim) (repeat (repeat 0 dim) dim).

(** [l[a:b]] for indices that are not negative. *)
Definition slice {T : Type} (a b : nat) (l : list T) : list T :=
  firstn (b - a) (skipn a l).

(** Column [j] of a two-dimensional array given by its rows. *)
Definition col_of_rows (T : list vec) (j : nat) : vec :=
  map (fun row => nth j row 0) T.

(** [sum_i cs[i] * Q[:, i]], an array of [n] entries. *)
Fixpoint lincomb (n : nat) (cs : vec) (Q : list vec) : vec :=
  match cs, Q with
  | c :: cs', q :: Q' => vadd (vscale c q) (lincomb n cs' Q')
  | _, _ => repeat 0 n
  end.

(** [A @ Q], by columns, for [A] given by its rows and [Q] by its columns. *)
Definition matmat_cols (A Q : list vec) : list vec := map (matvec A) Q.

(** [Q @ T], by columns, for [Q] of [n] rows given by its columns and [T]
    given by its rows. *)
Definition matmul_cols (n : nat) (Q T : list vec) : list vec :=
  map (fun j => lincomb n (col_of_rows T j) Q) (seq 0 (length (hd [] T))).

(** In [test_cg_lanczos]: [Q = q[:, 1:k + 1]] and
    [T = construct_tri(alpha[1:k], beta[1:k + 1])]. *)
Definition lanczos_Q (st : cg_state) : list vec :=
  slice 1 (st_k st + 1) (st_q st).

Definition lanczos_T (st : cg_state) : outcome (list vec) :=
  construct_tri (slice 1 (st_k st) (st_alpha st))
                (slice 1 (st_k st + 1) (st_beta st)).

(** [A] is square of order [n]. *)
Definition square (n : nat) (A : list vec) : Prop :=
  length A = n /\ forall i, (i < n)%nat -> length (nth i A []) = n.

Definition symmetric (A : list vec) : Prop :=
  forall i j, nth j (nth i A []) 0 = nth i (nth j A []) 0.

End CgLanczos.

(** ** Facts on [run_cg_lanczos]: the loop returns *)

Section CgLanczosFacts.
Import Xnp CgLanczos.

Lemma update_at_length (v : vec) (a : R) (i : nat) :
  length (update_at v a i) = length v.
Proof.
  revert i; induction v as [|b v IH]; intros [|i]; simpl; auto.
Qed.

Lemma update_col_length (m : list vec) (c : vec) (j : nat) :
  length (update_col m c j) = length m.
Proof.
  revert j; induction m as [|b m IH]; intros [|j]; simpl; auto.
Qed.

Lemma nth_update_at (v : vec) (a : R) (i j : nat) :
  (i < length v)%nat ->
  nth j (update_at v a i) 0 = if (j =? i)%nat then a else nth j v 0.
Proof.
  revert i j; induction v as [|b v IH]; intros i j Hi; simpl in Hi; [lia|].
  destruct i as [|i], j as [|j]; simpl; try reflexivity.
  apply IH. lia.
Qed.

Lemma nth_update_col (m : list vec) (c : vec) (i j : nat) :
  (i < length m)%nat ->
  nth j (update_col m c i) [] = if (j =? i)%nat then c else nth j m [].
Proof.
  revert i j; induction m as [|b m IH]; intros i j Hi; simpl in Hi; [lia|].
  destruct i as [|i], j as [|j]; simpl; try reflexivity.
  apply IH. lia.
Qed.

Lemma get_at_ok (v : vec) (i : nat) :
  (i < length v)%nat -> get_at v i = Return (nth i v 0).
Proof.
  intros Hi. unfold get_at.
  destruct (nth_error v i) as [a|] eqn:E.
  - now rewrite (nth_error_nth _ _ _ E).
  - apply nth_error_None in E. lia.
Qed.

Lemma get_col_ok (m : list vec) (j : nat) :
  (j < length m)%nat -> get_col m j = Return (nth j m []).
Proof.
  intros Hj. unfold get_col.
  destruct (nth_error m j) as [c|] eqn:E.
  - now rewrite (nth_error_nth _ _ _ E).
  - apply nth_error_None in E. lia.
Qed.

Lemma set_at_ok (v : vec) (i : nat) (a : R) :
  (i < length v)%nat -> set_at v i a = Return (update_at v a i).
Proof.
  intros Hi. unfold set_at.
  now destruct (Nat.ltb_spec i (length v)); [|lia].
Qed.

Lemma set_col_ok (m : list vec) (j : nat) (c : vec) :
  (j < length m)%nat -> set_col m j c = Return (update_col m c j).
Proof.
  intros Hj. unfold set_col.
  now destruct (Nat.ltb_spec j (length m)); [|lia].
Qed.

(** Every work array has [m] entries (columns). *)
Record wf_state (m : nat) (st : cg_state) : Prop := mk_wf_state {
  wf_x : length (st_x st) = m;
  wf_alpha : length (st_alpha st) = m;
  wf_beta : length (st_beta st) = m;
  wf_res : length (st_res st) = m;
  wf_q : length (st_q st) = m;
  wf_des : length (st_des st) = m;
  wf_dir : length (st_dir st) = m;
  wf_nu : length (st_nu st) = m;
  wf_gamma : length (st_gamma st) = m
}.

Ltac in_range :=
  repeat rewrite update_at_length; repeat rewrite update_col_length; lia.

Ltac run_step :=
  first [ progress cbn [bind]
        | rewrite get_at_ok by in_range
        | rewrite get_col_ok by in_range
        | rewrite set_at_ok by in_range
        | rewrite set_col_ok by in_range ].

Lemma cg_lanczos_body_spec (A : list vec) (m : nat) (st : cg_state) :
  wf_state m st -> (S (st_k st) < m)%nat ->
  nth (st_k st) (st_alpha st) 0 <> 0 ->
  exists st',
    cg_lanczos_body A st = Return st'
    /\ wf_state m st'
    /\ st_k st' = S (st_k st)
    /\ st_q st'
       = update_col (st_q st)
           (vdiv (nth (st_k st) (st_res st) [])
                 (nth (st_k st) (st_alpha st) 0)) (S (st_k st))
    /\ st_beta st'
       = update_at (st_beta st)
           (dot (nth (S (st_k st)) (st_q st') [])
                (matvec A (nth (S (st_k st)) (st_q st') [])))
           (S (st_k st))
    /\ st_res st'
       = update_col (st_res st)
           (vsub (vsub (matvec A (nth (S (st_k st)) (st_q st') []))
                       (vscale (nth (S (st_k st)) (st_beta st') 0)
                               (nth (S (st_k st)) (st_q st') [])))
                 (vscale (nth (st_k st) (st_alpha st) 0)
                         (nth (st_k st) (st_q st') [])))
           (S (st_k st))
    /\ st_alpha st'
       = update_at (st_alpha st)
           (norm (nth (S (st_k st)) (st_res st') [])) (S (st_k st)).
Proof.
  intros [Hx Ha Hb Hr Hq Hd Hdi Hn Hg] Hk Hnz.
  destruct st as [x alpha beta k res q des dir nu gamma]; cbn in *.
  apply Reqb_false in Hnz.
  destruct (Nat.eqb_spec (S k) 1) as [E|E].
  - eexists; split.
    + unfold cg_lanczos_body.
      replace (k + 1)%nat with (S k) by lia.
      replace (S k - 1)%nat with k by lia.
      repeat run_step. rewrite Hnz.
      repeat run_step.
      destruct (Nat.eqb_spec (S k) 1) as [_|]; [|lia].
      repeat run_step. reflexivity.
    + cbn. split; [constructor; cbn; in_range|]. repeat split.
  - eexists; split.
    + unfold cg_lanczos_body.
      replace (k + 1)%nat with (S k) by lia.
      replace (S k - 1)%nat with k by lia.
      repeat run_step. rewrite Hnz.
      repeat run_step.
      destruct (Nat.eqb_spec (S k) 1) as [|_]; [lia|].
      repeat run_step. reflexivity.
    + cbn. split; [constructor; cbn; in_range|]. repeat split.
Qed.

Lemma initialize_cg_lanczos_spec (A : list vec) (rhs x0 : vec)
    (max_iters : Z) :
  conforming A rhs x0 = true -> (1 <= max_iters)%Z ->
  let m := Z.to_nat max_iters in
  let n := length rhs in
  let r0 := vsub rhs (matvec A x0) in
  initialize_cg_lanczos A rhs x0 max_iters
  = Return (mk_cg_state
      (update_col (repeat (repeat 0 n) m) x0 0)
      (update_at (repeat 0 m) (norm r0) 0)
      (repeat 0 m) 0
      (update_col (repeat (repeat 0 n) m) r0 0)
      (repeat (repeat 0 n) m) (repeat (repeat 0 n) m)
      (repeat 0 m) (repeat 0 m) (repeat 0 m)).
Proof.
  intros Hc Hm m n r0. unfold initialize_cg_lanczos.
  destruct (Z.ltb_spec max_iters 0) as [|_]; [lia|].
  rewrite Hc. cbn [negb]. fold m n.
  assert (Hpos : (0 < m)%nat) by (unfold m; lia).
  assert (Hz : forall c j, (j < length (update_col (repeat (repeat 0%R n) m) c 0))%nat
                           <-> (j < m)%nat).
  { intros c j. now rewrite update_col_length, repeat_length. }
  rewrite set_col_ok by (rewrite repeat_length; lia). cbn [bind].
  rewrite get_col_ok by (apply Hz; lia). cbn [bind].
  rewrite nth_update_col by (rewrite repeat_length; lia). cbn [Nat.eqb].
  rewrite set_col_ok by (rewrite repeat_length; lia). cbn [bind].
  rewrite get_col_ok by (apply Hz; lia). cbn [bind].
  rewrite nth_update_col by (rewrite repeat_length; lia). cbn [Nat.eqb].
  rewrite set_at_ok by (rewrite repeat_length; lia). cbn [bind].
  reflexivity.
Qed.

Lemma initialize_cg_lanczos_wf (A : list vec) (rhs x0 : vec)
    (max_iters : Z) (st0 : cg_state) :
  conforming A rhs x0 = true -> (1 <= max_iters)%Z ->
  initialize_cg_lanczos A rhs x0 max_iters = Return st0 ->
  wf_state (Z.to_nat max_iters) st0 /\ st_k st0 = 0%nat.
Proof.
  intros Hc Hm H.
  rewrite (initialize_cg_lanczos_spec _ _ _ _ Hc Hm) in H.
  injection H as <-. split; [|reflexivity].
  constructor; cbn;
    repeat rewrite update_at_length; repeat rewrite update_col_length;
    apply repeat_length.
Qed.

Lemma cg_lanczos_loop_S (fuel : nat) (A : list vec) (max_iters : Z)
    (tolerance : R) (st : cg_state) :
  cg_lanczos_loop (S fuel) A max_iters tolerance st
  = (ak <-- get_at (st_alpha st) (st_k st) ;;
     if Rltb tolerance ak && (Z.of_nat (st_k st) <? max_iters - 1)%Z then
       st' <-- cg_lanczos_body A st ;;
       cg_lanczos_loop fuel A max_iters tolerance st'
     else Return st).
Proof. reflexivity. Qed.

(** The loop of [run_cg_lanczos] under an invariant [Inv] of its body. *)
Section LoopInvariant.
Variables (A : list vec) (max_iters : Z) (tolerance : R).
Variable Inv : cg_state -> Prop.

Let m := Z.to_nat max_iters.

Hypothesis tolerance_nonneg : 0 <= tolerance.
Hypothesis Inv_wf :
  forall st, Inv st -> wf_state m st /\ (st_k st < m)%nat.
Hypothesis Inv_body :
  forall st st',
    Inv st -> tolerance < nth (st_k st) (st_alpha st) 0 ->
    (S (st_k st) < m)%nat ->
    cg_lanczos_body A st = Return st' -> Inv st'.

Lemma cg_lanczos_loop_inv (fuel : nat) (st : cg_state) :
  Inv st -> (m - st_k st <= fuel)%nat ->
  exists st',
    cg_lanczos_loop fuel A max_iters tolerance st = Return st'
    /\ Inv st'
    /\ (st_k st <= st_k st')%nat
    /\ cg_lanczos_loop (S (st_k st' - st_k st)) A max_iters tolerance st
       = Return st'
    /\ (nth (st_k st') (st_alpha st') 0 <= tolerance
        \/ S (st_k st') = m).
Proof.
  revert st; induction fuel as [|fuel IH]; intros st HI Hfuel.
  - apply Inv_wf in HI. lia.
  - destruct (Inv_wf _ HI) as [Hwf Hk].
    rewrite cg_lanczos_loop_S.
    rewrite get_at_ok by (rewrite (wf_alpha _ _ Hwf); exact Hk).
    cbn [bind].
    destruct (Rltb tolerance (nth (st_k st) (st_alpha st) 0)) eqn:Ea;
      [destruct (Z.ltb_spec (Z.of_nat (st_k st)) (max_iters - 1)) as [Ek|Ek]|];
      cbn [andb].
    + assert (HSk : (S (st_k st) < m)%nat) by (unfold m; lia).
      apply Rltb_true in Ea.
      assert (Hnz : nth (st_k st) (st_alpha st) 0 <> 0) by lra.
      destruct (cg_lanczos_body_spec A m st Hwf HSk Hnz)
        as (st1 & Hb & _ & Hk1 & _).
      rewrite Hb. cbn [bind].
      pose proof (Inv_body _ _ HI Ea HSk Hb) as HI1.
      destruct (IH st1 HI1) as (st' & Hrun & HI' & Hle & Hexact & Hexit);
        [lia|].
      exists st'. repeat split; try assumption; [lia|].
      replace (S (st_k st' - st_k st)) with (S (S (st_k st' - st_k st1)))
        by lia.
      rewrite cg_lanczos_loop_S.
      rewrite get_at_ok by (rewrite (wf_alpha _ _ Hwf); exact Hk).
      cbn [bind].
      apply Rltb_true in Ea. rewrite Ea.
      destruct (Z.ltb_spec (Z.of_nat (st_k st)) (max_iters - 1));
        [|lia].
      cbn [andb]. rewrite Hb. cbn [bind]. exact Hexact.
    + exists st. repeat split; try assumption; [lia| |right; unfold m; lia].
      rewrite Nat.sub_diag, cg_lanczos_loop_S.
      rewrite get_at_ok by (rewrite (wf_alpha _ _ Hwf); exact Hk).
      cbn [bind]. rewrite Ea.
      destruct (Z.ltb_spec (Z.of_nat (st_k st)) (max_iters - 1));
        [lia|reflexivity].
    + exists st. repeat split; try assumption;
        [lia| |left; now apply Rltb_false].
      rewrite Nat.sub_diag, cg_lanczos_loop_S.
      rewrite get_at_ok by (rewrite (wf_alpha _ _ Hwf); exact Hk).
      cbn [bind]. rewrite Ea. reflexivity.
Qed.

End LoopInvariant.

End CgLanczosFacts.

(** ** tests/algorithms/test_cg.py: [run_cg_lanczos] in any arithmetic

    No arithmetic operation of [run_cg_lanczos] raises: on floating-point
    arrays a division by zero gives [inf] or [nan], and a comparison with
    [nan] is false.  For what the call does on every input, [nan] included,
    the code is embedded a second time, over numbers and operations that are
    parameters: a type [num], its elementwise operations, the test [>], and
    the two reductions [u.T @ v] and [np.linalg.norm], whose order of
    summation the code does not fix.  Binary64 is the instance
    [float_arith]. *)

Module CgLanczosArith.
Import CgLanczos.

(** The numbers of the arrays and their operations: [num_gt a b] is
    [a > b], [num_dot u v] is [u.T @ v] (and a row of [A @ v]),
    [num_norm v] is [np.linalg.norm(v)]. *)
Record arith : Type := mk_arith {
  num : Type;
  num_zero : num;
  num_add : num -> num -> num;
  num_sub : num -> num -> num;
  num_mul : num -> num -> num;
  num_div : num -> num -> num;
  num_opp : num -> num;
  num_gt : num -> num -> bool;
  num_dot : list num -> list num -> num;
  num_norm : list num -> num
}.

Section Arith.
Variable Ar : arith.

(** A one-dimensional array; a two-dimensional one is the list of its
    columns. *)
Definition fvec : Type := list (num Ar).

Fixpoint update_at {T : Type} (l : list T) (a : T) (i : nat) : list T :=
  match l, i with
  | [], _ => []
  | _ :: l', O => a :: l'
  | b :: l', S i' => b :: update_at l' a i'
  end.

(** [v[i]] and [m[:, i]] *)
Definition get_at {T : Type} (l : list T) (i : nat) : outcome T :=
  match nth_error l i with
  | Some a => Return a
  | None => Raise IndexError
  end.

(** [v[i] = a] and [m[:, i] = a] *)
Definition set_at {T : Type} (l : list T) (i : nat) (a : T)
    : outcome (list T) :=
  if (i <? length l)%nat then Return (update_at l a i) else Raise IndexError.

Definition vadd (u v : fvec) : fvec :=
  map (fun p => num_add Ar (fst p) (snd p)) (combine u v).
Definition vsub (u v : fvec) : fvec :=
  map (fun p => num_sub Ar (fst p) (snd p)) (combine u v).
Definition vscale (c : num Ar) (v : fvec) : fvec := map (fun a => num_mul Ar c a) v.
Definition vdiv (v : fvec) (a : num Ar) : fvec := map (fun b => num_div Ar b a) v.

(** [A @ v] *)
Definition matvec (A : list fvec) (v : fvec) : fvec :=
  map (fun row => num_dot Ar row v) A.

(** [A] is [n] by [n], and [rhs] and [x0] have [n] entries. *)
Definition conforming (A : list fvec) (rhs x0 : fvec) : bool :=
  let n := length rhs in
  (length A =? n)%nat && forallb (fun row => (length row =? n)%nat) A
  && (length x0 =? n)%nat.

Record cg_state := mk_cg_state {
  st_x : list fvec;
  st_alpha : fvec;
  st_beta : fvec;
  st_k : nat;
  st_res : list fvec;
  st_q : list fvec;
  st_des : list fvec;
  st_dir : fvec;
  st_nu : fvec;
  st_gamma : fvec
}.

(** [initialize_cg_lanczos(A, rhs, x0, max_iters)].  [np.zeros] raises on a
    negative dimension; inputs whose shapes do not conform, on which numpy
    raises or broadcasts, are not modelled. *)
Definition initialize_cg_lanczos (A : list fvec) (rhs x0 : fvec)
    (max_iters : Z) : outcome cg_state :=
  if (max_iters <? 0)%Z then Raise ValueError
  else if negb (conforming A rhs x0) then NotModelled
  else
    let m := Z.to_nat max_iters in
    let n := length rhs in
    let k := 0%nat in
    let res := repeat (repeat (num_zero Ar) n) m in
    let q := repeat (repeat (num_zero Ar) n) m in
    let des := repeat (repeat (num_zero Ar) n) m in
    let x := repeat (repeat (num_zero Ar) n) m in
    let dir := repeat (num_zero Ar) m in
    let gamma := repeat (num_zero Ar) m in
    let beta := repeat (num_zero Ar) m in
    let alpha := repeat (num_zero Ar) m in
    let nu := repeat (num_zero Ar) m in
    x <-- set_at x 0 x0 ;;
    xk <-- get_at x k ;;
    res <-- set_at res k (vsub rhs (matvec A xk)) ;;
    rk <-- get_at res k ;;
    alpha <-- set_at alpha k (num_norm Ar rk) ;;
    Return (mk_cg_state x alpha beta k res q des dir nu gamma).

(** The body of the [while] loop of [run_cg_lanczos]. *)
Definition cg_lanczos_body (A : list fvec) (st : cg_state)
    : outcome cg_state :=
  let '(mk_cg_state x alpha beta k res q des dir nu gamma) := st in
  rk <-- get_at res k ;;
  ak <-- get_at alpha k ;;
  q <-- set_at q (k + 1) (vdiv rk ak) ;;
  let k := (k + 1)%nat in
  qk <-- get_at q k ;;
  let Aq := matvec A qk in
  beta <-- set_at beta k (num_dot Ar qk Aq) ;;
  bk <-- get_at beta k ;;
  ak1 <-- get_at alpha (k - 1) ;;
  branch <--
    (if (k =? 1)%nat then
       dir <-- set_at dir k bk ;;
       dk <-- get_at dir k ;;
       nu <-- set_at nu k (num_div Ar ak1 dk) ;;
       des <-- set_at des k qk ;;
       Return (dir, nu, des, gamma)
     else
       dk1 <-- get_at dir (k - 1) ;;
       gamma <-- set_at gamma (k - 1) (num_div Ar ak1 dk1) ;;
       gk1 <-- get_at gamma (k - 1) ;;
       dir <-- set_at dir k (num_sub Ar bk (num_mul Ar ak1 gk1)) ;;
       nk1 <-- get_at nu (k - 1) ;;
       dk <-- get_at dir k ;;
       nu <-- set_at nu k (num_div Ar (num_opp Ar (num_mul Ar ak1 nk1)) dk) ;;
       dk1c <-- get_at des (k - 1) ;;
       des <-- set_at des k (vsub qk (vscale gk1 dk1c)) ;;
       Return (dir, nu, des, gamma)) ;;
  let '(dir, nu, des, gamma) := branch in
  xk1 <-- get_at x (k - 1) ;;
  nk <-- get_at nu k ;;
  dk <-- get_at des k ;;
  x <-- set_at x k (vadd xk1 (vscale nk dk)) ;;
  qk1 <-- get_at q (k - 1) ;;
  res <-- set_at res k (vsub (vsub Aq (vscale bk qk)) (vscale ak1 qk1)) ;;
  rk <-- get_at res k ;;
  alpha <-- set_at alpha k (num_norm Ar rk) ;;
  Return (mk_cg_state x alpha beta k res q des dir nu gamma).

(** The [while] loop: [fuel] bounds the number of times its condition is
    evaluated.  Python's [&] evaluates both operands. *)
Fixpoint cg_lanczos_loop (fuel : nat) (A : list fvec) (max_iters : Z)
    (tolerance : num Ar) (st : cg_state) : outcome cg_state :=
  match fuel with
  | O => Diverge
  | S fuel' =>
    ak <-- get_at (st_alpha st) (st_k st) ;;
    if num_gt Ar ak tolerance && (Z.of_nat (st_k st) <? max_iters - 1)%Z then
      st' <-- cg_lanczos_body A st ;;
      cg_lanczos_loop fuel' A max_iters tolerance st'
    else Return st
  end.

(** [run_cg_lanczos(A, rhs, x0, max_iters, tolerance)], its loop given
    [max_iters] evaluations of the condition. *)
Definition run_cg_lanczos (A : list fvec) (rhs x0 : fvec) (max_iters : Z)
    (tolerance : num Ar) : outcome cg_state :=
  st <-- initialize_cg_lanczos A rhs x0 max_iters ;;
  cg_lanczos_loop (Z.to_nat max_iters) A max_iters tolerance st.

End Arith.

Arguments update_at {T} l a i.
Arguments get_at {T} l i.
Arguments set_at {T} l i a.

(** Binary64, a reduction adding from left to right: [nan] compares false
    with every number. *)
Definition float_arith : arith :=
  let fdot := fun u v : list PrimFloat.float =>
    fold_left (fun s p => PrimFloat.add s (PrimFloat.mul (fst p) (snd p)))
      (combine u v) PrimFloat.zero in
  mk_arith PrimFloat.float PrimFloat.zero PrimFloat.add PrimFloat.sub
    PrimFloat.mul PrimFloat.div PrimFloat.opp
    (fun a b => PrimFloat.ltb b a)
    fdot (fun v => PrimFloat.sqrt (fdot v v)).

End CgLanczosArith.

(** ** Facts on [run_cg_lanczos] in any arithmetic: the call returns *)

Section CgLanczosArithFacts.
Import CgLanczos CgLanczosArith.
Variable Ar : arith.

Lemma any_update_at_length {T : Type} (l : list T) (a : T) (i : nat) :
  length (update_at l a i) = length l.
Proof.
  revert i; induction l as [|b l IH]; intros [|i]; simpl; auto.
Qed.

Lemma any_get_at_ok {T : Type} (l : list T) (i : nat) :
  (i < length l)%nat -> exists a, get_at l i = Return a.
Proof.
  intros Hi. unfold get_at.
  destruct (nth_error l i) as [a|] eqn:E.
  - now exists a.
  - apply nth_error_None in E. lia.
Qed.

Lemma any_set_at_ok {T : Type} (l : list T) (i : nat) (a : T) :
  (i < length l)%nat -> set_at l i a = Return (update_at l a i).
Proof.
  intros Hi. unfold set_at.
  now destruct (Nat.ltb_spec i (length l)); [|lia].
Qed.

(** Every work array has [m] entries (columns). *)
Record any_wf_state (m : nat) (st : cg_state Ar) : Prop := mk_any_wf_state {
  any_wf_x : length (st_x Ar st) = m;
  any_wf_alpha : length (st_alpha Ar st) = m;
  any_wf_beta : length (st_beta Ar st) = m;
  any_wf_res : length (st_res Ar st) = m;
  any_wf_q : length (st_q Ar st) = m;
  any_wf_des : length (st_des Ar st) = m;
  any_wf_dir : length (st_dir Ar st) = m;
  any_wf_nu : length (st_nu Ar st) = m;
  any_wf_gamma : length (st_gamma Ar st) = m
}.

Ltac any_in_range := repeat rewrite any_update_at_length; lia.

Ltac any_get :=
  match goal with
  | |- context [get_at ?l ?i] =>
    let a := fresh "a" in
    let E := fresh "E" in
    destruct (any_get_at_ok l i) as [a E]; [any_in_range|];
    rewrite E; cbn [bind]
  end.

Ltac any_step :=
  first [ progress cbn [bind]
        | rewrite any_set_at_ok by any_in_range
        | any_get ].

Lemma any_cg_lanczos_body_spec (A : list (list (num Ar))) (m : nat)
    (st : cg_state Ar) :
  any_wf_state m st -> (S (st_k Ar st) < m)%nat ->
  exists st',
    cg_lanczos_body Ar A st = Return st'
    /\ any_wf_state m st'
    /\ st_k Ar st' = S (st_k Ar st).
Proof.
  intros [Hx Ha Hb Hr Hq Hd Hdi Hn Hg] Hk.
  destruct st as [x alpha beta k res q des dir nu gamma]; cbn in *.
  unfold cg_lanczos_body.
  replace (k + 1)%nat with (S k) by lia.
  replace (S k - 1)%nat with k by lia.
  repeat any_step.
  destruct (S k =? 1)%nat.
  - repeat any_step.
    eexists. split; [reflexivity|].
    split; [constructor; cbn; any_in_range | reflexivity].
  - repeat any_step.
    eexists. split; [reflexivity|].
    split; [constructor; cbn; any_in_range | reflexivity].
Qed.

Lemma any_initialize_cg_lanczos_spec (A : list (list (num Ar)))
    (rhs x0 : list (num Ar)) (max_iters : Z) :
  conforming Ar A rhs x0 = true -> (1 <= max_iters)%Z ->
  exists st0,
    initialize_cg_lanczos Ar A rhs x0 max_iters = Return st0
    /\ any_wf_state (Z.to_nat max_iters) st0 /\ st_k Ar st0 = 0%nat.
Proof.
  intros Hc Hm. unfold initialize_cg_lanczos.
  destruct (Z.ltb_spec max_iters 0) as [|_]; [lia|].
  rewrite Hc. cbn [negb].
  set (m := Z.to_nat max_iters). set (n := length rhs).
  assert (Hpos : (0 < m)%nat) by (unfold m; lia).
  assert (Hl : forall T (a : T), (0 < length (repeat a m))%nat)
    by (intros; now rewrite repeat_length).
  rewrite any_set_at_ok by apply Hl. cbn [bind].
  destruct (any_get_at_ok (update_at (repeat (repeat (num_zero Ar) n) m) x0 0) 0)
    as [xk Exk]; [rewrite any_update_at_length; apply Hl|].
  rewrite Exk. cbn [bind].
  rewrite any_set_at_ok by apply Hl. cbn [bind].
  match goal with
  | |- context [get_at ?l 0] =>
    destruct (any_get_at_ok l 0) as [rk Erk];
      [rewrite any_update_at_length; apply Hl|]
  end.
  rewrite Erk. cbn [bind].
  rewrite any_set_at_ok by apply Hl. cbn [bind].
  eexists. split; [reflexivity|]. split; [|reflexivity].
  constructor; cbn; repeat rewrite any_update_at_length; apply repeat_length.
Qed.

Lemma any_cg_lanczos_loop_S (fuel : nat) (A : list (list (num Ar)))
    (max_iters : Z) (tolerance : num Ar) (st : cg_state Ar) :
  cg_lanczos_loop Ar (S fuel) A max_iters tolerance st
  = (ak <-- get_at (st_alpha Ar st) (st_k Ar st) ;;
     if num_gt Ar ak tolerance && (Z.of_nat (st_k Ar st) <? max_iters - 1)%Z then
       st' <-- cg_lanczos_body Ar A st ;;
       cg_lanczos_loop Ar fuel A max_iters tolerance st'
     else Return st).
Proof. reflexivity. Qed.

Lemma any_cg_lanczos_loop_returns (A : list (list (num Ar))) (max_iters : Z)
    (tolerance : num Ar) (fuel : nat) (st : cg_state Ar) :
  any_wf_state (Z.to_nat max_iters) st ->
  (st_k Ar st < Z.to_nat max_iters)%nat ->
  (Z.to_nat max_iters - st_k Ar st <= fuel)%nat ->
  exists st',
    cg_lanczos_loop Ar fuel A max_iters tolerance st = Return st'
    /\ any_wf_state (Z.to_nat max_iters) st'
    /\ (st_k Ar st' < Z.to_nat max_iters)%nat
    /\ (st_k Ar st <= st_k Ar st')%nat
    /\ cg_lanczos_loop Ar (S (st_k Ar st' - st_k Ar st)) A max_iters
         tolerance st = Return st'
    /\ exists ak,
         get_at (st_alpha Ar st') (st_k Ar st') = Return ak
         /\ (num_gt Ar ak tolerance = false
             \/ S (st_k Ar st') = Z.to_nat max_iters).
Proof.
  set (m := Z.to_nat max_iters).
  revert st; induction fuel as [|fuel IH]; intros st Hwf Hk Hfuel.
  - lia.
  - rewrite any_cg_lanczos_loop_S.
    destruct (any_get_at_ok (st_alpha Ar st) (st_k Ar st)) as [ak Eak];
      [rewrite (any_wf_alpha _ _ Hwf); exact Hk|].
    rewrite Eak. cbn [bind].
    destruct (num_gt Ar ak tolerance) eqn:Ea;
      [destruct (Z.ltb_spec (Z.of_nat (st_k Ar st)) (max_iters - 1))
         as [Ek|Ek]|];
      cbn [andb].
    + assert (HSk : (S (st_k Ar st) < m)%nat) by (unfold m; lia).
      destruct (any_cg_lanczos_body_spec A m st Hwf HSk)
        as (st1 & Hb & Hwf1 & Hk1).
      rewrite Hb. cbn [bind].
      destruct (IH st1 Hwf1) as (st' & Hrun & Hwf' & Hk' & Hle & Hexact & Hexit);
        [lia | lia |].
      exists st'. split; [exact Hrun|]. split; [exact Hwf'|].
      split; [exact Hk'|]. split; [lia|]. split; [|exact Hexit].
      replace (S (st_k Ar st' - st_k Ar st))
        with (S (S (st_k Ar st' - st_k Ar st1))) by lia.
      rewrite any_cg_lanczos_loop_S, Eak. cbn [bind]. rewrite Ea.
      destruct (Z.ltb_spec (Z.of_nat (st_k Ar st)) (max_iters - 1));
        [|lia].
      cbn [andb]. rewrite Hb. cbn [bind]. exact Hexact.
    + exists st. split; [reflexivity|]. split; [exact Hwf|].
      split; [exact Hk|]. split; [lia|]. split.
      * rewrite Nat.sub_diag, any_cg_lanczos_loop_S, Eak.
        cbn [bind]. rewrite Ea.
        destruct (Z.ltb_spec (Z.of_nat (st_k Ar st)) (max_iters - 1));
          [lia|reflexivity].
      * exists ak. split; [exact Eak | right; unfold m; lia].
    + exists st. split; [reflexivity|]. split; [exact Hwf|].
      split; [exact Hk|]. split; [lia|]. split.
      * rewrite Nat.sub_diag, any_cg_lanczos_loop_S, Eak.
        cbn [bind]. rewrite Ea. reflexivity.
      * exists ak. split; [exact Eak | now left].
Qed.

End CgLanczosArithFacts.

Section CgLanczosArithTheorems.
Import PrimFloat.
Import CgLanczos CgLanczosArith.

(** C10, counterexample: with [max_iters = 0] the work arrays have no
    column, and [x[:, 0] = x0.copy()] in [initialize_cg_lanczos] raises
    [IndexError]: the call fails instead of returning. *)
Lemma run_cg_lanczos_zero_cap_raises :
  run_cg_lanczos float_arith [[1%float]] [1%float] [0%float] 0 0%float
  = Raise IndexError.
Proof. reflexivity. Qed.

(** C10, amended: for conforming shapes and [max_iters >= 1], in every
    arithmetic and for every tolerance, [run_cg_lanczos] returns.  The
    returned index [k] is the number of trips of the loop (the condition is
    evaluated [k + 1] times), [k <= max_iters - 1], the loop stopped because
    the test [alpha[k] > tolerance] was false or because [k] reached the
    cap, and in both cases column [k] of [x] and of [res] exists in the
    returned arrays. *)
Theorem run_cg_lanczos_returns (Ar : arith) (A : list (list (num Ar)))
    (rhs x0 : list (num Ar)) (max_iters : Z) (tolerance : num Ar) :
  conforming Ar A rhs x0 = true -> (1 <= max_iters)%Z ->
  exists st0 st,
    initialize_cg_lanczos Ar A rhs x0 max_iters = Return st0
    /\ run_cg_lanczos Ar A rhs x0 max_iters tolerance = Return st
    /\ cg_lanczos_loop Ar (S (st_k Ar st)) A max_iters tolerance st0
       = Return st
    /\ (Z.of_nat (st_k Ar st) <= max_iters - 1)%Z
    /\ (exists ak,
          get_at (st_alpha Ar st) (st_k Ar st) = Return ak
          /\ (num_gt Ar ak tolerance = false
              \/ Z.of_nat (st_k Ar st) = (max_iters - 1)%Z))
    /\ (exists xk rk,
          get_at (st_x Ar st) (st_k Ar st) = Return xk
          /\ get_at (st_res Ar st) (st_k Ar st) = Return rk).
Proof.
  intros Hc Hm.
  destruct (any_initialize_cg_lanczos_spec Ar A rhs x0 max_iters Hc Hm)
    as (st0 & Hinit & Hwf0 & Hk0).
  destruct (any_cg_lanczos_loop_returns Ar A max_iters tolerance
              (Z.to_nat max_iters) st0 Hwf0)
    as (st & Hrun & Hwf & Hk & _ & Hexact & ak & Eak & Hexit);
    [lia | lia |].
  exists st0, st. split; [exact Hinit|].
  split; [unfold run_cg_lanczos; rewrite Hinit; exact Hrun|].
  rewrite Hk0, Nat.sub_0_r in Hexact.
  split; [exact Hexact|].
  split; [lia|].
  split.
  { exists ak. split; [exact Eak|]. destruct Hexit; [now left | right; lia]. }
  destruct (any_get_at_ok (st_x Ar st) (st_k Ar st)) as [xk Exk];
    [rewrite (any_wf_x _ _ _ Hwf); exact Hk|].
  destruct (any_get_at_ok (st_res Ar st) (st_k Ar st)) as [rk Erk];
    [rewrite (any_wf_res _ _ _ Hwf); exact Hk|].
  now exists xk, rk.
Qed.

Lemma run_cg_lanczos_returns_witness :
  exists st0 st,
    initialize_cg_lanczos float_arith
      [[2%float; 1%float]; [1%float; 2%float]] [1%float; 0%float]
      [0%float; 0%float] 3 = Return st0
    /\ run_cg_lanczos float_arith
         [[2%float; 1%float]; [1%float; 2%float]] [1%float; 0%float]
         [0%float; 0%float] 3 (-1)%float = Return st
    /\ cg_lanczos_loop float_arith (S (st_k float_arith st))
         [[2%float; 1%float]; [1%float; 2%float]] 3 (-1)%float st0
       = Return st
    /\ (Z.of_nat (st_k float_arith st) <= 3 - 1)%Z
    /\ (exists ak,
          get_at (st_alpha float_arith st) (st_k float_arith st) = Return ak
          /\ (num_gt float_arith ak (-1)%float = false
              \/ Z.of_nat (st_k float_arith st) = (3 - 1)%Z))
    /\ (exists xk rk,
          get_at (st_x float_arith st) (st_k float_arith st) = Return xk
          /\ get_at (st_res float_arith st) (st_k float_arith st)
             = Return rk).
Proof.
  apply (run_cg_lanczos_returns float_arith
           [[2%float; 1%float]; [1%float; 2%float]] [1%float; 0%float]
           [0%float; 0%float] 3 (-1)%float);
    [reflexivity | lia].
Defined.

(** That run makes two trips and stops on the cap. *)
Lemma run_cg_lanczos_two_trips :
  exists st,
    run_cg_lanczos float_arith
      [[2%float; 1%float]; [1%float; 2%float]] [1%float; 0%float]
      [0%float; 0%float] 3 (-1)%float = Return st
    /\ st_k float_arith st = 2%nat
    /\ st_alpha float_arith st = [1%float; 1%float; 0%float].
Proof.
  eexists. split; [vm_compute; reflexivity|]. split; reflexivity.
Qed.

(** A tolerance below zero and a residual that is zero: the loop divides the
    zero residual by its norm [alpha[0] = 0], the work arrays are filled
    with [nan], the test [alpha[1] > tolerance] is false on [nan], and the
    call returns after one trip. *)
Lemma run_cg_lanczos_nan_returns :
  exists st,
    run_cg_lanczos float_arith [[1%float]] [0%float] [0%float] 5 (-1)%float
    = Return st
    /\ st_k float_arith st = 1%nat
    /\ map is_nan (st_alpha float_arith st)
       = [false; true; false; false; false].
Proof.
  eexists. split; [vm_compute; reflexivity|]. split; reflexivity.
Qed.

End CgLanczosArithTheorems.

(** ** Facts on [run_cg_lanczos]: the Lanczos basis *)

Section VectorFacts.
Import Xnp NP CgLanczos.

Lemma vsub_length (u v : vec) :
  length (vsub u v) = Nat.min (length u) (length v).
Proof. unfold vsub. now rewrite length_map, length_combine. Qed.

Lemma vscale_length (c : R) (v : vec) : length (vscale c v) = length v.
Proof. apply length_map. Qed.

Lemma vdiv_length (v : vec) (c : R) : length (vdiv v c) = length v.
Proof. apply length_map. Qed.

Lemma matvec_length (A : list vec) (v : vec) : length (matvec A v) = length A.
Proof. apply length_map. Qed.

Lemma dot_comm (u v : vec) : dot u v = dot v u.
Proof.
  revert v; induction u as [|a u IH]; intros [|b v]; simpl; try reflexivity.
  rewrite IH. ring.
Qed.

Lemma dot_vsub_r (u a b : vec) :
  length a = length b -> dot u (vsub a b) = dot u a - dot u b.
Proof.
  unfold vsub.
  revert a b; induction u as [|c u IH]; intros [|x a] [|y b] H;
    simpl in *; try discriminate; try ring.
  rewrite IH by lia. ring.
Qed.

Lemma dot_vscale_r (u a : vec) (c : R) : dot u (vscale c a) = c * dot u a.
Proof.
  unfold vscale.
  revert a; induction u as [|x u IH]; intros [|y a]; simpl; try ring.
  rewrite IH. ring.
Qed.

Lemma dot_vdiv_l (a u : vec) (c : R) : dot (vdiv a c) u = dot a u / c.
Proof.
  unfold vdiv.
  revert u; induction a as [|x a IH]; intros [|y u]; simpl;
    try (unfold Rdiv; ring).
  rewrite IH. unfold Rdiv. ring.
Qed.

Lemma dot_self (v : vec) : dot v v = sumsq v.
Proof. induction v as [|a v IH]; simpl; [reflexivity | now rewrite IH]. Qed.

Lemma dot_Rsum (n : nat) (u v : vec) :
  length u = n -> length v = n ->
  dot u v = Rsum n (fun i => nth i u 0 * nth i v 0).
Proof.
  revert u v; induction n as [|n IH]; intros u v Hu Hv.
  - destruct u; [reflexivity | discriminate].
  - destruct (exists_last (l := u)) as (u' & a & ->);
      [intros ->; discriminate|].
    destruct (exists_last (l := v)) as (v' & b & ->);
      [intros ->; discriminate|].
    rewrite length_app in Hu, Hv. simpl in Hu, Hv.
    assert (Hu' : length u' = n) by lia.
    assert (Hv' : length v' = n) by lia.
    rewrite dot_app by lia. cbn [Rsum].
    rewrite (IH u' v' Hu' Hv').
    assert (Ea : nth n (u' ++ [a]) 0 = a)
      by (rewrite <- Hu'; apply nth_app_mid).
    assert (Eb : nth n (v' ++ [b]) 0 = b)
      by (rewrite <- Hv'; apply nth_app_mid).
    rewrite Ea, Eb. simpl. f_equal; [|ring].
    apply Rsum_ext. intros k Hk.
    rewrite !app_nth1 by lia. reflexivity.
Qed.

Lemma nth_matvec (A : list vec) (v : vec) (i : nat) :
  (i < length A)%nat -> nth i (matvec A v) 0 = dot (nth i A []) v.
Proof.
  intros Hi. unfold matvec.
  rewrite (nth_indep _ 0 (dot [] v)) by (now rewrite length_map).
  apply (map_nth (fun row => dot row v)).
Qed.

Lemma dot_matvec_sym (n : nat) (A : list vec) (u v : vec) :
  square n A -> symmetric A -> length u = n -> length v = n ->
  dot (matvec A u) v = dot u (matvec A v).
Proof.
  intros [HA Hrows] Hsym Hu Hv.
  rewrite (dot_Rsum n), (dot_Rsum n u)
    by (rewrite ?matvec_length; assumption).
  transitivity
    (Rsum n (fun i => Rsum n (fun j =>
       nth j (nth i A []) 0 * nth j u 0 * nth i v 0))).
  - apply Rsum_ext. intros i Hi.
    rewrite nth_matvec by lia.
    rewrite (dot_Rsum n) by auto.
    rewrite Rsum_scal_r. reflexivity.
  - rewrite Rsum_swap. apply Rsum_ext. intros j Hj.
    rewrite nth_matvec by lia.
    rewrite (dot_Rsum n) by auto.
    rewrite Rsum_scal. apply Rsum_ext. intros i Hi.
    rewrite (Hsym j i). ring.
Qed.

Lemma conforming_square (A : list vec) (rhs x0 : vec) :
  conforming A rhs x0 = true ->
  square (length rhs) A /\ length x0 = length rhs.
Proof.
  unfold conforming. intros H.
  apply andb_prop in H as [H Hx]. apply andb_prop in H as [HA Hrows].
  apply Nat.eqb_eq in HA, Hx.
  split; [split|]; try assumption.
  intros i Hi. rewrite forallb_forall in Hrows.
  apply Nat.eqb_eq, Hrows, nth_In. lia.
Qed.

End VectorFacts.

Section LanczosFacts.
Import Xnp NP CgLanczos.
Variables (A : list vec) (n m : nat) (tolerance : R).
Hypothesis A_square : square n A.
Hypothesis A_symmetric : symmetric A.
Hypothesis tolerance_nonneg : 0 <= tolerance.

Let qc (st : cg_state) (j : nat) : vec := nth j (st_q st) [].
Let rc (st : cg_state) (j : nat) : vec := nth j (st_res st) [].
Let al (st : cg_state) (j : nat) : R := nth j (st_alpha st) 0.
Let be (st : cg_state) (j : nat) : R := nth j (st_beta st) 0.

(** The invariant of the loop: columns [1..k] of [q] are orthonormal,
    the residuals obey the three-term recurrence, and [res[:, k]] is
    orthogonal to the columns found so far. *)
Record lanczos_inv (st : cg_state) : Prop := mk_lanczos_inv {
  li_wf : wf_state m st;
  li_k : (st_k st < m)%nat;
  li_qlen : forall j, (j < m)%nat -> length (qc st j) = n;
  li_rlen : forall j, (j < m)%nat -> length (rc st j) = n;
  li_q0 : qc st 0 = repeat 0 n;
  li_orth : forall i j,
    (1 <= i <= st_k st)%nat -> (1 <= j <= st_k st)%nat ->
    dot (qc st i) (qc st j) = if (i =? j)%nat then 1 else 0;
  li_res : forall j, (1 <= j <= st_k st)%nat ->
    rc st j
    = vsub (vsub (matvec A (qc st j)) (vscale (be st j) (qc st j)))
           (vscale (al st (j - 1)) (qc st (j - 1)));
  li_next : forall j, (j < st_k st)%nat ->
    0 < al st j /\ qc st (S j) = vdiv (rc st j) (al st j);
  li_alpha : al st (st_k st) = norm (rc st (st_k st));
  li_perp : forall i, (1 <= i <= st_k st)%nat ->
    dot (qc st i) (rc st (st_k st)) = 0
}.

Lemma dot_unit_residual (r : vec) (a : R) :
  a = norm r -> 0 < a -> dot (vdiv r a) (vdiv r a) = 1 /\ dot r (vdiv r a) = a.
Proof.
  intros Ha Hpos.
  assert (Hsq : a * a = sumsq r).
  { rewrite Ha. rewrite <- (norm_sq r). simpl. ring. }
  rewrite dot_vdiv_l, (dot_comm r (vdiv r a)), dot_vdiv_l, dot_self.
  rewrite <- Hsq. split; field; lra.
Qed.

Ltac vec_len :=
  repeat first
    [ rewrite vsub_length | rewrite vscale_length | rewrite vdiv_length
    | rewrite matvec_length
    | match goal with
      | H : length ?v = _ |- context [length ?v] => rewrite H
      | H : forall j, (j <= _)%nat -> length (_ j) = _ |- _ =>
        rewrite H by lia
      end ];
  lia.

Lemma lanczos_inv_body (st st' : cg_state) :
  lanczos_inv st ->
  tolerance < nth (st_k st) (st_alpha st) 0 ->
  (S (st_k st) < m)%nat ->
  cg_lanczos_body A st = Return st' ->
  lanczos_inv st'.
Proof.
  intros [Hwf Hk Hql Hrl Hq0 Horth Hres Hnext Halpha Hperp] Hgt HSk Hb.
  assert (Hnz : nth (st_k st) (st_alpha st) 0 <> 0) by lra.
  destruct (cg_lanczos_body_spec A m st Hwf HSk Hnz)
    as (s1 & Hb1 & Hwf' & Hk' & Eq & Eb & Er & Ea).
  rewrite Hb in Hb1. injection Hb1 as <-.
  destruct A_square as [HA Hrows].
  set (k := st_k st) in *.
  fold (rc st k) in Eq. fold (al st k) in Eq, Er, Hgt.
  fold (qc st' (S k)) in Eb, Er. fold (be st' (S k)) in Er.
  fold (qc st' k) in Er. fold (rc st' (S k)) in Ea.
  set (qK := vdiv (rc st k) (al st k)) in *.
  assert (Hpos : 0 < al st k) by lra.
  assert (Fq : forall j, qc st' j = if (j =? S k)%nat then qK else qc st j).
  { intros j. unfold qc. rewrite Eq.
    apply nth_update_col. now rewrite (wf_q _ _ Hwf). }
  assert (Fb : forall j, (j <> S k)%nat -> be st' j = be st j).
  { intros j Hj. unfold be. rewrite Eb.
    rewrite nth_update_at by (now rewrite (wf_beta _ _ Hwf)).
    now destruct (Nat.eqb_spec j (S k)). }
  assert (Fbk : be st' (S k) = dot qK (matvec A qK)).
  { unfold be at 1. rewrite Eb.
    rewrite nth_update_at by (now rewrite (wf_beta _ _ Hwf)).
    rewrite Nat.eqb_refl, Fq, Nat.eqb_refl. reflexivity. }
  assert (Fr : forall j, (j <> S k)%nat -> rc st' j = rc st j).
  { intros j Hj. unfold rc. rewrite Er.
    rewrite nth_update_col by (now rewrite (wf_res _ _ Hwf)).
    now destruct (Nat.eqb_spec j (S k)). }
  assert (Fqk : qc st' k = qc st k).
  { rewrite Fq. now destruct (Nat.eqb_spec k (S k)); [lia|]. }
  assert (FqK : qc st' (S k) = qK) by (now rewrite Fq, Nat.eqb_refl).
  assert (Frk : rc st' (S k)
                = vsub (vsub (matvec A qK) (vscale (be st' (S k)) qK))
                       (vscale (al st k) (qc st k))).
  { unfold rc at 1. rewrite Er.
    rewrite nth_update_col by (now rewrite (wf_res _ _ Hwf)).
    now rewrite Nat.eqb_refl, FqK, Fqk. }
  assert (Fa : forall j, (j <> S k)%nat -> al st' j = al st j).
  { intros j Hj. unfold al. rewrite Ea.
    rewrite nth_update_at by (now rewrite (wf_alpha _ _ Hwf)).
    now destruct (Nat.eqb_spec j (S k)). }
  assert (Fak : al st' (S k) = norm (rc st' (S k))).
  { unfold al. rewrite Ea.
    rewrite nth_update_at by (now rewrite (wf_alpha _ _ Hwf)).
    now rewrite Nat.eqb_refl. }
  assert (Fqo : forall j, (j <= k)%nat -> qc st' j = qc st j).
  { intros j Hj. rewrite Fq. now destruct (Nat.eqb_spec j (S k)); [lia|]. }
  assert (LqK : length qK = n).
  { unfold qK. rewrite vdiv_length. apply Hrl. lia. }
  destruct (dot_unit_residual (rc st k) (al st k) Halpha Hpos)
    as [Hunit Hrq]. fold qK in Hunit, Hrq.
  assert (Hql' : forall j, (j <= k)%nat -> length (qc st j) = n)
    by (intros; apply Hql; lia).
  (* the new column is orthogonal to the earlier ones *)
  assert (HqKo : forall j, (1 <= j <= k)%nat -> dot qK (qc st j) = 0).
  { intros j Hj. unfold qK. rewrite dot_vdiv_l, dot_comm, (Hperp j Hj).
    unfold Rdiv. ring. }
  assert (HqK0 : forall j, (j <= k)%nat -> dot qK (qc st j) = 0).
  { intros [|j] Hj; [rewrite Hq0; apply dot_zeros_r | apply HqKo; lia]. }
  (* A applied to an earlier column, paired with the new one *)
  assert (HAq : forall i, (1 <= i <= k)%nat ->
            dot (qc st i) (matvec A qK) = dot (rc st i) qK).
  { intros i Hi.
    rewrite <- (dot_matvec_sym n A (qc st i) qK)
      by (try split; auto; apply Hql; lia).
    rewrite (Hres i Hi).
    rewrite !(dot_comm (vsub _ _) qK).
    rewrite !dot_vsub_r, !dot_vscale_r by vec_len.
    rewrite (HqK0 i), (HqK0 (i - 1)%nat) by lia.
    rewrite (dot_comm qK). ring. }
  assert (Hri : forall i, (1 <= i < k)%nat -> dot (rc st i) qK = 0).
  { intros i Hi. destruct (Hnext i) as [Hai Hqi]; [lia|].
    pose proof (HqKo (S i)) as H0. rewrite Hqi in H0.
    rewrite dot_comm, dot_vdiv_l in H0.
    specialize (H0 ltac:(lia)).
    unfold Rdiv in H0.
    apply Rmult_integral in H0 as [H0|H0]; [exact H0|].
    pose proof (Rinv_0_lt_compat _ Hai). lra. }
  constructor.
  - exact Hwf'.
  - rewrite Hk'. exact HSk.
  - intros j Hj. rewrite Fq.
    destruct (Nat.eqb_spec j (S k)); [exact LqK | now apply Hql].
  - intros j Hj. destruct (Nat.eq_dec j (S k)) as [->|Hne].
    + rewrite Frk. vec_len.
    + rewrite Fr by exact Hne. now apply Hrl.
  - rewrite Fqo by lia. exact Hq0.
  - rewrite Hk'. intros i j Hi Hj.
    rewrite (Fq i), (Fq j).
    destruct (Nat.eqb_spec i (S k)) as [->|Hi'],
             (Nat.eqb_spec j (S k)) as [->|Hj'].
    + rewrite Nat.eqb_refl. exact Hunit.
    + destruct (Nat.eqb_spec (S k) j); [lia|]. apply HqKo. lia.
    + destruct (Nat.eqb_spec i (S k)); [lia|].
      rewrite dot_comm. apply HqKo. lia.
    + apply Horth; lia.
  - rewrite Hk'. intros j Hj. destruct (Nat.eq_dec j (S k)) as [->|Hne].
    + replace (S k - 1)%nat with k by lia.
      rewrite Frk, FqK, Fqk, (Fa k) by lia. reflexivity.
    + rewrite (Fr j), (Fqo j), (Fb j), (Fa (j - 1)%nat), (Fqo (j - 1)%nat)
        by lia.
      apply Hres. lia.
  - rewrite Hk'. intros j Hj. destruct (Nat.eq_dec j k) as [->|Hne].
    + rewrite (Fa k), (Fr k), FqK by lia. split; [exact Hpos | reflexivity].
    + rewrite (Fa j), (Fr j), (Fqo (S j)) by lia. apply Hnext. lia.
  - rewrite Hk'. exact Fak.
  - rewrite Hk'. intros i Hi. rewrite Frk.
    rewrite !dot_vsub_r, !dot_vscale_r by vec_len.
    rewrite Fq. destruct (Nat.eqb_spec i (S k)) as [->|Hne].
    + rewrite <- Fbk, Hunit, (HqK0 k) by lia. ring.
    + rewrite (HAq i) by lia.
      rewrite (dot_comm (qc st i) qK), (HqK0 i) by lia.
      destruct (Nat.eq_dec i k) as [->|Hik].
      * rewrite Hrq, (Horth k k) by lia. rewrite Nat.eqb_refl. ring.
      * rewrite (Hri i), (Horth i k) by lia.
        destruct (Nat.eqb_spec i k); [lia|]. ring.
Qed.

End LanczosFacts.

Section ConstructTriFacts.
Import Xnp NP CgLanczos.

Ltac in_range :=
  repeat rewrite update_at_length; repeat rewrite update_col_length;
  rewrite ?repeat_length; lia.

Ltac run_step :=
  first [ progress cbn [bind]
        | rewrite get_at_ok by in_range
        | rewrite get_col_ok by in_range
        | rewrite set_at_ok by in_range
        | rewrite set_col_ok by in_range ].

(** Row [i] of the matrix built by [construct_tri]. *)
Definition tri_row (band diag : vec) (dim i : nat) : vec :=
  let row := update_at (repeat 0 dim) (nth i diag 0) i in
  if (i =? 0)%nat then update_at row (nth i band 0) (i + 1)
  else if (i =? dim - 1)%nat then update_at row (nth (i - 1) band 0) (i - 1)
  else update_at (update_at row (nth i band 0) (i + 1))
                 (nth (i - 1) band 0) (i - 1).

Lemma update_col_app (pre post : list vec) (c c' : vec) :
  update_col (pre ++ c :: post) c' (length pre) = pre ++ c' :: post.
Proof. induction pre as [|b pre IH]; simpl; [reflexivity | now rewrite IH]. Qed.

Lemma construct_tri_rows_spec (band diag : vec) (dim : nat) :
  (2 <= dim)%nat -> length diag = dim -> length band = (dim - 1)%nat ->
  forall (l s : nat) (pre : list vec),
    length pre = s -> (s + l = dim)%nat ->
    construct_tri_rows band diag dim (seq s l)
      (pre ++ repeat (repeat 0 dim) l)
    = Return (pre ++ map (tri_row band diag dim) (seq s l)).
Proof.
  intros Hdim Hd Hb. induction l as [|l IH]; intros s pre Hpre Hs.
  - reflexivity.
  - cbn [seq construct_tri_rows repeat map].
    assert (Hlen : length (pre ++ repeat 0 dim :: repeat (repeat 0 dim) l)
                   = dim).
    { rewrite length_app. cbn [length]. rewrite repeat_length. lia. }
    assert (Hrow : nth s (pre ++ repeat 0 dim :: repeat (repeat 0 dim) l) []
                   = repeat 0 dim).
    { rewrite <- Hpre. apply nth_app_mid. }
    rewrite get_at_ok by lia. cbn [bind].
    rewrite get_col_ok by lia. cbn [bind]. rewrite Hrow.
    rewrite set_at_ok by in_range. cbn [bind].
    assert (Hstep :
      (if (s =? 0)%nat
       then b <-- get_at band s ;;
            set_at (update_at (repeat 0 dim) (nth s diag 0) s) (s + 1) b
       else if (s =? dim - 1)%nat
       then b <-- get_at band (s - 1) ;;
            set_at (update_at (repeat 0 dim) (nth s diag 0) s) (s - 1) b
       else b <-- get_at band s ;;
            row <-- set_at (update_at (repeat 0 dim) (nth s diag 0) s)
                      (s + 1) b ;;
            b' <-- get_at band (s - 1) ;; set_at row (s - 1) b')
      = Return (tri_row band diag dim s)).
    { unfold tri_row.
      destruct (Nat.eqb_spec s 0); [|destruct (Nat.eqb_spec s (dim - 1))];
        repeat run_step; reflexivity. }
    rewrite Hstep. cbn [bind].
    rewrite set_col_ok by lia. cbn [bind].
    assert (Hupd : forall c,
      update_col (pre ++ repeat 0 dim :: repeat (repeat 0 dim) l) c s
      = pre ++ c :: repeat (repeat 0 dim) l).
    { intros c. rewrite <- Hpre. apply update_col_app. }
    rewrite Hupd.
    change (pre ++ tri_row band diag dim s :: repeat (repeat 0 dim) l)
      with (pre ++ [tri_row band diag dim s] ++ repeat (repeat 0 dim) l).
    rewrite app_assoc. rewrite IH by (rewrite ?length_app; simpl; lia).
    now rewrite <- app_assoc.
Qed.

Lemma construct_tri_spec (band diag : vec) :
  let dim := length diag in
  (2 <= dim)%nat -> length band = (dim - 1)%nat ->
  construct_tri band diag
  = Return (map (tri_row band diag dim) (seq 0 dim)).
Proof.
  intros dim Hdim Hb. unfold construct_tri. fold dim.
  apply (construct_tri_rows_spec band diag dim Hdim eq_refl Hb dim 0 []);
    reflexivity.
Qed.

Lemma nth_zeros (n j : nat) : nth j (repeat 0 n) 0 = 0.
Proof.
  destruct (Nat.lt_ge_cases j n) as [H|H].
  - now rewrite nth_repeat_lt.
  - apply nth_overflow. now rewrite repeat_length.
Qed.

(** The entries of the tridiagonal matrix. *)
Lemma tri_row_entry (band diag : vec) (dim i j : nat) :
  (2 <= dim)%nat -> (i < dim)%nat -> (j < dim)%nat ->
  nth j (tri_row band diag dim i) 0
  = if (j =? i)%nat then nth i diag 0
    else if (j =? S i)%nat then nth i band 0
    else if (S j =? i)%nat then nth j band 0
    else 0.
Proof.
  intros Hdim Hi Hj. unfold tri_row.
  replace (i + 1)%nat with (S i) by lia.
  destruct (Nat.eqb_spec i 0) as [->|Hi0];
    [|destruct (Nat.eqb_spec i (dim - 1)) as [Hil|Hil]];
    repeat rewrite nth_update_at by in_range;
    rewrite nth_zeros;
    repeat match goal with
    | |- context [(?a =? ?b)%nat] => destruct (Nat.eqb_spec a b)
    end; subst; try lia; try reflexivity; f_equal; lia.
Qed.

End ConstructTriFacts.

Section LanczosBasisFacts.
Import Xnp NP CgLanczos.

Lemma Rsum_shift (n : nat) (f : nat -> R) :
  Rsum (S n) f = f 0%nat + Rsum n (fun i => f (S i)).
Proof.
  induction n as [|n IH]; [simpl; ring|].
  change (Rsum (S (S n)) f) with (Rsum (S n) f + f (S n)).
  rewrite IH. simpl. ring.
Qed.

Lemma Rsum_delta (n a : nat) (c : nat -> R) :
  Rsum n (fun i => if (i =? a)%nat then c i else 0)
  = if (a <? n)%nat then c a else 0.
Proof.
  induction n as [|n IH]; [reflexivity|].
  cbn [Rsum]. rewrite IH.
  destruct (Nat.ltb_spec a n), (Nat.ltb_spec a (S n)),
           (Nat.eqb_spec n a); subst; try lia; ring.
Qed.

Lemma nth_map0 (f : R -> R) (v : vec) (r : nat) :
  f 0 = 0 -> nth r (map f v) 0 = f (nth r v 0).
Proof. intros H. rewrite <- H at 1. apply map_nth. Qed.

Lemma nth_vscale (c : R) (v : vec) (r : nat) :
  nth r (vscale c v) 0 = c * nth r v 0.
Proof. unfold vscale. apply (nth_map0 (fun a => c * a)). ring. Qed.

Lemma nth_vdiv (v : vec) (c : R) (r : nat) :
  nth r (vdiv v c) 0 = nth r v 0 / c.
Proof.
  unfold vdiv. apply (nth_map0 (fun b => b / c)). unfold Rdiv. ring.
Qed.

Lemma nth_vsub (u v : vec) (r : nat) :
  (r < length u)%nat -> (r < length v)%nat ->
  nth r (vsub u v) 0 = nth r u 0 - nth r v 0.
Proof.
  unfold vsub. revert v r; induction u as [|a u IH]; intros [|b v] [|r];
    simpl; intros Hu Hv; try lia; try reflexivity.
  apply IH; lia.
Qed.

Lemma nth_vadd (u v : vec) (r : nat) :
  (r < length u)%nat -> (r < length v)%nat ->
  nth r (vadd u v) 0 = nth r u 0 + nth r v 0.
Proof.
  unfold vadd. revert v r; induction u as [|a u IH]; intros [|b v] [|r];
    simpl; intros Hu Hv; try lia; try reflexivity.
  apply IH; lia.
Qed.

Lemma vadd_length (u v : vec) :
  length (vadd u v) = Nat.min (length u) (length v).
Proof. unfold vadd. now rewrite length_map, length_combine. Qed.

Lemma lincomb_length (n : nat) (cs : vec) (Q : list vec) :
  Forall (fun q => length q = n) Q -> length (lincomb n cs Q) = n.
Proof.
  intros HQ; revert cs; induction HQ as [|q Q Hq _ IH]; intros [|c cs];
    cbn [lincomb]; try apply repeat_length.
  rewrite vadd_length, vscale_length, IH. lia.
Qed.

Lemma nth_lincomb (n : nat) (cs : vec) (Q : list vec) (r : nat) :
  Forall (fun q => length q = n) Q -> length cs = length Q -> (r < n)%nat ->
  nth r (lincomb n cs Q) 0
  = Rsum (length Q) (fun i => nth i cs 0 * nth r (nth i Q []) 0).
Proof.
  intros HQ; revert cs; induction HQ as [|q Q Hq HQ IH]; intros [|c cs] Hl Hr;
    try discriminate.
  - cbn. now rewrite nth_repeat_lt.
  - cbn [lincomb length]. rewrite Rsum_shift.
    rewrite nth_vadd, nth_vscale
      by (rewrite ?vscale_length, ?lincomb_length; auto; lia).
    rewrite IH by (simpl in Hl; auto; lia). reflexivity.
Qed.

Lemma slice_length {T : Type} (a b : nat) (l : list T) :
  (b <= length l)%nat -> length (slice a b l) = (b - a)%nat.
Proof.
  intros H. unfold slice. rewrite length_firstn, length_skipn. lia.
Qed.

Lemma nth_slice {T : Type} (a b i : nat) (l : list T) (d : T) :
  (i < b - a)%nat -> nth i (slice a b l) d = nth (a + i) l d.
Proof.
  intros H. unfold slice. rewrite nth_firstn.
  destruct (Nat.ltb_spec i (b - a)); [|lia].
  apply nth_skipn.
Qed.

Lemma vec_ext (n : nat) (u v : vec) :
  length u = n -> length v = n ->
  (forall r, (r < n)%nat -> nth r u 0 = nth r v 0) -> u = v.
Proof.
  intros Hu Hv H. apply (nth_ext u v 0 0); [congruence|].
  intros r Hr. apply H. lia.
Qed.

(** A column of a tridiagonal matrix picks three terms of a sum. *)
Lemma tri_column_sum (k j : nat) (d b g : nat -> R) :
  (j < k)%nat ->
  Rsum k (fun i =>
    (if (j =? i)%nat then d i
     else if (j =? S i)%nat then b i
     else if (S j =? i)%nat then b j else 0) * g i)
  = d j * g j
    + match j with O => 0 | S j' => b j' * g j' end
    + (if (S j <? k)%nat then b j * g (S j) else 0).
Proof.
  intros Hj.
  rewrite (Rsum_ext k _ (fun i =>
    (if (i =? j)%nat then d i * g i else 0)
    + ((if (S i =? j)%nat then b i * g i else 0)
       + (if (i =? S j)%nat then b j * g i else 0)))).
  2:{ intros i _.
      destruct (Nat.eqb_spec j i), (Nat.eqb_spec i j), (Nat.eqb_spec j (S i)),
               (Nat.eqb_spec (S i) j), (Nat.eqb_spec (S j) i),
               (Nat.eqb_spec i (S j)); subst; try lia; ring. }
  rewrite !Rsum_plus, !Rsum_delta.
  destruct (Nat.ltb_spec j k); [|lia].
  rewrite Rplus_assoc. f_equal. f_equal.
  destruct j as [|j'].
  - transitivity (Rsum k (fun _ => 0)); [|apply Rsum_zero].
    apply Rsum_ext. reflexivity.
  - rewrite (Rsum_ext k _ (fun i =>
      if (i =? j')%nat then b i * g i else 0)) by reflexivity.
    rewrite Rsum_delta. destruct (Nat.ltb_spec j' k); [reflexivity | lia].
Qed.

Lemma lanczos_inv_init (A : list vec) (rhs x0 : vec) (max_iters : Z)
    (st0 : cg_state) :
  conforming A rhs x0 = true -> (1 <= max_iters)%Z ->
  initialize_cg_lanczos A rhs x0 max_iters = Return st0 ->
  lanczos_inv A (length rhs) (Z.to_nat max_iters) st0.
Proof.
  intros Hc Hm Hinit.
  destruct (initialize_cg_lanczos_wf _ _ _ _ _ Hc Hm Hinit) as [Hwf Hk0].
  rewrite (initialize_cg_lanczos_spec _ _ _ _ Hc Hm) in Hinit.
  injection Hinit as <-.
  destruct (conforming_square _ _ _ Hc) as [[HA _] Hx0].
  set (m := Z.to_nat max_iters) in *. set (n := length rhs) in *.
  assert (Hmpos : (0 < m)%nat) by (unfold m; lia).
  constructor; cbn [st_k st_q st_res st_alpha st_beta] in *;
    try (intros; lia).
  - exact Hwf.
  - intros j Hj. rewrite nth_repeat_lt by exact Hj. apply repeat_length.
  - intros j Hj. rewrite nth_update_col by (rewrite repeat_length; lia).
    destruct (Nat.eqb_spec j 0).
    + rewrite vsub_length, matvec_length. fold n. lia.
    + rewrite nth_repeat_lt by exact Hj. apply repeat_length.
  - now rewrite nth_repeat_lt by exact Hmpos.
  - rewrite nth_update_at, nth_update_col by (rewrite repeat_length; lia).
    reflexivity.
Qed.

Lemma lanczos_inv_Q (A : list vec) (n m : nat) (st : cg_state) :
  lanczos_inv A n m st ->
  length (lanczos_Q st) = st_k st
  /\ forall i, (i < st_k st)%nat ->
       nth i (lanczos_Q st) [] = nth (S i) (st_q st) [].
Proof.
  intros HI. pose proof (li_wf _ _ _ _ HI) as Hwf.
  pose proof (li_k _ _ _ _ HI) as Hk. unfold lanczos_Q. split.
  - rewrite slice_length by (rewrite (wf_q _ _ Hwf); lia). lia.
  - intros i Hi. rewrite nth_slice by lia. reflexivity.
Qed.

Lemma lanczos_inv_T (A : list vec) (n m : nat) (st : cg_state) :
  lanczos_inv A n m st -> (2 <= st_k st)%nat ->
  lanczos_T st
  = Return (map (tri_row (slice 1 (st_k st) (st_alpha st))
                         (slice 1 (st_k st + 1) (st_beta st)) (st_k st))
                (seq 0 (st_k st))).
Proof.
  intros HI H2. pose proof (li_wf _ _ _ _ HI) as Hwf.
  pose proof (li_k _ _ _ _ HI) as Hk. unfold lanczos_T.
  assert (Hd : length (slice 1 (st_k st + 1) (st_beta st)) = st_k st).
  { rewrite slice_length by (rewrite (wf_beta _ _ Hwf); lia). lia. }
  rewrite construct_tri_spec; rewrite Hd; try reflexivity; try lia.
  rewrite slice_length by (rewrite (wf_alpha _ _ Hwf); lia). lia.
Qed.

(** With the invariant, [A Q - Q T] is zero except for its last column,
    which is [res[:, k]]. *)
Lemma lanczos_inv_relation (A : list vec) (n m : nat) (st : cg_state)
    (T : list vec) (j : nat) :
  square n A -> lanczos_inv A n m st -> (2 <= st_k st)%nat ->
  lanczos_T st = Return T -> (j < st_k st)%nat ->
  vsub (nth j (matmat_cols A (lanczos_Q st)) [])
       (nth j (matmul_cols n (lanczos_Q st) T) [])
  = if (j =? st_k st - 1)%nat then nth (st_k st) (st_res st) []
    else repeat 0 n.
Proof.
  intros [HA Hrows] HI H2 HT Hj.
  rewrite (lanczos_inv_T _ _ _ _ HI H2) in HT. injection HT as <-.
  destruct (lanczos_inv_Q _ _ _ _ HI) as [HQl HQn].
  destruct HI as [Hwf Hk Hql Hrl Hq0 Horth Hres Hnext Halpha Hperp].
  set (k := st_k st) in *.
  set (band := slice 1 k (st_alpha st)).
  set (diag := slice 1 (k + 1) (st_beta st)).
  set (Q := lanczos_Q st) in *.
  assert (HQall : Forall (fun q => length q = n) Q).
  { apply Forall_forall. intros q Hq.
    destruct (In_nth _ _ [] Hq) as (i & Hi & <-).
    assert (Hik : (i < k)%nat) by (rewrite <- HQl; exact Hi).
    rewrite HQn by exact Hik. apply Hql. lia. }
  assert (Hcol1 : nth j (matmat_cols A Q) [] = matvec A (nth (S j) (st_q st) [])).
  { unfold matmat_cols.
    rewrite (nth_indep _ [] (matvec A [])) by (rewrite length_map; lia).
    rewrite (map_nth (matvec A)). now rewrite HQn. }
  assert (Hhd : length (hd [] (map (tri_row band diag k) (seq 0 k))) = k).
  { destruct k as [|k']; [lia|]. cbn [seq map hd]. unfold tri_row.
    destruct (0 =? 0)%nat, (0 =? S k' - 1)%nat;
      repeat rewrite update_at_length; apply repeat_length. }
  assert (Hcol2 : nth j (matmul_cols n Q (map (tri_row band diag k) (seq 0 k))) []
                  = lincomb n
                      (col_of_rows (map (tri_row band diag k) (seq 0 k)) j) Q).
  { unfold matmul_cols. rewrite Hhd.
    rewrite (nth_indep _ [] ((fun j => lincomb n
      (col_of_rows (map (tri_row band diag k) (seq 0 k)) j) Q) 0%nat))
      by (rewrite length_map, length_seq; lia).
    rewrite (map_nth (fun j => lincomb n
      (col_of_rows (map (tri_row band diag k) (seq 0 k)) j) Q)).
    now rewrite seq_nth by lia. }
  rewrite Hcol1, Hcol2.
  assert (Hcl : length (col_of_rows (map (tri_row band diag k) (seq 0 k)) j)
                = length Q).
  { unfold col_of_rows. rewrite !length_map, length_seq. lia. }
  assert (Hentry : forall i, (i < k)%nat ->
    nth i (col_of_rows (map (tri_row band diag k) (seq 0 k)) j) 0
    = if (j =? i)%nat then nth (S i) (st_beta st) 0
      else if (j =? S i)%nat then nth (S i) (st_alpha st) 0
      else if (S j =? i)%nat then nth (S j) (st_alpha st) 0
      else 0).
  { intros i Hi. unfold col_of_rows.
    rewrite (nth_indep _ 0 ((fun row => nth j row 0) []))
      by (rewrite !length_map, length_seq; lia).
    rewrite (map_nth (fun row => nth j row 0)).
    rewrite (nth_indep _ [] (tri_row band diag k 0))
      by (rewrite length_map, length_seq; lia).
    rewrite (map_nth (tri_row band diag k)), seq_nth by lia.
    cbn [Nat.add]. rewrite tri_row_entry by lia.
    unfold diag, band.
    destruct (Nat.eqb_spec j i); [now rewrite nth_slice by lia|].
    destruct (Nat.eqb_spec j (S i)); [now rewrite nth_slice by lia|].
    destruct (Nat.eqb_spec (S j) i); [now rewrite nth_slice by lia|].
    reflexivity. }
  assert (Hlen1 : length (matvec A (nth (S j) (st_q st) [])) = n)
    by (now rewrite matvec_length).
  assert (Hlen2 : length (lincomb n
            (col_of_rows (map (tri_row band diag k) (seq 0 k)) j) Q) = n)
    by (now apply lincomb_length).
  apply (vec_ext n).
  - rewrite vsub_length. lia.
  - destruct (Nat.eqb_spec j (k - 1)); [apply Hrl; lia | apply repeat_length].
  - intros r Hr.
    rewrite nth_vsub by lia.
    rewrite nth_lincomb by assumption. rewrite HQl.
    rewrite (Rsum_ext k _ (fun i =>
      (if (j =? i)%nat then nth (S i) (st_beta st) 0
       else if (j =? S i)%nat then nth (S i) (st_alpha st) 0
       else if (S j =? i)%nat then nth (S j) (st_alpha st) 0
       else 0) * nth r (nth (S i) (st_q st) []) 0)).
    2:{ intros i Hi. now rewrite Hentry, HQn by lia. }
    rewrite (tri_column_sum k j
      (fun i => nth (S i) (st_beta st) 0)
      (fun i => nth (S i) (st_alpha st) 0)
      (fun i => nth r (nth (S i) (st_q st) []) 0)) by exact Hj.
    pose proof (Hres (S j) ltac:(lia)) as Hrj.
    apply (f_equal (fun v => nth r v 0)) in Hrj.
    replace (S j - 1)%nat with j in Hrj by lia.
    rewrite !nth_vsub, !nth_vscale in Hrj
      by (rewrite ?vsub_length, ?vscale_length, ?matvec_length, ?HA;
          rewrite ?Hql by lia; lia).
    assert (HAq : nth r (matvec A (nth (S j) (st_q st) [])) 0
                  = nth r (nth (S j) (st_res st) []) 0
                    + nth (S j) (st_beta st) 0
                      * nth r (nth (S j) (st_q st) []) 0
                    + nth j (st_alpha st) 0 * nth r (nth j (st_q st) []) 0)
      by lra.
    rewrite HAq.
    assert (Hprev : nth j (st_alpha st) 0 * nth r (nth j (st_q st) []) 0
                    = match j with
                      | O => 0
                      | S j' => nth (S j') (st_alpha st) 0
                                * nth r (nth (S j') (st_q st) []) 0
                      end).
    { destruct j as [|j']; [|reflexivity].
      rewrite Hq0, nth_zeros. ring. }
    rewrite Hprev.
    destruct (Nat.ltb_spec (S j) k) as [Hlt|Hge].
    + destruct (Nat.eqb_spec j (k - 1)); [lia|].
      destruct (Hnext (S j) Hlt) as [Hpos Hq].
      rewrite Hq, nth_vdiv, nth_zeros. field. lra.
    + destruct (Nat.eqb_spec j (k - 1)); [|lia].
      replace k with (S j) by lia. ring.
Qed.

End LanczosBasisFacts.

Section LanczosBasisTheorems.
Import Xnp NP CgLanczos.

Lemma norm_of_unit (v : vec) : sumsq v = 1 -> norm v = 1.
Proof. intros H. unfold norm. rewrite H. apply sqrt_1. Qed.

Ltac vec_eq :=
  repeat first
    [ reflexivity
    | apply (f_equal2 (@cons R))
    | apply (f_equal2 (@cons (list R)))
    | lra
    | (field; lra) ].

(** C4, counterexample: on the symmetric matrix
    [[2,1,0],[1,2,1],[0,1,2]] with [rhs = (1,0,0)], [x0 = 0],
    [max_iters = 3] and [tolerance = 1/2] the loop stops on the cap with
    [k = 2]; [construct_tri] gives [T], and the entry in row 2, column 1 of
    [A Q - Q T] is [1], above the tolerance. *)
Lemma run_cg_lanczos_cap_residual :
  exists st T,
    run_cg_lanczos [[2; 1; 0]; [1; 2; 1]; [0; 1; 2]] [1; 0; 0] [0; 0; 0] 3 (1 / 2) = Return st
    /\ st_k st = 2%nat
    /\ lanczos_T st = Return T
    /\ nth 2 (vsub (nth 1 (matmat_cols [[2; 1; 0]; [1; 2; 1]; [0; 1; 2]] (lanczos_Q st)) [])
                   (nth 1 (matmul_cols 3 (lanczos_Q st) T) [])) 0 = 1
    /\ 1 / 2 < 1.
Proof.
  assert (Hc : conforming [[2; 1; 0]; [1; 2; 1]; [0; 1; 2]] [1; 0; 0] [0; 0; 0] = true) by reflexivity.
  assert (Hm : (1 <= 3)%Z) by lia.
  pose proof (initialize_cg_lanczos_spec _ _ _ _ Hc Hm) as Hinit.
  cbv zeta in Hinit.
  destruct (initialize_cg_lanczos_wf _ _ _ _ _ Hc Hm Hinit) as [Hwf0 _].
  change (Z.to_nat 3) with 3%nat in *.
  set (st0 := mk_cg_state _ _ _ _ _ _ _ _ _ _) in *.
  assert (K0 : st_k st0 = 0%nat) by reflexivity.
  assert (Q0 : st_q st0 = [[0; 0; 0]; [0; 0; 0]; [0; 0; 0]]) by reflexivity.
  assert (B0 : st_beta st0 = [0; 0; 0]) by reflexivity.
  assert (R0 : st_res st0 = [[1; 0; 0]; [0; 0; 0]; [0; 0; 0]]).
  { unfold st0.
    cbn [st_res length repeat update_col vsub matvec map combine dot fst snd].
    vec_eq. }
  assert (A0 : st_alpha st0 = [1; 0; 0]).
  { unfold st0.
    cbn [st_alpha length repeat update_at vsub matvec map combine dot fst snd].
    rewrite norm_of_unit by (cbn [sumsq]; lra). reflexivity. }
  assert (Hhalf : Rltb (1 / 2) 1 = true) by (apply Rltb_true; lra).
  (* first trip *)
  destruct (cg_lanczos_body_spec [[2; 1; 0]; [1; 2; 1]; [0; 1; 2]] 3 st0 Hwf0)
    as (st1 & Hb1 & Hwf1 & K1 & Eq1 & Eb1 & Er1 & Ea1);
    [rewrite K0; lia | rewrite K0, A0; cbn [nth]; lra |].
  rewrite K0 in K1.
  assert (Q1 : st_q st1 = [[0; 0; 0]; [1; 0; 0]; [0; 0; 0]]).
  { rewrite Eq1, K0, Q0, R0, A0. cbn [update_col nth vdiv map]. vec_eq. }
  assert (B1 : st_beta st1 = [0; 2; 0]).
  { rewrite Eb1, K0, B0, Q1. cbn [update_at nth matvec map dot]. vec_eq. }
  assert (R1' : st_res st1 = [[1; 0; 0]; [0; 1; 0]; [0; 0; 0]]).
  { rewrite Er1, K0, R0, A0, B1, Q1.
    cbn [update_col nth matvec vsub vscale map combine dot fst snd]. vec_eq. }
  assert (A1 : st_alpha st1 = [1; 1; 0]).
  { rewrite Ea1, K0, A0, R1'. cbn [update_at nth].
    rewrite norm_of_unit by (cbn [sumsq]; lra). reflexivity. }
  (* second trip *)
  destruct (cg_lanczos_body_spec [[2; 1; 0]; [1; 2; 1]; [0; 1; 2]] 3 st1 Hwf1)
    as (st2 & Hb2 & Hwf2 & K2 & Eq2 & Eb2 & Er2 & Ea2);
    [rewrite K1; lia | rewrite K1, A1; cbn [nth]; lra |].
  rewrite K1 in K2.
  assert (Q2 : st_q st2 = [[0; 0; 0]; [1; 0; 0]; [0; 1; 0]]).
  { rewrite Eq2, K1, Q1, R1', A1. cbn [update_col nth vdiv map]. vec_eq. }
  assert (B2 : st_beta st2 = [0; 2; 2]).
  { rewrite Eb2, K1, B1, Q2. cbn [update_at nth matvec map dot]. vec_eq. }
  assert (R2 : st_res st2 = [[1; 0; 0]; [0; 1; 0]; [0; 0; 1]]).
  { rewrite Er2, K1, R1', A1, B2, Q2.
    cbn [update_col nth matvec vsub vscale map combine dot fst snd]. vec_eq. }
  assert (A2 : st_alpha st2 = [1; 1; 1]).
  { rewrite Ea2, K1, A1, R2. cbn [update_at nth].
    rewrite norm_of_unit by (cbn [sumsq]; lra). reflexivity. }
  exists st2. eexists.
  split; [|split; [exact K2|split; [|split; [|lra]]]].
  - unfold run_cg_lanczos. rewrite Hinit. cbn [bind].
    change (Z.to_nat 3) with 3%nat.
    rewrite cg_lanczos_loop_S, A0, K0. cbn [get_at nth_error bind].
    rewrite Hhalf. cbn [andb Z.of_nat Z.ltb Z.sub Z.compare Z.opp Z.add
                        Z.pos_sub Pos.pred_double].
    rewrite Hb1. cbn [bind].
    rewrite cg_lanczos_loop_S, A1, K1. cbn [get_at nth_error bind].
    rewrite Hhalf. change (Z.of_nat 1 <? 3 - 1)%Z with true. cbn [andb].
    rewrite Hb2. cbn [bind].
    rewrite cg_lanczos_loop_S, A2, K2. cbn [get_at nth_error bind].
    rewrite Hhalf. change (Z.of_nat 2 <? 3 - 1)%Z with false. cbn [andb].
    reflexivity.
  - unfold lanczos_T. rewrite K2, A2, B2.
    cbv -[IZR Rplus Rmult Rminus]. reflexivity.
  - unfold lanczos_Q. rewrite K2, Q2.
    cbv -[IZR Rplus Rmult Rminus]. lra.
Qed.

(** C4, amended: for a symmetric [A], conforming shapes, [max_iters >= 1]
    and [tolerance >= 0], [run_cg_lanczos] returns with an index [k] such
    that the [k] columns of [Q = q[:, 1:k + 1]] are orthonormal (exactly:
    [Q^T Q = I]); when [k >= 2], [construct_tri] returns [T] and
    [A Q - Q T] is zero except for its last column, which is [res[:, k]],
    of norm [alpha[k]]; and [alpha[k] <= tolerance] unless the loop stopped
    on the cap [k = max_iters - 1]. *)
Theorem run_cg_lanczos_basis (A : list vec) (rhs x0 : vec) (max_iters : Z)
    (tolerance : R) :
  conforming A rhs x0 = true -> symmetric A ->
  (1 <= max_iters)%Z -> 0 <= tolerance ->
  exists st,
    run_cg_lanczos A rhs x0 max_iters tolerance = Return st
    /\ length (lanczos_Q st) = st_k st
    /\ (forall i j, (i < st_k st)%nat -> (j < st_k st)%nat ->
         dot (nth i (lanczos_Q st) []) (nth j (lanczos_Q st) [])
         = if (i =? j)%nat then 1 else 0)
    /\ ((2 <= st_k st)%nat ->
        exists T,
          lanczos_T st = Return T
          /\ forall j, (j < st_k st)%nat ->
               vsub (nth j (matmat_cols A (lanczos_Q st)) [])
                    (nth j (matmul_cols (length rhs) (lanczos_Q st) T) [])
               = if (j =? st_k st - 1)%nat
                 then nth (st_k st) (st_res st) []
                 else repeat 0 (length rhs))
    /\ norm (nth (st_k st) (st_res st) []) = nth (st_k st) (st_alpha st) 0
    /\ (nth (st_k st) (st_alpha st) 0 <= tolerance
        \/ Z.of_nat (st_k st) = (max_iters - 1)%Z).
Proof.
  intros Hc Hsym Hm Htol.
  destruct (conforming_square _ _ _ Hc) as [Hsq _].
  pose proof (initialize_cg_lanczos_spec A rhs x0 max_iters Hc Hm) as Hinit.
  cbv zeta in Hinit.
  pose proof (lanczos_inv_init _ _ _ _ _ Hc Hm Hinit) as HI0.
  set (st0 := mk_cg_state _ _ _ _ _ _ _ _ _ _) in *.
  set (m := Z.to_nat max_iters) in *. set (n := length rhs) in *.
  destruct (cg_lanczos_loop_inv A max_iters tolerance (lanczos_inv A n m)
              Htol)
    with (fuel := m) (st := st0)
    as (st & Hrun & HI & _ & _ & Hexit).
  - intros s Hs. split; [apply (li_wf _ _ _ _ Hs) | apply (li_k _ _ _ _ Hs)].
  - intros s s' Hs Hgt HS Hb.
    apply (lanczos_inv_body A n m tolerance Hsq Hsym Htol s s' Hs Hgt HS Hb).
  - exact HI0.
  - lia.
  - exists st.
    destruct (lanczos_inv_Q _ _ _ _ HI) as [HQl HQn].
    split; [unfold run_cg_lanczos; rewrite Hinit; exact Hrun|].
    split; [exact HQl|].
    split; [|split; [|split]].
    + intros i j Hi Hj. rewrite !HQn by assumption.
      rewrite (li_orth _ _ _ _ HI (S i) (S j)) by lia. reflexivity.
    + intros H2. eexists. split; [apply (lanczos_inv_T _ _ _ _ HI H2)|].
      intros j Hj.
      apply (lanczos_inv_relation A n m st _ j Hsq HI H2); [|exact Hj].
      apply (lanczos_inv_T _ _ _ _ HI H2).
    + symmetry. apply (li_alpha _ _ _ _ HI).
    + destruct Hexit as [He|He]; [now left | right; unfold m in He; lia].
Qed.

Lemma run_cg_lanczos_basis_witness :
  exists st,
    run_cg_lanczos [[2; 1; 0]; [1; 2; 1]; [0; 1; 2]] [1; 0; 0] [0; 0; 0] 3
      (1 / 2) = Return st
    /\ length (lanczos_Q st) = st_k st
    /\ (forall i j, (i < st_k st)%nat -> (j < st_k st)%nat ->
         dot (nth i (lanczos_Q st) []) (nth j (lanczos_Q st) [])
         = if (i =? j)%nat then 1 else 0)
    /\ ((2 <= st_k st)%nat ->
        exists T,
          lanczos_T st = Return T
          /\ forall j, (j < st_k st)%nat ->
               vsub (nth j (matmat_cols [[2; 1; 0]; [1; 2; 1]; [0; 1; 2]]
                              (lanczos_Q st)) [])
                    (nth j (matmul_cols (length [1; 0; 0]) (lanczos_Q st) T)
                       [])
               = if (j =? st_k st - 1)%nat
                 then nth (st_k st) (st_res st) []
                 else repeat 0 (length [1; 0; 0]))
    /\ norm (nth (st_k st) (st_res st) []) = nth (st_k st) (st_alpha st) 0
    /\ (nth (st_k st) (st_alpha st) 0 <= 1 / 2
        \/ Z.of_nat (st_k st) = (3 - 1)%Z).
Proof.
  apply (run_cg_lanczos_basis [[2; 1; 0]; [1; 2; 1]; [0; 1; 2]]
           [1; 0; 0] [0; 0; 0] 3 (1 / 2)).
  - reflexivity.
  - intros i j.
    destruct i as [|[|[|[|i]]]], j as [|[|[|[|j]]]]; reflexivity.
  - lia.
  - lra.
Defined.

End LanczosBasisTheorems.

(** ** cola/algorithms/gmres.py

    The arrays of [gmres] are two-dimensional: a matrix product or a norm
    along an axis of an array of another rank, which numpy would batch, is an
    error of the model.  [A] stands for the dense matrix of the operator. *)

Module Gmres.
Import NP.

Section Program.

(** The diagnostics record of the Arnoldi routines, which [gmres] passes on
    unread, and the third result of [get_arnoldi_matrix], which it drops. *)
Variables infodict extra : Type.

(** The routines [gmres] calls and the file does not define: the two Arnoldi
    iterations of [cola.algorithms.arnoldi] and the dense solvers of the
    backend. *)
Inductive call : Type :=
| run_householder_arnoldi (A rhs : ndarray) (max_iters : option Z)
| get_arnoldi_matrix (A rhs : ndarray) (max_iters : option Z) (tol : R)
    (pbar : bool)
| solve (M b : ndarray)
| solvetri (M b : ndarray) (lower : bool).

Definition answer (c : call) : Type :=
  match c with
  | run_householder_arnoldi _ _ _ => (ndarray * ndarray * infodict)%type
  | get_arnoldi_matrix _ _ _ _ _ =>
    (ndarray * ndarray * extra * infodict)%type
  | solve _ _ => ndarray
  | solvetri _ _ _ => ndarray
  end.

(** A run of [gmres]: it returns, raises, or calls one of these routines and
    goes on with its answer. *)
Inductive prog (X : Type) : Type :=
| Ret (x : X)
| Raise
| Call (c : call) (k : answer c -> prog X).
Arguments Ret {X} x.
Arguments Raise {X}.
Arguments Call {X} c k.

Fixpoint bind {X Y : Type} (p : prog X) (f : X -> prog Y) : prog Y :=
  match p with
  | Ret x => f x
  | Raise => Raise
  | Call c k => Call c (fun a => bind (k a) f)
  end.

(** An array operation that may raise. *)
Definition lift {X : Type} (o : option X) : prog X :=
  match o with
  | Some x => Ret x
  | None => Raise
  end.

Definition perform (c : call) : prog (answer c) := Call c Ret.

End Program.

Arguments Ret {infodict extra X} x.
Arguments Raise {infodict extra X}.
Arguments Call {infodict extra X} c k.
Arguments bind {infodict extra X Y} p f.
Arguments lift {infodict extra X} o.
Arguments perform {infodict extra} c.

Notation "x <-- c ;; f" := (bind c (fun x => f))
  (at level 61, c at next level, right associativity).
Notation "' p <-- c ;; f" := (bind c (fun x => let 'p := x in f))
  (at level 61, p pattern, c at next level, right associativity).

(** [get_givens_cos_sin(a, b, xnp)] *)
Definition get_givens_cos_sin (a b : R) : R * R :=
  if Reqb b 0 then (1, 0)
  else
    let denom := sqrt (a ^ 2 + b ^ 2) in
    let s := - b / denom in
    let c := a / denom in
    (c, s).

(** [xnp.array([[cx, sx], [-sx, cx]])] *)
Definition givens_matrix (cx sx : R) : ndarray :=
  mk_ndarray [2%nat; 2%nat] [cx; sx; - sx; cx].

(** One trip of the loop of [get_hessenberg_triangular_qr]. *)
Definition hessenberg_qr_step (R0 : ndarray) (jdx : nat)
    : option (ndarray * ndarray) :=
  match get_item2 R0 jdx jdx, get_item2 R0 (jdx + 1) jdx with
  | Some a, Some b =>
    let '(cx, sx) := get_givens_cos_sin a b in
    let G := givens_matrix cx sx in
    match take_rows R0 [jdx; (jdx + 1)%nat] with
    | Some rows =>
      match matmul (transpose G) rows with
      | Some update =>
        match update_rows R0 update [jdx; (jdx + 1)%nat] with
        | Some R1 => Some (R1, G)
        | None => None
        end
      | None => None
      end
    | None => None
    end
  | _, _ => None
  end.

Fixpoint hessenberg_qr_loop (jdxs : list nat) (R0 : ndarray)
    (Gs : list ndarray) : option (ndarray * list ndarray) :=
  match jdxs with
  | [] => Some (R0, Gs)
  | jdx :: jdxs' =>
    match hessenberg_qr_step R0 jdx with
    | Some (R1, G) => hessenberg_qr_loop jdxs' R1 (Gs ++ [G])
    | None => None
    end
  end.

(** [get_hessenberg_triangular_qr(H, xnp)] *)
Definition get_hessenberg_triangular_qr (H : ndarray)
    : option (ndarray * list ndarray) :=
  match shape H with
  | [] => None
  | n :: _ => hessenberg_qr_loop (seq 0 (n - 1)) H []
  end.

Fixpoint apply_givens_loop (jdx : nat) (Gs : list ndarray) (vec : ndarray)
    : option ndarray :=
  match Gs with
  | [] => Some vec
  | G :: Gs' =>
    match take_rows vec [jdx; (jdx + 1)%nat] with
    | Some rows =>
      match matmul (transpose G) rows with
      | Some update =>
        match update_rows vec update [jdx; (jdx + 1)%nat] with
        | Some vec' => apply_givens_loop (S jdx) Gs' vec'
        | None => None
        end
      | None => None
      end
    | None => None
    end
  end.

(** [apply_givens_fwd(Gs, vec, xnp)] *)
Definition apply_givens_fwd (Gs : list ndarray) (vec : ndarray)
    : option ndarray :=
  apply_givens_loop 0 Gs vec.

(** The initial residual of [gmres]: [rhs - A @ x0] after [rhs] and [x0]
    were given a second axis. *)
Definition initial_residual (A rhs : ndarray) (x0 : option ndarray)
    : option (ndarray * ndarray) :=
  let is_vector := (length (shape rhs) =? 1)%nat in
  let x0 := match x0 with None => zeros_like rhs | Some x => x end in
  let rhs := if is_vector then expand_last rhs else rhs in
  let x0 := if is_vector then expand_last x0 else x0 in
  match matmul A x0 with
  | Some Ax0 =>
    match binop Rminus rhs Ax0 with
    | Some res => Some (x0, res)
    | None => None
    end
  | None => None
  end.

(** [gmres(A, rhs, x0, max_iters, tol, P, use_householder, use_triangular,
    pbar, info)]; the result is [soln], with [infodict] when [info] is set. *)
Definition gmres {infodict extra : Type} (A rhs : ndarray)
    (x0 : option ndarray) (max_iters : option Z) (tol : R)
    (P : option ndarray) (use_householder use_triangular pbar info : bool)
    : prog infodict extra (ndarray * option infodict) :=
  let is_vector := (length (shape rhs) =? 1)%nat in
  '(x0, res) <-- lift (initial_residual A rhs x0) ;;
  '(Q, H, infod) <--
    (if use_householder then
       perform (run_householder_arnoldi A res max_iters)
     else
       '(Q, H, _, infod) <--
         perform (get_arnoldi_matrix A res max_iters tol pbar) ;;
       Q <-- lift (drop_last_col Q) ;;
       Ret (Q, H, infod)) ;;
  beta <-- lift (norm_axis_m2 res) ;;
  rows <-- lift (match shape H with n :: _ => Some n | [] => None end) ;;
  let e1 := zeros [rows; 1%nat] in
  e1 <-- lift (update_row e1 beta 0) ;;
  y <--
    (if use_triangular then
       '(R0, Gs) <-- lift (get_hessenberg_triangular_qr H) ;;
       target <-- lift (apply_givens_fwd Gs e1) ;;
       if use_householder then perform (solvetri R0 target false)
       else
         R1 <-- lift (drop_last_row R0) ;;
         target1 <-- lift (drop_last_row target) ;;
         perform (solvetri R1 target1 false)
     else
       HtH <-- lift (matmul (transpose H) H) ;;
       Hte1 <-- lift (matmul (transpose H) e1) ;;
       perform (solve HtH Hte1)) ;;
  Qy <-- lift (matmul Q y) ;;
  soln <-- lift (binop Rplus x0 Qy) ;;
  soln <-- (if is_vector then lift (first_col soln) else Ret soln) ;;
  Ret (soln, if info then Some infod else None).

(** The answers of the routines [gmres] calls; [None] when they raise. *)
Record handler (infodict extra : Type) := mk_handler {
  h_answer : forall c : call, option (answer infodict extra c)
}.
Arguments h_answer {infodict extra} h c.

(** The result of a run under given answers. *)
Fixpoint run {infodict extra X : Type} (h : handler infodict extra)
    (p : prog infodict extra X) : option X :=
  match p with
  | Ret x => Some x
  | Raise => None
  | Call c k =>
    match h_answer h c with
    | Some a => run h (k a)
    | None => None
    end
  end.

End Gmres.

(** ** Facts on [gmres]: the Arnoldi iteration is always run *)

Section GmresCallFacts.
Import NP Gmres.

Lemma run_bind {infodict extra X Y : Type} (h : handler infodict extra)
    (p : prog infodict extra X) (f : X -> prog infodict extra Y) :
  run h (bind p f)
  = match run h p with
    | Some x => run h (f x)
    | None => None
    end.
Proof.
  induction p as [x| |c k IH]; cbn [bind run]; try reflexivity.
  destruct (h_answer h c) as [a|]; [apply IH | reflexivity].
Qed.

Lemma run_lift {infodict extra X : Type} (h : handler infodict extra)
    (o : option X) :
  run h (lift o) = o.
Proof. destruct o; reflexivity. Qed.

Lemma run_perform {infodict extra : Type} (h : handler infodict extra)
    (c : call) :
  run h (perform c) = h_answer h c.
Proof. cbn [perform run]. destruct (h_answer h c); reflexivity. Qed.

(** C6, counterexample: for [A = [[1]]], [rhs = [0]] and no initial guess
    (so [x0 = 0]) the initial residual is zero, within the default
    tolerance [1e-7], and [gmres] does not return: it calls
    [get_arnoldi_matrix] on the residual. *)
Lemma gmres_zero_residual_calls_arnoldi :
  exists x0 res nrm k,
    initial_residual (mk_ndarray [1%nat; 1%nat] [1]) (mk_ndarray [1%nat] [0])
      None = Some (x0, res)
    /\ norm_axis_m2 res = Some nrm
    /\ get nrm [0%nat] <= 1 / 10000000
    /\ @gmres unit unit (mk_ndarray [1%nat; 1%nat] [1])
         (mk_ndarray [1%nat] [0]) None None (1 / 10000000) None
         false false false false
       = Call (get_arnoldi_matrix (mk_ndarray [1%nat; 1%nat] [1]) res None
                 (1 / 10000000) false) k.
Proof.
  do 4 eexists. split; [reflexivity|]. split; [reflexivity|]. split.
  - cbv -[IZR Rplus Rmult Rminus Rdiv Rle sqrt].
    match goal with |- sqrt ?e <= _ => replace e with 0 by lra end.
    rewrite sqrt_0. lra.
  - reflexivity.
Qed.

End GmresCallFacts.

(** ** Facts on [gmres]: the Givens path and the normal equations *)

Section MatrixFacts.
Import NP Gmres.

(** Entry [(i, j)] of a two-dimensional array. *)
Definition em (M : ndarray) (i j : nat) : R := get M [i; j].

Lemma in_shape_2d (i j n p : nat) :
  (i < n)%nat -> (j < p)%nat -> in_shape [i; j] [n; p].
Proof. intros Hi Hj. repeat constructor; assumption. Qed.

Lemma em_of_fun (n p : nat) (f : list nat -> R) (i j : nat) :
  (i < n)%nat -> (j < p)%nat -> em (of_fun [n; p] f) i j = f [i; j].
Proof. intros Hi Hj. apply get_of_fun. now apply in_shape_2d. Qed.

(** Two matrices of one shape with the same entries are equal. *)
Lemma matrix_ext (n p : nat) (a b : ndarray) :
  wf a -> wf b -> shape a = [n; p] -> shape b = [n; p] ->
  (forall i j, (i < n)%nat -> (j < p)%nat -> em a i j = em b i j) ->
  a = b.
Proof.
  intros Ha Hb Hsa Hsb H. apply ndarray_ext; try assumption; [congruence|].
  rewrite Hsa. intros idx Hidx.
  inversion Hidx as [|i n' r s' Hi Hr]; subst.
  inversion Hr as [|j p' r' s'' Hj Hr']; subst.
  inversion Hr'; subst. now apply H.
Qed.

Lemma shape_eqb_refl (s : list nat) : shape_eqb s s = true.
Proof.
  induction s as [|d s IH]; simpl; [reflexivity|].
  now rewrite Nat.eqb_refl.
Qed.

Lemma matmul_spec (a b : ndarray) (m n p : nat) :
  shape a = [m; n] -> shape b = [n; p] ->
  exists c,
    matmul a b = Some c /\ shape c = [m; p] /\ wf c
    /\ forall i j, (i < m)%nat -> (j < p)%nat ->
         em c i j = Rsum n (fun k => em a i k * em b k j).
Proof.
  intros Ha Hb. unfold matmul. rewrite Ha, Hb, Nat.eqb_refl.
  eexists. split; [reflexivity|]. split; [reflexivity|].
  split; [apply of_fun_wf|].
  intros i j Hi Hj. rewrite em_of_fun by assumption. reflexivity.
Qed.

Lemma transpose_spec (a : ndarray) (n p : nat) :
  shape a = [n; p] ->
  shape (transpose a) = [p; n] /\ wf (transpose a)
  /\ forall i j, (i < p)%nat -> (j < n)%nat ->
       em (transpose a) i j = em a j i.
Proof.
  intros Ha. unfold transpose. rewrite Ha. cbn [rev app].
  split; [reflexivity|]. split; [apply of_fun_wf|].
  intros i j Hi Hj. rewrite em_of_fun by assumption. reflexivity.
Qed.

(** The rotation of rows [jdx] and [jdx + 1] by [[c, s], [-s, c]]^T, on
    the entries. *)
Definition rotate (c s : R) (jdx : nat) (f : nat -> nat -> R)
    (i j : nat) : R :=
  if (i =? jdx)%nat then c * f jdx j - s * f (S jdx) j
  else if (i =? S jdx)%nat then s * f jdx j + c * f (S jdx) j
  else f i j.

(** What the two loops do to an array with a rotation [G]. *)
Definition rotate_rows (G M : ndarray) (jdx : nat) : option ndarray :=
  match take_rows M [jdx; (jdx + 1)%nat] with
  | Some rows =>
    match matmul (transpose G) rows with
    | Some update => update_rows M update [jdx; (jdx + 1)%nat]
    | None => None
    end
  | None => None
  end.

Lemma givens_matrix_entries (c s : R) :
  em (givens_matrix c s) 0 0 = c /\ em (givens_matrix c s) 0 1 = s
  /\ em (givens_matrix c s) 1 0 = - s /\ em (givens_matrix c s) 1 1 = c.
Proof. repeat split; reflexivity. Qed.

Lemma rotate_rows_spec (c s : R) (M : ndarray) (n p jdx : nat) :
  shape M = [n; p] -> (S jdx < n)%nat ->
  exists M',
    rotate_rows (givens_matrix c s) M jdx = Some M'
    /\ shape M' = [n; p] /\ wf M'
    /\ forall i j, (i < n)%nat -> (j < p)%nat ->
         em M' i j = rotate c s jdx (em M) i j.
Proof.
  intros HM Hj. unfold rotate_rows, take_rows. rewrite HM.
  replace (jdx + 1)%nat with (S jdx) by lia.
  cbn [forallb]. 
  destruct (Nat.ltb_spec jdx n); [|lia].
  destruct (Nat.ltb_spec (S jdx) n); [|lia]. cbn [andb length].
  set (rows := of_fun [2%nat; p] _).
  destruct (transpose_spec (givens_matrix c s) 2 2 eq_refl)
    as (HsT & _ & HeT).
  destruct (matmul_spec (transpose (givens_matrix c s)) rows 2 2 p HsT eq_refl)
    as (upd & Hmm & Hsu & Hwu & Heu).
  rewrite Hmm. unfold update_rows. rewrite HM. cbn [forallb length].
  destruct (Nat.ltb_spec jdx n); [|lia].
  destruct (Nat.ltb_spec (S jdx) n); [|lia]. cbn [andb].
  rewrite Hsu, broadcast_shapes_same, shape_eqb_refl.
  eexists. split; [reflexivity|]. split; [reflexivity|].
  split; [apply of_fun_wf|].
  intros i j Hi Hjp. rewrite em_of_fun by assumption.
  assert (Hbget : forall k, (k < 2)%nat -> bget upd [k; j] = em upd k j).
  { intros k Hk. unfold bget. rewrite Hsu. cbn.
    destruct (Nat.eqb_spec p 1); [|reflexivity].
    unfold em. do 3 f_equal. lia. }
  assert (Hrows : forall k, (k < 2)%nat ->
            em rows k j = em M (nth k [jdx; S jdx] 0%nat) j).
  { intros k Hk. unfold rows. rewrite em_of_fun by assumption. reflexivity. }
  destruct (givens_matrix_entries c s) as (G00 & G01 & G10 & G11).
  unfold rotate. cbn [find_last].
  destruct (Nat.eqb_spec i (S jdx)) as [->|Hne1].
  - destruct (Nat.eqb_spec (S jdx) jdx); [lia|].
    rewrite Hbget, Heu by lia. cbn [Rsum].
    rewrite !HeT, !Hrows by lia. cbn [nth]. rewrite G01, G11. ring.
  - destruct (Nat.eqb_spec i jdx) as [->|Hne0]; [|reflexivity].
    rewrite Hbget, Heu by lia. cbn [Rsum].
    rewrite !HeT, !Hrows by lia. cbn [nth]. rewrite G00, G10. ring.
Qed.

Lemma rotate_ext (c s : R) (jdx n p : nat) (f g : nat -> nat -> R) :
  (S jdx < n)%nat ->
  (forall i j, (i < n)%nat -> (j < p)%nat -> f i j = g i j) ->
  forall i j, (i < n)%nat -> (j < p)%nat ->
    rotate c s jdx f i j = rotate c s jdx g i j.
Proof.
  intros Hj H i j Hi Hjp. unfold rotate.
  rewrite (H jdx j), (H (S jdx) j), (H i j) by lia. reflexivity.
Qed.

(** The rotation chosen by [get_givens_cos_sin] is orthogonal and sends
    [(a, b)] to a multiple of [(1, 0)]. *)
Lemma get_givens_cos_sin_spec (a b : R) :
  let '(c, s) := get_givens_cos_sin a b in
  c * c + s * s = 1 /\ s * a + c * b = 0.
Proof.
  unfold get_givens_cos_sin. destruct (Reqb b 0) eqn:E.
  - apply Reqb_true in E. subst b. split; ring.
  - apply Reqb_false in E.
    assert (Hpos : 0 < a ^ 2 + b ^ 2) by nra.
    pose proof (sqrt_lt_R0 _ Hpos) as Hd.
    pose proof (sqrt_sqrt (a ^ 2 + b ^ 2) (Rlt_le _ _ Hpos)) as Hsq.
    set (d := sqrt (a ^ 2 + b ^ 2)) in *.
    split.
    + replace (a / d * (a / d) + - b / d * (- b / d))
        with ((a ^ 2 + b ^ 2) / (d * d)) by (field; lra).
      rewrite Hsq. field. lra.
    + field. lra.
Qed.

(** A sum whose terms change at two neighbouring indices only, keeping
    their sum. *)
Lemma Rsum_two_point (n jdx : nat) (f g : nat -> R) :
  (S jdx < n)%nat ->
  (forall i, i <> jdx -> i <> S jdx -> f i = g i) ->
  f jdx + f (S jdx) = g jdx + g (S jdx) ->
  Rsum n f = Rsum n g.
Proof.
  intros Hj Hother Hpair.
  replace n with (jdx + (2 + (n - jdx - 2)))%nat by lia.
  rewrite !Rsum_app. cbn [Rsum].
  rewrite !Nat.add_0_r. replace (jdx + 1)%nat with (S jdx) by lia.
  rewrite (Rsum_ext jdx f g) by (intros; apply Hother; lia).
  rewrite (Rsum_ext (n - jdx - 2) (fun r => f (jdx + (2 + r))%nat)
             (fun r => g (jdx + (2 + r))%nat))
    by (intros; apply Hother; lia).
  lra.
Qed.

(** An orthogonal rotation of two rows keeps the products of columns. *)
Lemma rotate_gram (c s : R) (jdx n : nat) (f g : nat -> nat -> R)
    (a b : nat) :
  c * c + s * s = 1 -> (S jdx < n)%nat ->
  Rsum n (fun i => rotate c s jdx f i a * rotate c s jdx g i b)
  = Rsum n (fun i => f i a * g i b).
Proof.
  intros Hcs Hj. apply (Rsum_two_point n jdx); [exact Hj| |].
  - intros i H0 H1. unfold rotate.
    destruct (Nat.eqb_spec i jdx); [contradiction|].
    destruct (Nat.eqb_spec i (S jdx)); [contradiction|]. reflexivity.
  - unfold rotate. rewrite !Nat.eqb_refl.
    destruct (Nat.eqb_spec (S jdx) jdx); [lia|].
    transitivity ((c * c + s * s)
                  * (f jdx a * g jdx b + f (S jdx) a * g (S jdx) b));
      [ring | rewrite Hcs; ring].
Qed.

(** The rotations of rows [jdx], [jdx + 1], ... in turn. *)
Fixpoint rotate_all (cs : list (R * R)) (jdx : nat) (f : nat -> nat -> R)
    : nat -> nat -> R :=
  match cs with
  | [] => f
  | (c, s) :: cs' => rotate_all cs' (S jdx) (rotate c s jdx f)
  end.

Definition orthogonal (cs : R * R) : Prop :=
  fst cs * fst cs + snd cs * snd cs = 1.

Lemma rotate_all_gram (cs : list (R * R)) (jdx n : nat)
    (f g : nat -> nat -> R) (a b : nat) :
  Forall orthogonal cs -> (jdx + length cs <= n - 1)%nat ->
  Rsum n (fun i => rotate_all cs jdx f i a * rotate_all cs jdx g i b)
  = Rsum n (fun i => f i a * g i b).
Proof.
  intros Hcs. revert jdx f g.
  induction Hcs as [|[c s] cs Hc _ IH]; intros jdx f g Hn; [reflexivity|].
  cbn [rotate_all length] in *. rewrite IH by lia.
  apply rotate_gram; [exact Hc | lia].
Qed.

Lemma rotate_all_ext (cs : list (R * R)) (jdx n p : nat)
    (f g : nat -> nat -> R) :
  (jdx + length cs <= n - 1)%nat ->
  (forall i j, (i < n)%nat -> (j < p)%nat -> f i j = g i j) ->
  forall i j, (i < n)%nat -> (j < p)%nat ->
    rotate_all cs jdx f i j = rotate_all cs jdx g i j.
Proof.
  revert jdx f g. induction cs as [|[c s] cs IH]; intros jdx f g Hn H;
    [exact H|].
  cbn [rotate_all length] in *. apply IH; [lia|].
  apply rotate_ext; [lia | exact H].
Qed.

(** Zero below the first subdiagonal, and zero on the first subdiagonal in
    the columns before [t], for the entries of an [n] by [p] array. *)
Definition hessenberg_entries (n p : nat) (f : nat -> nat -> R) : Prop :=
  forall i j, (i < n)%nat -> (j < p)%nat -> (S j < i)%nat -> f i j = 0.

Definition subdiagonal_cleared (n p t : nat) (f : nat -> nat -> R) : Prop :=
  forall j, (j < t)%nat -> (S j < n)%nat -> (j < p)%nat -> f (S j) j = 0.

Lemma hessenberg_qr_step_spec (R0 : ndarray) (n p jdx : nat) :
  shape R0 = [n; p] -> (S jdx < n)%nat -> (jdx < p)%nat ->
  exists R1 c s,
    get_givens_cos_sin (em R0 jdx jdx) (em R0 (S jdx) jdx) = (c, s)
    /\ hessenberg_qr_step R0 jdx = Some (R1, givens_matrix c s)
    /\ shape R1 = [n; p] /\ wf R1
    /\ forall i j, (i < n)%nat -> (j < p)%nat ->
         em R1 i j = rotate c s jdx (em R0) i j.
Proof.
  intros HR Hj Hp.
  destruct (get_givens_cos_sin (em R0 jdx jdx) (em R0 (S jdx) jdx))
    as [c s] eqn:Ecs.
  destruct (rotate_rows_spec c s R0 n p jdx HR Hj)
    as (R1 & Hrot & Hs1 & Hw1 & He1).
  exists R1, c, s. split; [reflexivity|].
  split; [|split; [exact Hs1|split; [exact Hw1|exact He1]]].
  unfold hessenberg_qr_step, get_item2. rewrite HR.
  replace (jdx + 1)%nat with (S jdx) in * by lia.
  destruct (Nat.ltb_spec jdx n); [|lia].
  destruct (Nat.ltb_spec (S jdx) n); [|lia].
  destruct (Nat.ltb_spec jdx p); [|lia]. cbn [andb].
  fold (em R0 jdx jdx). fold (em R0 (S jdx) jdx). rewrite Ecs.
  unfold rotate_rows in Hrot.
  replace (jdx + 1)%nat with (S jdx) in * by lia.
  destruct (take_rows R0 [jdx; S jdx]) as [rows|]; [|discriminate].
  destruct (matmul (transpose (givens_matrix c s)) rows) as [upd|];
    [|discriminate].
  now rewrite Hrot.
Qed.

Lemma rotate_step_pattern (n p jdx : nat) (c s : R) (f : nat -> nat -> R) :
  (S jdx < n)%nat -> (jdx < p)%nat ->
  s * f jdx jdx + c * f (S jdx) jdx = 0 ->
  hessenberg_entries n p f -> subdiagonal_cleared n p jdx f ->
  hessenberg_entries n p (rotate c s jdx f)
  /\ subdiagonal_cleared n p (S jdx) (rotate c s jdx f).
Proof.
  intros Hj Hp Hzero Hh Hs.
  assert (Hrow : forall j, (j < jdx)%nat -> (j < p)%nat -> f jdx j = 0).
  { intros j Hlt Hjp. destruct (Nat.eq_dec (S j) jdx) as [<-|Hne].
    - apply Hs; lia.
    - apply Hh; lia. }
  split.
  - intros i j Hi Hjp Hij. unfold rotate.
    destruct (Nat.eqb_spec i jdx) as [->|H0].
    + rewrite (Hh jdx j), (Hh (S jdx) j) by lia. ring.
    + destruct (Nat.eqb_spec i (S jdx)) as [->|H1].
      * rewrite (Hrow j), (Hh (S jdx) j) by lia. ring.
      * apply Hh; lia.
  - intros j Hlt HSj Hjp. unfold rotate.
    destruct (Nat.eqb_spec (S j) jdx) as [E|H0].
    + rewrite <- E in *. rewrite (Hs j), (Hh (S (S j)) j) by lia. ring.
    + destruct (Nat.eqb_spec (S j) (S jdx)) as [E|H1].
      * injection E as ->. exact Hzero.
      * apply Hs; lia.
Qed.

Lemma hessenberg_qr_loop_spec (l : nat) :
  forall (j0 : nat) (R0 : ndarray) (Gs0 : list ndarray) (n p : nat),
    shape R0 = [n; p] -> wf R0 ->
    (j0 + l <= n - 1)%nat -> (j0 + l <= p)%nat ->
    hessenberg_entries n p (em R0) ->
    subdiagonal_cleared n p j0 (em R0) ->
    exists R1 cs,
      hessenberg_qr_loop (seq j0 l) R0 Gs0
      = Some (R1, Gs0 ++ map (fun cs => givens_matrix (fst cs) (snd cs)) cs)
      /\ length cs = l /\ Forall orthogonal cs
      /\ shape R1 = [n; p] /\ wf R1
      /\ (forall i j, (i < n)%nat -> (j < p)%nat ->
            em R1 i j = rotate_all cs j0 (em R0) i j)
      /\ hessenberg_entries n p (em R1)
      /\ subdiagonal_cleared n p (j0 + l) (em R1).
Proof.
  induction l as [|l IH]; intros j0 R0 Gs0 n p HR Hwf Hn Hp Hh Hs.
  - exists R0, []. cbn [seq hessenberg_qr_loop map rotate_all length].
    rewrite app_nil_r, Nat.add_0_r. repeat split; auto.
  - cbn [seq hessenberg_qr_loop].
    destruct (hessenberg_qr_step_spec R0 n p j0 HR)
      as (R1 & c & s & Ecs & Hstep & Hs1 & Hw1 & He1); [lia | lia |].
    rewrite Hstep.
    pose proof (get_givens_cos_sin_spec (em R0 j0 j0) (em R0 (S j0) j0))
      as Hg. rewrite Ecs in Hg. destruct Hg as [Hort Hzero].
    destruct (rotate_step_pattern n p j0 c s (em R0)) as [Hh' Hs'];
      try assumption; try lia.
    assert (Hh1 : hessenberg_entries n p (em R1)).
    { intros i j Hi Hj Hij. rewrite He1 by assumption. now apply Hh'. }
    assert (Hsub1 : subdiagonal_cleared n p (S j0) (em R1)).
    { intros j Hlt HSj Hj. rewrite He1 by assumption. now apply Hs'. }
    destruct (IH (S j0) R1 (Gs0 ++ [givens_matrix c s]) n p Hs1 Hw1)
      as (R2 & cs & Hloop & Hlen & Hcs & Hs2 & Hw2 & He2 & Hh2 & Hsub2);
      try assumption; try lia.
    exists R2, ((c, s) :: cs).
    split; [rewrite Hloop, <- app_assoc; reflexivity|].
    split; [cbn [length]; lia|].
    split; [constructor; [exact Hort | exact Hcs]|].
    split; [exact Hs2|]. split; [exact Hw2|].
    split; [|split; [exact Hh2|]].
    + intros i j Hi Hj. rewrite He2 by assumption. cbn [rotate_all].
      apply (rotate_all_ext cs (S j0) n p); try assumption; lia.
    + replace (j0 + S l)%nat with (S j0 + l)%nat by lia. exact Hsub2.
Qed.

Lemma apply_givens_loop_spec (cs : list (R * R)) :
  forall (j0 : nat) (v : ndarray) (n q : nat),
    shape v = [n; q] -> wf v -> (j0 + length cs <= n - 1)%nat ->
    exists v',
      apply_givens_loop j0
        (map (fun cs => givens_matrix (fst cs) (snd cs)) cs) v = Some v'
      /\ shape v' = [n; q] /\ wf v'
      /\ forall i j, (i < n)%nat -> (j < q)%nat ->
           em v' i j = rotate_all cs j0 (em v) i j.
Proof.
  induction cs as [|[c s] cs IH]; intros j0 v n q Hv Hwf Hn.
  - exists v. repeat split; auto.
  - cbn [map apply_givens_loop fst snd length] in *.
    destruct (rotate_rows_spec c s v n q j0 Hv) as (v1 & Hrot & Hs1 & Hw1 & He1);
      [lia|].
    unfold rotate_rows in Hrot.
    destruct (take_rows v [j0; (j0 + 1)%nat]) as [rows|]; [|discriminate].
    destruct (matmul (transpose (givens_matrix c s)) rows) as [upd|];
      [|discriminate].
    rewrite Hrot.
    destruct (IH (S j0) v1 n q Hs1 Hw1) as (v2 & Hloop & Hs2 & Hw2 & He2);
      [lia|].
    exists v2. split; [exact Hloop|]. split; [exact Hs2|].
    split; [exact Hw2|].
    intros i j Hi Hj. rewrite He2 by assumption. cbn [rotate_all].
    apply (rotate_all_ext cs (S j0) n q); try assumption; lia.
Qed.

End MatrixFacts.

(** ** The small least-squares problem, on entries *)

Section LeastSquaresFacts.
Import NP.

Lemma Rsum_trunc (n m : nat) (f : nat -> R) :
  (m <= n)%nat -> (forall i, (m <= i)%nat -> (i < n)%nat -> f i = 0) ->
  Rsum n f = Rsum m f.
Proof.
  intros Hmn Hz. replace n with (m + (n - m))%nat by lia.
  rewrite Rsum_app.
  rewrite (Rsum_ext (n - m) _ (fun _ => 0)) by (intros; apply Hz; lia).
  rewrite Rsum_zero. ring.
Qed.

Lemma Rsum_all_zero (n : nat) (f : nat -> R) :
  (forall i, (i < n)%nat -> f i = 0) -> Rsum n f = 0.
Proof.
  intros H. rewrite (Rsum_ext n f (fun _ => 0)) by exact H.
  apply Rsum_zero.
Qed.

Lemma Rsum_nonneg (n : nat) (f : nat -> R) :
  (forall i, (i < n)%nat -> 0 <= f i) -> 0 <= Rsum n f.
Proof.
  induction n as [|n IH]; intros H; cbn [Rsum]; [lra|].
  assert (0 <= Rsum n f) by (apply IH; intros; apply H; lia).
  assert (0 <= f n) by (apply H; lia). lra.
Qed.

Lemma Rsum_nonneg_zero (n : nat) (f : nat -> R) :
  (forall i, (i < n)%nat -> 0 <= f i) -> Rsum n f = 0 ->
  forall i, (i < n)%nat -> f i = 0.
Proof.
  induction n as [|n IH]; intros H Hsum i Hi; [lia|].
  cbn [Rsum] in Hsum.
  assert (H1 : 0 <= Rsum n f) by (apply Rsum_nonneg; intros; apply H; lia).
  assert (H2 : 0 <= f n) by (apply H; lia).
  destruct (Nat.eq_dec i n) as [->|Hne]; [lra|].
  apply IH; [intros; apply H; lia | lra | lia].
Qed.

(** If [R] has the column products of [H], is zero below row [m], and
    [R y = t] on its first [m] rows, then [y] solves the normal
    equations of [H]. *)
Lemma normal_equations_of_triangular (n m : nat) (Hf Rf : nat -> nat -> R)
    (e t y : nat -> R) :
  (m <= n)%nat ->
  (forall a b, (a < m)%nat -> (b < m)%nat ->
     Rsum n (fun i => Rf i a * Rf i b) = Rsum n (fun i => Hf i a * Hf i b)) ->
  (forall a, (a < m)%nat ->
     Rsum n (fun i => Rf i a * t i) = Rsum n (fun i => Hf i a * e i)) ->
  (forall i a, (m <= i)%nat -> (i < n)%nat -> (a < m)%nat -> Rf i a = 0) ->
  (forall i, (i < m)%nat -> Rsum m (fun b => Rf i b * y b) = t i) ->
  forall a, (a < m)%nat ->
    Rsum m (fun b => Rsum n (fun i => Hf i a * Hf i b) * y b)
    = Rsum n (fun i => Hf i a * e i).
Proof.
  intros Hmn Hgram Hrhs Hzero Hsolve a Ha.
  rewrite <- (Hrhs a Ha).
  rewrite (Rsum_trunc n m (fun i => Rf i a * t i)) by
    (try exact Hmn; intros i H1 H2; rewrite (Hzero i a) by assumption; ring).
  rewrite (Rsum_ext m _ (fun b => Rsum m (fun i => Rf i a * Rf i b * y b))).
  2:{ intros b Hb. rewrite <- (Hgram a b Ha Hb).
      rewrite (Rsum_trunc n m (fun i => Rf i a * Rf i b)) by
        (try exact Hmn; intros i H1 H2; rewrite (Hzero i a) by assumption;
         ring).
      apply Rsum_scal_r. }
  rewrite Rsum_swap. apply Rsum_ext. intros i Hi.
  rewrite <- (Hsolve i Hi). rewrite Rsum_scal.
  apply Rsum_ext. intros b _. ring.
Qed.

(** The columns of [H] are independent. *)
Definition independent_columns (n m : nat) (Hf : nat -> nat -> R) : Prop :=
  forall d : nat -> R,
    (forall i, (i < n)%nat -> Rsum m (fun a => Hf i a * d a) = 0) ->
    forall a, (a < m)%nat -> d a = 0.

(** The kernel of [H^T H] is the kernel of [H]. *)
Lemma gram_kernel (n m : nat) (Hf : nat -> nat -> R) (d : nat -> R) :
  (forall a, (a < m)%nat ->
     Rsum m (fun b => Rsum n (fun i => Hf i a * Hf i b) * d b) = 0) ->
  forall i, (i < n)%nat -> Rsum m (fun a => Hf i a * d a) = 0.
Proof.
  intros Hker.
  set (v := fun i => Rsum m (fun a => Hf i a * d a)).
  assert (Hinner : forall a, (a < m)%nat ->
            Rsum n (fun i => Hf i a * v i) = 0).
  { intros a Ha. rewrite <- (Hker a Ha).
    rewrite (Rsum_ext m _ (fun b => Rsum n (fun i => Hf i a * Hf i b * d b)))
      by (intros; apply Rsum_scal_r).
    rewrite Rsum_swap. apply Rsum_ext. intros i _. unfold v.
    rewrite Rsum_scal. apply Rsum_ext. intros b _. ring. }
  assert (Hsq : Rsum n (fun i => v i * v i) = 0).
  { rewrite (Rsum_ext n _ (fun i => Rsum m (fun a => d a * (Hf i a * v i)))).
    2:{ intros i _. unfold v at 1. rewrite Rsum_scal_r.
        apply Rsum_ext. intros a _. ring. }
    rewrite Rsum_swap.
    rewrite (Rsum_ext m _ (fun _ => 0)); [apply Rsum_zero|].
    intros a Ha. rewrite <- Rsum_scal, (Hinner a Ha). ring. }
  intros i Hi.
  pose proof (Rsum_nonneg_zero n (fun i => v i * v i)
                (fun i _ => Rle_0_sqr (v i)) Hsq i Hi) as H0.
  cbv beta in H0. fold (v i). nra.
Qed.

(** With independent columns the normal equations have one solution at
    most. *)
Lemma normal_equations_unique (n m : nat) (Hf : nat -> nat -> R)
    (e y1 y2 : nat -> R) :
  independent_columns n m Hf ->
  (forall a, (a < m)%nat ->
     Rsum m (fun b => Rsum n (fun i => Hf i a * Hf i b) * y1 b) = e a) ->
  (forall a, (a < m)%nat ->
     Rsum m (fun b => Rsum n (fun i => Hf i a * Hf i b) * y2 b) = e a) ->
  forall a, (a < m)%nat -> y1 a = y2 a.
Proof.
  intros Hind H1 H2 a Ha.
  assert (Hd : y1 a - y2 a = 0).
  { apply (Hind (fun b => y1 b - y2 b)); [|exact Ha].
    apply gram_kernel. intros a' Ha'.
    rewrite (Rsum_ext m _ (fun b =>
      Rsum n (fun i => Hf i a' * Hf i b) * y1 b
      + - (Rsum n (fun i => Hf i a' * Hf i b) * y2 b)))
      by (intros; ring).
    rewrite Rsum_plus, H1 by exact Ha'.
    rewrite (Rsum_ext m (fun b => - _) (fun b =>
      -1 * (Rsum n (fun i => Hf i a' * Hf i b) * y2 b))) by (intros; ring).
    rewrite <- Rsum_scal, H2 by exact Ha'. ring. }
  lra.
Qed.

(** Back substitution: an upper-triangular system whose diagonal has no
    zero has a solution. *)
Lemma back_substitution (j : nat) (f : nat -> nat -> R) :
  (forall i b, (b < i)%nat -> (i < j)%nat -> f i b = 0) ->
  (forall i, (i < j)%nat -> f i i <> 0) ->
  forall g : nat -> R,
  exists z : nat -> R,
    forall i, (i < j)%nat -> Rsum j (fun b => f i b * z b) = g i.
Proof.
  induction j as [|j IH]; intros Htri Hdiag g.
  - exists (fun _ => 0). intros i Hi. lia.
  - set (zj := g j / f j j).
    destruct (IH (fun i b Hb Hi => Htri i b Hb (Nat.lt_lt_succ_r _ _ Hi))
                 (fun i Hi => Hdiag i (Nat.lt_lt_succ_r _ _ Hi))
                 (fun i => g i - f i j * zj)) as [z Hz].
    exists (fun b => if (b =? j)%nat then zj else z b).
    intros i Hi. cbn [Rsum]. rewrite Nat.eqb_refl.
    rewrite (Rsum_ext j _ (fun b => f i b * z b)).
    2:{ intros b Hb. destruct (Nat.eqb_spec b j); [lia | reflexivity]. }
    destruct (Nat.eq_dec i j) as [->|Hne].
    + rewrite (Rsum_ext j _ (fun _ => 0)).
      2:{ intros b Hb. rewrite (Htri j b) by lia. ring. }
      rewrite Rsum_zero. unfold zj. field. apply Hdiag. lia.
    + rewrite Hz by lia. ring.
Qed.

(** An upper-triangular matrix with a trivial kernel has no zero on its
    diagonal. *)
Lemma triangular_diagonal_nonzero (m : nat) (f : nat -> nat -> R) :
  (forall i b, (b < i)%nat -> (i < m)%nat -> f i b = 0) ->
  (forall d : nat -> R,
     (forall i, (i < m)%nat -> Rsum m (fun b => f i b * d b) = 0) ->
     forall b, (b < m)%nat -> d b = 0) ->
  forall j, (j < m)%nat -> f j j <> 0.
Proof.
  intros Htri Hinj j. induction j as [j IHj] using lt_wf_ind. intros Hj Hzero.
  destruct (back_substitution j f) with (g := fun i => - f i j) as [z Hz].
  - intros i b Hb Hi. apply Htri; lia.
  - intros i Hi. apply IHj; lia.
  - set (d := fun b => if (b <? j)%nat then z b
                       else if (b =? j)%nat then 1 else 0).
    assert (Hd : d j = 0).
    { apply Hinj; [|exact Hj]. intros i Hi.
      replace m with (j + (1 + (m - j - 1)))%nat by lia.
      rewrite !Rsum_app. cbn [Rsum]. rewrite Nat.add_0_r.
      rewrite (Rsum_ext (m - j - 1) _ (fun _ => 0)).
      2:{ intros r Hr. unfold d.
          destruct (Nat.ltb_spec (j + (1 + r)) j); [lia|].
          destruct (Nat.eqb_spec (j + (1 + r)) j); [lia|]. ring. }
      rewrite Rsum_zero.
      rewrite (Rsum_ext j _ (fun b => f i b * z b)).
      2:{ intros b Hb. unfold d.
          destruct (Nat.ltb_spec b j); [reflexivity | lia]. }
      assert (Hdj : d j = 1).
      { unfold d. destruct (Nat.ltb_spec j j); [lia|].
        now rewrite Nat.eqb_refl. }
      rewrite Hdj.
      destruct (Nat.lt_trichotomy i j) as [Hlt|[->|Hgt]].
      - rewrite Hz by exact Hlt. ring.
      - rewrite (Rsum_ext j _ (fun _ => 0)).
        2:{ intros b Hb. rewrite (Htri j b) by lia. ring. }
        rewrite Rsum_zero, Hzero. ring.
      - rewrite (Rsum_ext j _ (fun _ => 0)).
        2:{ intros b Hb. rewrite (Htri i b) by lia. ring. }
        rewrite Rsum_zero, (Htri i j) by lia. ring. }
    unfold d in Hd. destruct (Nat.ltb_spec j j); [lia|].
    rewrite Nat.eqb_refl in Hd. lra.
Qed.

End LeastSquaresFacts.

(** ** The two strategies of [gmres] for the small problem *)

Section GmresSolveFacts.
Import NP Gmres.
Context {infodict extra : Type}.
Implicit Type h : handler infodict extra.

Definition upper_triangular (M : ndarray) : Prop :=
  forall n p i j, shape M = [n; p] ->
    (i < n)%nat -> (j < p)%nat -> (j < i)%nat -> em M i j = 0.

Definition upper_hessenberg (M : ndarray) : Prop :=
  forall n p, shape M = [n; p] -> hessenberg_entries n p (em M).

(** Only the zero vector is sent to zero. *)
Definition full_column_rank (M : ndarray) : Prop :=
  forall n m z, shape M = [n; m] -> wf z -> shape z = [m; 1%nat] ->
    matmul M z = Some (zeros [n; 1%nat]) -> z = zeros [m; 1%nat].

(** What [xnp.solve] returns solves the system. *)
Definition solve_returns_solution h : Prop :=
  forall M b y, h_answer h (solve M b) = Some y ->
    wf y /\ matmul M y = Some b.

(** [xnp.solvetri] with [lower=False] solves an upper-triangular system of
    order [m] whose diagonal has no zero. *)
Definition solvetri_back_substitutes h (m : nat) : Prop :=
  forall M b, shape M = [m; m] -> shape b = [m; 1%nat] -> wf b ->
    upper_triangular M -> (forall j, (j < m)%nat -> em M j j <> 0) ->
    exists y, h_answer h (solvetri M b false) = Some y
              /\ wf y /\ matmul M y = Some b.

(** The Hessenberg matrix in the answer of the Arnoldi routine. *)
Definition arnoldi_hessenberg h (use_householder : bool) (A res : ndarray)
    (max_iters : option Z) (tol : R) (pbar : bool) : option ndarray :=
  if use_householder then
    match h_answer h (run_householder_arnoldi A res max_iters) with
    | Some (_, H, _) => Some H
    | None => None
    end
  else
    match h_answer h (get_arnoldi_matrix A res max_iters tol pbar) with
    | Some (_, H, _, _) => Some H
    | None => None
    end.

(** The parts of [gmres]. *)
Definition arnoldi_part (use_householder : bool) (A res : ndarray)
    (max_iters : option Z) (tol : R) (pbar : bool)
    : prog infodict extra (ndarray * ndarray * infodict) :=
  if use_householder then
    perform (run_householder_arnoldi A res max_iters)
  else
    '(Q, H, _, infod) <--
      perform (get_arnoldi_matrix A res max_iters tol pbar) ;;
    Q <-- lift (drop_last_col Q) ;;
    Ret (Q, H, infod).

Definition krylov_rhs (res H : ndarray) : option ndarray :=
  match norm_axis_m2 res with
  | Some beta =>
    match shape H with
    | rows :: _ => update_row (zeros [rows; 1%nat]) beta 0
    | [] => None
    end
  | None => None
  end.

Definition small_solve (use_triangular use_householder : bool)
    (H e1 : ndarray) : prog infodict extra ndarray :=
  if use_triangular then
    '(R0, Gs) <-- lift (get_hessenberg_triangular_qr H) ;;
    target <-- lift (apply_givens_fwd Gs e1) ;;
    if use_householder then perform (solvetri R0 target false)
    else
      R1 <-- lift (drop_last_row R0) ;;
      target1 <-- lift (drop_last_row target) ;;
      perform (solvetri R1 target1 false)
  else
    HtH <-- lift (matmul (transpose H) H) ;;
    Hte1 <-- lift (matmul (transpose H) e1) ;;
    perform (solve HtH Hte1).

Definition solution (is_vector info : bool) (x0 Q y : ndarray)
    (infod : infodict) : option (ndarray * option infodict) :=
  match matmul Q y with
  | Some Qy =>
    match binop Rplus x0 Qy with
    | Some soln =>
      match (if is_vector then first_col soln else Some soln) with
      | Some soln => Some (soln, if info then Some infod else None)
      | None => None
      end
    | None => None
    end
  | None => None
  end.

Lemma gmres_run h (A rhs : ndarray) (x0 : option ndarray)
    (max_iters : option Z) (tol : R) (P : option ndarray)
    (use_householder use_triangular pbar info : bool) :
  run h (gmres A rhs x0 max_iters tol P use_householder use_triangular
           pbar info)
  = match initial_residual A rhs x0 with
    | Some (x0', res) =>
      match run h (arnoldi_part use_householder A res max_iters tol pbar) with
      | Some (Q, H, infod) =>
        match krylov_rhs res H with
        | Some e1 =>
          match run h (small_solve use_triangular use_householder H e1) with
          | Some y =>
            solution (length (shape rhs) =? 1)%nat info x0' Q y infod
          | None => None
          end
        | None => None
        end
      | None => None
      end
    | None => None
    end.
Proof.
  transitivity (run h (
    '(x0', res) <-- lift (initial_residual A rhs x0) ;;
    '(Q, H, infod) <--
      arnoldi_part use_householder A res max_iters tol pbar ;;
    beta <-- lift (norm_axis_m2 res) ;;
    rows <-- lift (match shape H with n :: _ => Some n | [] => None end) ;;
    e1 <-- lift (update_row (zeros [rows; 1%nat]) beta 0) ;;
    y <-- small_solve use_triangular use_householder H e1 ;;
    Qy <-- lift (matmul Q y) ;;
    soln <-- lift (binop Rplus x0' Qy) ;;
    soln <-- (if (length (shape rhs) =? 1)%nat
              then lift (first_col soln) else Ret soln) ;;
    Ret (soln, if info then Some infod else None))); [reflexivity|].
  unfold krylov_rhs, solution.
  rewrite run_bind, run_lift.
  destruct (initial_residual A rhs x0) as [[x0' res]|]; [|reflexivity].
  rewrite run_bind.
  destruct (run h (arnoldi_part use_householder A res max_iters tol pbar))
    as [[[Q H] infod]|]; [|reflexivity].
  rewrite run_bind, run_lift.
  destruct (norm_axis_m2 res) as [beta|]; [|reflexivity].
  rewrite run_bind, run_lift.
  destruct (shape H) as [|rows s']; [reflexivity|].
  rewrite run_bind, run_lift.
  destruct (update_row (zeros [rows; 1%nat]) beta 0) as [e1|]; [|reflexivity].
  rewrite run_bind.
  destruct (run h (small_solve use_triangular use_householder H e1))
    as [y|]; [|reflexivity].
  rewrite run_bind, run_lift.
  destruct (matmul Q y) as [Qy|]; [|reflexivity].
  rewrite run_bind, run_lift.
  destruct (binop Rplus x0' Qy) as [soln|]; [|reflexivity].
  rewrite run_bind.
  destruct (length (shape rhs) =? 1)%nat.
  - rewrite run_lift. destruct (first_col soln); reflexivity.
  - reflexivity.
Qed.

(** C6, amended: [gmres] has no early return.  Whenever the initial
    residual [res = rhs - A x0] is defined, whatever its norm and the
    tolerance, [gmres] calls the Arnoldi routine selected by
    [use_householder] on [res]; when the residual is not defined (the
    shapes do not conform) it raises.  What a run returns is [x0 + Q y]
    (its first column when [rhs] is a vector), where [Q] is the basis the
    Arnoldi routine answered (without its last column for
    [get_arnoldi_matrix]) and [y] is the answer of the backend solver to the
    small system built from the Hessenberg matrix [H] the routine answered
    and [e1 = beta e_1], [beta] the norm of the residual: [solve] on
    [H^T H] and [H^T e1], or [solvetri] on the Givens reduction of [H]
    and [e1]. *)
Theorem gmres_always_calls_arnoldi (A rhs : ndarray)
    (x0 : option ndarray) (max_iters : option Z) (tol : R)
    (P : option ndarray) (use_householder use_triangular pbar info : bool) :
  match initial_residual A rhs x0 with
  | Some (x0', res) =>
    (exists k,
       @gmres infodict extra A rhs x0 max_iters tol P use_householder
         use_triangular pbar info
       = Call (if use_householder
               then run_householder_arnoldi A res max_iters
               else get_arnoldi_matrix A res max_iters tol pbar) k)
    /\ forall h soln i,
         run h (gmres A rhs x0 max_iters tol P use_householder
                  use_triangular pbar info) = Some (soln, i) ->
         exists Q H infod beta rows e1 y Qy s,
           (if use_householder
            then h_answer h (run_householder_arnoldi A res max_iters)
                 = Some (Q, H, infod)
            else exists Q0 ex,
                h_answer h (get_arnoldi_matrix A res max_iters tol pbar)
                = Some (Q0, H, ex, infod)
                /\ drop_last_col Q0 = Some Q)
           /\ norm_axis_m2 res = Some beta
           /\ hd_error (shape H) = Some rows
           /\ update_row (zeros [rows; 1%nat]) beta 0 = Some e1
           /\ (if use_triangular then
                 exists R0 Gs target,
                   get_hessenberg_triangular_qr H = Some (R0, Gs)
                   /\ apply_givens_fwd Gs e1 = Some target
                   /\ (if use_householder
                       then h_answer h (solvetri R0 target false) = Some y
                       else exists R1 target1,
                           drop_last_row R0 = Some R1
                           /\ drop_last_row target = Some target1
                           /\ h_answer h (solvetri R1 target1 false)
                              = Some y)
               else
                 exists HtH Hte1,
                   matmul (transpose H) H = Some HtH
                   /\ matmul (transpose H) e1 = Some Hte1
                   /\ h_answer h (solve HtH Hte1) = Some y)
           /\ matmul Q y = Some Qy
           /\ binop Rplus x0' Qy = Some s
           /\ (if (length (shape rhs) =? 1)%nat then first_col s else Some s)
              = Some soln
           /\ i = (if info then Some infod else None)
  | None =>
    @gmres infodict extra A rhs x0 max_iters tol P use_householder
      use_triangular pbar info = Raise
  end.
Proof.
  destruct (initial_residual A rhs x0) as [[x0' res]|] eqn:Eres.
  2:{ unfold gmres. rewrite Eres. reflexivity. }
  split.
  { unfold gmres. rewrite Eres.
    destruct use_householder; cbn [lift bind perform]; eexists; reflexivity. }
  intros h soln i Hrun. rewrite gmres_run, Eres in Hrun.
  destruct (run h (arnoldi_part use_householder A res max_iters tol pbar))
    as [[[Q H] infod]|] eqn:Earn; [|discriminate].
  unfold krylov_rhs in Hrun.
  destruct (norm_axis_m2 res) as [beta|] eqn:Ebeta; [|discriminate].
  destruct (shape H) as [|rows s'] eqn:EsH; [discriminate|].
  destruct (update_row (zeros [rows; 1%nat]) beta 0) as [e1|] eqn:Ee1;
    [|discriminate].
  destruct (run h (small_solve use_triangular use_householder H e1))
    as [y|] eqn:Ey; [|discriminate].
  unfold solution in Hrun.
  destruct (matmul Q y) as [Qy|] eqn:EQy; [|discriminate].
  destruct (binop Rplus x0' Qy) as [s|] eqn:Es; [|discriminate].
  destruct (if (length (shape rhs) =? 1)%nat then first_col s else Some s)
    as [soln'|] eqn:Esoln; [|discriminate].
  injection Hrun as <- <-.
  exists Q, H, infod, beta, rows, e1, y, Qy, s.
  split.
  { unfold arnoldi_part in Earn. destruct use_householder.
    - etransitivity; [symmetry; apply run_perform | exact Earn].
    - rewrite run_bind in Earn.
      assert (Hp : run h (perform (get_arnoldi_matrix A res max_iters tol pbar))
                   = h_answer h (get_arnoldi_matrix A res max_iters tol pbar))
        by apply run_perform.
      destruct (h_answer h (get_arnoldi_matrix A res max_iters tol pbar))
        as [[[[Q0 H0] ex] infod0]|] eqn:Eans.
      2:{ rewrite Hp in Earn. discriminate. }
      rewrite Hp in Earn. cbv beta iota in Earn.
      rewrite run_bind, run_lift in Earn.
      destruct (drop_last_col Q0) as [Q1|] eqn:EQ1; [|discriminate].
      cbn [run] in Earn. injection Earn as <- <- <-.
      exists Q0, ex. split; [reflexivity | exact EQ1]. }
  split; [reflexivity|]. rewrite EsH.
  split; [reflexivity|]. split; [exact Ee1|].
  split.
  { unfold small_solve in Ey. destruct use_triangular.
    - rewrite run_bind, run_lift in Ey.
      destruct (get_hessenberg_triangular_qr H) as [[R0 Gs]|] eqn:Eqr;
        [|discriminate].
      cbv beta iota in Ey. rewrite run_bind, run_lift in Ey.
      destruct (apply_givens_fwd Gs e1) as [target|] eqn:Et; [|discriminate].
      exists R0, Gs, target. split; [first [reflexivity | exact Eqr]|]. split; [first [reflexivity | exact Et]|].
      destruct use_householder.
      + etransitivity; [symmetry; apply (run_perform h (solvetri R0 target false))
                       | exact Ey].
      + rewrite run_bind, run_lift in Ey.
        destruct (drop_last_row R0) as [R1|] eqn:ER1; [|discriminate].
        rewrite run_bind, run_lift in Ey.
        destruct (drop_last_row target) as [t1|] eqn:Et1; [|discriminate].
        exists R1, t1. split; [first [reflexivity | exact ER1]|]. split; [first [reflexivity | exact Et1]|].
        etransitivity; [symmetry; apply (run_perform h (solvetri R1 t1 false))
                       | exact Ey].
    - rewrite run_bind, run_lift in Ey.
      destruct (matmul (transpose H) H) as [HtH|] eqn:EHtH; [|discriminate].
      rewrite run_bind, run_lift in Ey.
      destruct (matmul (transpose H) e1) as [Hte1|] eqn:EHte; [|discriminate].
      exists HtH, Hte1. split; [first [reflexivity | exact EHtH]|]. split; [first [reflexivity | exact EHte]|].
      etransitivity; [symmetry; apply (run_perform h (solve HtH Hte1))
                     | exact Ey]. }
  repeat split; assumption.
Qed.

Lemma matmul_inv (a b c : ndarray) (m n : nat) :
  matmul a b = Some c -> shape a = [m; n] ->
  exists p,
    shape b = [n; p] /\ shape c = [m; p]
    /\ forall i j, (i < m)%nat -> (j < p)%nat ->
         em c i j = Rsum n (fun k => em a i k * em b k j).
Proof.
  intros Hmm Ha. unfold matmul in Hmm. rewrite Ha in Hmm.
  destruct (shape b) as [|n' [|p [|]]] eqn:Hb; try discriminate.
  destruct (Nat.eqb_spec n n') as [<-|]; [|discriminate].
  injection Hmm as <-. exists p.
  split; [reflexivity|]. split; [reflexivity|].
  intros i j Hi Hj. rewrite em_of_fun by assumption. reflexivity.
Qed.

Lemma drop_last_row_spec (a : ndarray) (n p : nat) :
  shape a = [S n; p] -> wf a ->
  exists a',
    drop_last_row a = Some a' /\ shape a' = [n; p] /\ wf a'
    /\ forall i j, (i < n)%nat -> (j < p)%nat -> em a' i j = em a i j.
Proof.
  intros Ha Hwf. unfold drop_last_row. rewrite Ha.
  replace (S n - 1)%nat with n by lia.
  eexists. split; [reflexivity|]. split; [reflexivity|].
  unfold wf in *. rewrite Ha in Hwf. cbn [shape data size fold_right] in *.
  split.
  - rewrite length_firstn, Hwf. lia.
  - intros i j Hi Hj. destruct a as [sa da]. cbn [shape data] in *.
    subst sa. unfold em. rewrite !get_flat_2d.
    rewrite nth_firstn.
    destruct (Nat.ltb_spec (i * p + j) (n * (p * 1))); [reflexivity | nia].
Qed.

Lemma update_row_shape (a vals a' : ndarray) (i : nat) :
  update_row a vals i = Some a' -> shape a' = shape a /\ wf a'.
Proof.
  unfold update_row. destruct (shape a) as [|n s'] eqn:Ha; [discriminate|].
  destruct (i <? n)%nat; [|discriminate].
  destruct (broadcast_shapes (shape vals) s') as [s|]; [|discriminate].
  destruct (shape_eqb s s'); [|discriminate].
  intros H. injection H as <-. split; [reflexivity | apply of_fun_wf].
Qed.

Lemma em_zeros (n p i j : nat) :
  (i < n)%nat -> (j < p)%nat -> em (zeros [n; p]) i j = 0.
Proof. intros Hi Hj. unfold zeros. now rewrite em_of_fun. Qed.

Lemma full_column_rank_independent (H : ndarray) (n m : nat) :
  shape H = [n; m] -> full_column_rank H ->
  independent_columns n m (em H).
Proof.
  intros HH Hrank d Hd a Ha.
  set (z := of_fun [m; 1%nat] (fun idx => d (nth 0 idx 0%nat))).
  destruct (matmul_spec H z n m 1 HH eq_refl) as (c & Hmm & Hsc & Hwc & Hec).
  assert (Hc : c = zeros [n; 1%nat]).
  { apply (matrix_ext n 1); try assumption;
      [apply of_fun_wf | reflexivity |].
    intros i j Hi Hj. rewrite Hec, em_zeros by assumption.
    rewrite <- (Hd i Hi). apply Rsum_ext. intros k Hk.
    unfold z. rewrite em_of_fun by lia. reflexivity. }
  rewrite Hc in Hmm.
  pose proof (Hrank n m z HH (of_fun_wf _ _) eq_refl Hmm) as Hz.
  assert (E : em z a 0 = d a) by (unfold z; now rewrite em_of_fun by lia).
  rewrite <- E, Hz. apply em_zeros; lia.
Qed.

(** The Givens reduction of a Hessenberg matrix with at most one row more
    than columns: [R] is upper triangular and there is one rotation for
    each row but the last; replayed on [e1], the rotations keep the
    products with the columns. *)
Lemma hessenberg_qr_reduction (H e1 : ndarray) (n m : nat) :
  wf H -> shape H = [n; m] -> (n <= S m)%nat -> upper_hessenberg H ->
  wf e1 -> shape e1 = [n; 1%nat] ->
  exists R0 Gs target,
    get_hessenberg_triangular_qr H = Some (R0, Gs)
    /\ apply_givens_fwd Gs e1 = Some target
    /\ length Gs = (n - 1)%nat
    /\ shape R0 = [n; m] /\ wf R0 /\ upper_triangular R0
    /\ shape target = [n; 1%nat] /\ wf target
    /\ (forall a b, (a < m)%nat -> (b < m)%nat ->
          Rsum n (fun i => em R0 i a * em R0 i b)
          = Rsum n (fun i => em H i a * em H i b))
    /\ (forall a, (a < m)%nat ->
          Rsum n (fun i => em R0 i a * em target i 0)
          = Rsum n (fun i => em H i a * em e1 i 0)).
Proof.
  intros HwH HsH Hnm Hhess Hwe Hse.
  destruct (hessenberg_qr_loop_spec (n - 1) 0 H [] n m HsH HwH)
    as (R0 & cs & Hloop & Hlen & Hcs & HsR & HwR & HeR & HhR & HsubR);
    try lia.
  { apply Hhess. exact HsH. }
  { intros j Hj. lia. }
  destruct (apply_givens_loop_spec cs 0 e1 n 1 Hse Hwe)
    as (target & Happ & Hst & Hwt & Het); [lia|].
  exists R0, (map (fun cs => givens_matrix (fst cs) (snd cs)) cs), target.
  split.
  { unfold get_hessenberg_triangular_qr. rewrite HsH. exact Hloop. }
  split; [exact Happ|].
  split; [now rewrite length_map|].
  split; [exact HsR|]. split; [exact HwR|].
  split.
  { intros n' p' i j Hs' Hi Hj Hji. rewrite HsR in Hs'.
    injection Hs' as <- <-.
    destruct (Nat.eq_dec (S j) i) as [<-|Hne].
    - apply HsubR; lia.
    - apply HhR; lia. }
  split; [exact Hst|]. split; [exact Hwt|].
  split.
  - intros a b Ha Hb.
    rewrite (Rsum_ext n _ (fun i =>
      rotate_all cs 0 (em H) i a * rotate_all cs 0 (em H) i b))
      by (intros i Hi; now rewrite !HeR by assumption).
    apply rotate_all_gram; [exact Hcs | lia].
  - intros a Ha.
    rewrite (Rsum_ext n _ (fun i =>
      rotate_all cs 0 (em H) i a * rotate_all cs 0 (em e1) i 0))
      by (intros i Hi; rewrite HeR, Het by (assumption || lia); reflexivity).
    apply rotate_all_gram; [exact Hcs | lia].
Qed.

(** The system given to [xnp.solvetri]. *)
Lemma triangular_system (use_householder : bool) (R0 target : ndarray)
    (m : nat) :
  let n := if use_householder then m else S m in
  shape R0 = [n; m] -> wf R0 -> shape target = [n; 1%nat] -> wf target ->
  exists R1 t1,
    (if use_householder then Some R0 else drop_last_row R0) = Some R1
    /\ (if use_householder then Some target else drop_last_row target)
       = Some t1
    /\ shape R1 = [m; m] /\ wf R1 /\ shape t1 = [m; 1%nat] /\ wf t1
    /\ (forall i j, (i < m)%nat -> (j < m)%nat -> em R1 i j = em R0 i j)
    /\ (forall i, (i < m)%nat -> em t1 i 0 = em target i 0).
Proof.
  destruct use_householder; cbv zeta; intros HsR HwR Hst Hwt.
  - exists R0, target. repeat split; auto.
  - destruct (drop_last_row_spec R0 m m HsR HwR) as (R1 & E1 & Hs1 & Hw1 & He1).
    destruct (drop_last_row_spec target m 1 Hst Hwt)
      as (t1 & E2 & Hs2 & Hw2 & He2).
    exists R1, t1. repeat split; auto.
Qed.

Lemma small_solve_agrees h (use_householder : bool) (H e1 yn : ndarray)
    (m : nat) :
  wf H -> shape H = [if use_householder then m else S m; m] ->
  upper_hessenberg H -> full_column_rank H ->
  wf e1 -> shape e1 = [if use_householder then m else S m; 1%nat] ->
  solve_returns_solution h -> solvetri_back_substitutes h m ->
  run h (small_solve false use_householder H e1) = Some yn ->
  run h (small_solve true use_householder H e1) = Some yn.
Proof.
  intros HwH HsH Hhess Hrank Hwe Hse Hsolve Htri Hn.
  set (n := if use_householder then m else S m) in *.
  assert (Hnm : (m <= n /\ n <= S m)%nat)
    by (unfold n; destruct use_householder; lia).
  destruct (hessenberg_qr_reduction H e1 n m HwH HsH (proj2 Hnm) Hhess Hwe Hse)
    as (R0 & Gs & target & Hqr & Happ & _ & HsR & HwR & HtR & Hst & Hwt
        & Hgram & Hrhs).
  destruct (triangular_system use_householder R0 target m HsR HwR Hst Hwt)
    as (R1 & t1 & ER1 & Et1 & Hs1 & Hw1 & Hst1 & Hwt1 & He1 & Het1).
  pose proof (full_column_rank_independent H n m HsH Hrank) as Hind.
  assert (Hzero : forall i a, (m <= i)%nat -> (i < n)%nat -> (a < m)%nat ->
            em R0 i a = 0).
  { intros i a H1 H2 H3. apply (HtR n m); try assumption; lia. }
  assert (Htri1 : upper_triangular R1).
  { intros n' p' i j Hs' Hi Hj Hji. rewrite Hs1 in Hs'.
    injection Hs' as <- <-. rewrite He1 by lia.
    apply (HtR n m); try assumption; lia. }
  assert (Hinj : forall d : nat -> R,
            (forall i, (i < m)%nat -> Rsum m (fun b => em R1 i b * d b) = 0) ->
            forall b, (b < m)%nat -> d b = 0).
  { intros d Hd. apply Hind. apply gram_kernel. intros a Ha.
    rewrite (normal_equations_of_triangular n m (em H) (em R0)
               (fun _ => 0) (fun _ => 0) d); try tauto.
    - apply Rsum_all_zero. intros; ring.
    - intros a' Ha'. rewrite !Rsum_all_zero by (intros; ring). reflexivity.
    - intros i Hi. rewrite <- (Hd i Hi). apply Rsum_ext.
      intros b Hb. now rewrite He1. }
  assert (Hdiag : forall j, (j < m)%nat -> em R1 j j <> 0).
  { apply triangular_diagonal_nonzero; [|exact Hinj].
    intros i b Hb Hi. apply (Htri1 m m); auto; lia. }
  destruct (Htri R1 t1 Hs1 Hst1 Hwt1 Htri1 Hdiag)
    as (yt & Hans & Hwy & Hmy).
  (* the normal equations *)
  destruct (transpose_spec H n m HsH) as (HsT & _ & HeT).
  destruct (matmul_spec (transpose H) H m n m HsT HsH)
    as (HtH & EHtH & HsG & _ & HeG).
  destruct (matmul_spec (transpose H) e1 m n 1 HsT Hse)
    as (Hte & EHte & HsE & _ & HeE).
  unfold small_solve in Hn.
  rewrite run_bind, run_lift, EHtH in Hn. cbv beta iota in Hn.
  rewrite run_bind, run_lift, EHte in Hn. cbv beta iota in Hn.
  assert (Hn' : h_answer h (solve HtH Hte) = Some yn).
  { rewrite <- Hn. symmetry. apply (run_perform h (solve HtH Hte)). }
  destruct (Hsolve _ _ _ Hn') as [Hwn Hmn].
  destruct (matmul_inv _ _ _ m m Hmn HsG) as (p & Hsn & HsE' & Hen).
  rewrite HsE in HsE'. injection HsE' as <-.
  destruct (matmul_inv _ _ _ m m Hmy Hs1) as (p & Hsy & Hst1' & Hey).
  rewrite Hst1 in Hst1'. injection Hst1' as <-.
  assert (Heq : yt = yn).
  { apply (matrix_ext m 1); try assumption.
    intros a j Ha Hj. replace j with 0%nat by lia.
    apply (normal_equations_unique n m (em H)
             (fun a => Rsum n (fun i => em H i a * em e1 i 0))
             (fun b => em yt b 0) (fun b => em yn b 0) Hind); [| |exact Ha].
    - apply (normal_equations_of_triangular n m (em H) (em R0)
               (fun i => em e1 i 0) (fun i => em target i 0));
        try tauto.
      intros i Hi. rewrite <- Het1, Hey by lia.
      apply Rsum_ext. intros b Hb. now rewrite He1.
    - intros a' Ha'.
      transitivity (em Hte a' 0).
      + rewrite Hen by lia. apply Rsum_ext. intros b Hb.
        rewrite HeG by assumption. f_equal.
        apply Rsum_ext. intros i Hi. now rewrite HeT.
      + rewrite HeE by lia. apply Rsum_ext. intros i Hi. now rewrite HeT. }
  subst yn.
  unfold small_solve.
  rewrite run_bind, run_lift, Hqr. cbv beta iota.
  rewrite run_bind, run_lift, Happ. cbv beta iota.
  destruct use_householder.
  - injection ER1 as ->. injection Et1 as ->.
    etransitivity; [apply (run_perform h (solvetri R1 t1 false)) | exact Hans].
  - rewrite run_bind, run_lift, ER1. cbv beta iota.
    rewrite run_bind, run_lift, Et1. cbv beta iota.
    etransitivity; [apply (run_perform h (solvetri R1 t1 false)) | exact Hans].
Qed.

Lemma arnoldi_part_hessenberg h (use_householder : bool) (A res : ndarray)
    (max_iters : option Z) (tol : R) (pbar : bool) (Q H : ndarray)
    (infod : infodict) :
  run h (arnoldi_part use_householder A res max_iters tol pbar)
  = Some (Q, H, infod) ->
  arnoldi_hessenberg h use_householder A res max_iters tol pbar = Some H.
Proof.
  unfold arnoldi_part, arnoldi_hessenberg. destruct use_householder.
  - intros Hrun.
    assert (E : h_answer h (run_householder_arnoldi A res max_iters)
                = Some (Q, H, infod)).
    { rewrite <- Hrun. symmetry.
      apply (run_perform h (run_householder_arnoldi A res max_iters)). }
    now rewrite E.
  - rewrite run_bind.
    assert (E : run h (perform (get_arnoldi_matrix A res max_iters tol pbar))
                = h_answer h (get_arnoldi_matrix A res max_iters tol pbar))
      by apply (run_perform h (get_arnoldi_matrix A res max_iters tol pbar)).
    rewrite E.
    destruct (h_answer h (get_arnoldi_matrix A res max_iters tol pbar))
      as [[[[Q' H'] x] i]|]; [|discriminate].
    rewrite run_bind, run_lift.
    destruct (drop_last_col Q'); [|discriminate].
    cbn [run]. intros Hrun. now injection Hrun as _ -> _.
Qed.

Lemma krylov_rhs_shape (res H e1 : ndarray) (n m : nat) :
  shape H = [n; m] -> krylov_rhs res H = Some e1 ->
  shape e1 = [n; 1%nat] /\ wf e1.
Proof.
  intros HH. unfold krylov_rhs. rewrite HH.
  destruct (norm_axis_m2 res) as [beta|]; [|discriminate].
  intros E. now destruct (update_row_shape _ _ _ _ E).
Qed.

(** X4. With a Hessenberg matrix [H] of full column rank in the answer of
    the Arnoldi routine ([m + 1] by [m], or [m] by [m] under
    [use_householder]), a backend whose [solve] returns solutions and whose
    [solvetri] back-substitutes, the run of [gmres] with
    [use_triangular = True] returns what the run with
    [use_triangular = False] returns. *)
Theorem gmres_triangular_matches_normal_equations h (A rhs : ndarray)
    (x0 : option ndarray) (max_iters : option Z) (tol : R)
    (P : option ndarray) (use_householder pbar info : bool)
    (x0' res H : ndarray) (m : nat) (out : ndarray * option infodict) :
  initial_residual A rhs x0 = Some (x0', res) ->
  arnoldi_hessenberg h use_householder A res max_iters tol pbar = Some H ->
  wf H -> shape H = [if use_householder then m else S m; m] ->
  upper_hessenberg H -> full_column_rank H ->
  solve_returns_solution h -> solvetri_back_substitutes h m ->
  run h (gmres A rhs x0 max_iters tol P use_householder false pbar info)
  = Some out ->
  run h (gmres A rhs x0 max_iters tol P use_householder true pbar info)
  = Some out.
Proof.
  intros Hres Harn HwH HsH Hhess Hrank Hsolve Htri.
  rewrite !gmres_run, Hres.
  destruct (run h (arnoldi_part use_householder A res max_iters tol pbar))
    as [[[Q H'] infod]|] eqn:Epart; [|discriminate].
  apply arnoldi_part_hessenberg in Epart. rewrite Harn in Epart.
  injection Epart as <-.
  destruct (krylov_rhs res H) as [e1|] eqn:Ee1; [|discriminate].
  destruct (krylov_rhs_shape _ _ _ _ _ HsH Ee1) as [Hse Hwe].
  destruct (run h (small_solve false use_householder H e1)) as [yn|] eqn:En;
    [|discriminate].
  rewrite (small_solve_agrees h use_householder H e1 yn m); auto.
Qed.

End GmresSolveFacts.

(** ** The two strategies of [gmres] for the small least-squares problem *)

Section GmresStrategyFacts.
Import NP Gmres.
Context {infodict extra : Type}.



End GmresStrategyFacts.
(** ** A backend for systems of order two *)

Section OrderTwoBackend.
Import NP Gmres.

(** [xnp.solve] on a system of order two with one right-hand side, by
    Cramer's rule, when the determinant is not zero. *)
Definition solve_order_two (M b : ndarray) : option ndarray :=
  let m00 := get M [0%nat; 0%nat] in
  let m01 := get M [0%nat; 1%nat] in
  let m10 := get M [1%nat; 0%nat] in
  let m11 := get M [1%nat; 1%nat] in
  let b0 := get b [0%nat; 0%nat] in
  let b1 := get b [1%nat; 0%nat] in
  let det := m00 * m11 - m01 * m10 in
  if shape_eqb (shape M) [2%nat; 2%nat] && shape_eqb (shape b) [2%nat; 1%nat]
     && (length (data b) =? 2)%nat && negb (Reqb det 0)
  then Some (mk_ndarray [2%nat; 1%nat]
               [(b0 * m11 - m01 * b1) / det; (m00 * b1 - m10 * b0) / det])
  else None.

(** [xnp.solvetri] with [lower=False] on a system of order two: back
    substitution, which reads the upper triangle only. *)
Definition solvetri_order_two (M b : ndarray) : option ndarray :=
  let m00 := get M [0%nat; 0%nat] in
  let m01 := get M [0%nat; 1%nat] in
  let m11 := get M [1%nat; 1%nat] in
  let b0 := get b [0%nat; 0%nat] in
  let b1 := get b [1%nat; 0%nat] in
  if shape_eqb (shape M) [2%nat; 2%nat] && shape_eqb (shape b) [2%nat; 1%nat]
     && (length (data b) =? 2)%nat
     && negb (Reqb m00 0) && negb (Reqb m11 0)
  then let y1 := b1 / m11 in
       Some (mk_ndarray [2%nat; 1%nat] [(b0 - m01 * y1) / m00; y1])
  else None.

(** Answers [Q], [H] to the Arnoldi routines and solves systems of order
    two. *)
Definition order_two_handler (Q H : ndarray) : handler unit unit :=
  mk_handler unit unit
    (fun c =>
       match c return option (answer unit unit c) with
       | run_householder_arnoldi _ _ _ => Some (Q, H, tt)
       | get_arnoldi_matrix _ _ _ _ _ => Some (Q, H, tt, tt)
       | solve M b => solve_order_two M b
       | solvetri M b _ => solvetri_order_two M b
       end).

Lemma shape_eqb_true (s1 s2 : list nat) : shape_eqb s1 s2 = true -> s1 = s2.
Proof.
  revert s2; induction s1 as [|d s1 IH]; intros [|e s2] H; simpl in H;
    try discriminate; [reflexivity|].
  apply andb_prop in H as [Hd Hs]. apply Nat.eqb_eq in Hd.
  f_equal; [exact Hd | now apply IH].
Qed.

Lemma column_of_order_two (b : ndarray) :
  shape b = [2%nat; 1%nat] -> length (data b) = 2%nat ->
  b = mk_ndarray [2%nat; 1%nat] [get b [0%nat; 0%nat]; get b [1%nat; 0%nat]].
Proof.
  intros Hs Hl. destruct b as [sb db]. cbn [shape data] in *. subst sb.
  destruct db as [|c0 [|c1 [|? ?]]]; try discriminate. reflexivity.
Qed.

Lemma matmul_order_two (M : ndarray) (y0 y1 : R) :
  shape M = [2%nat; 2%nat] ->
  matmul M (mk_ndarray [2%nat; 1%nat] [y0; y1])
  = Some (mk_ndarray [2%nat; 1%nat]
            [0 + get M [0%nat; 0%nat] * y0 + get M [0%nat; 1%nat] * y1;
             0 + get M [1%nat; 0%nat] * y0 + get M [1%nat; 1%nat] * y1]).
Proof.
  intros HM. unfold matmul. rewrite HM. cbn [shape Nat.eqb]. reflexivity.
Qed.

Lemma solve_order_two_spec (M b y : ndarray) :
  solve_order_two M b = Some y -> wf y /\ matmul M y = Some b.
Proof.
  unfold solve_order_two. cbv zeta.
  destruct (shape_eqb (shape M) [2%nat; 2%nat]) eqn:EM; [|discriminate].
  destruct (shape_eqb (shape b) [2%nat; 1%nat]) eqn:Eb; [|discriminate].
  destruct (length (data b) =? 2)%nat eqn:El; [|discriminate].
  destruct (Reqb _ 0) eqn:Ez; [discriminate|].
  cbn [andb negb]. intros E. injection E as <-.
  apply shape_eqb_true in EM, Eb. apply Nat.eqb_eq in El.
  apply Reqb_false in Ez.
  split; [reflexivity|].
  rewrite (matmul_order_two M _ _ EM).
  transitivity (Some (mk_ndarray [2%nat; 1%nat]
                        [get b [0%nat; 0%nat]; get b [1%nat; 0%nat]]));
    [|f_equal; symmetry; now apply column_of_order_two].
  match goal with
  | |- Some (mk_ndarray _ [?a; ?c]) = Some (mk_ndarray _ [?a'; ?c']) =>
    replace a with a' by (field; exact Ez);
    replace c with c' by (field; exact Ez)
  end.
  reflexivity.
Qed.

Lemma solvetri_order_two_spec (M b : ndarray) :
  shape M = [2%nat; 2%nat] -> shape b = [2%nat; 1%nat] -> wf b ->
  upper_triangular M -> (forall j, (j < 2)%nat -> em M j j <> 0) ->
  exists y, solvetri_order_two M b = Some y /\ wf y /\ matmul M y = Some b.
Proof.
  intros HM Hb Hwb Htri Hdiag.
  assert (Hl : length (data b) = 2%nat).
  { unfold wf in Hwb. rewrite Hb in Hwb. exact Hwb. }
  pose proof (Hdiag 0%nat ltac:(lia)) as H00.
  pose proof (Hdiag 1%nat ltac:(lia)) as H11.
  assert (H10 : get M [1%nat; 0%nat] = 0).
  { apply (Htri 2%nat 2%nat 1%nat 0%nat HM); lia. }
  unfold em in H00, H11.
  unfold solvetri_order_two. cbv zeta. rewrite HM, Hb, Hl.
  cbn [shape_eqb Nat.eqb andb].
  replace (Reqb (get M [0%nat; 0%nat]) 0) with false
    by (symmetry; now apply Reqb_false).
  replace (Reqb (get M [1%nat; 1%nat]) 0) with false
    by (symmetry; now apply Reqb_false).
  cbn [negb andb]. eexists. split; [reflexivity|]. split; [reflexivity|].
  rewrite (matmul_order_two M _ _ HM).
  transitivity (Some (mk_ndarray [2%nat; 1%nat]
                        [get b [0%nat; 0%nat]; get b [1%nat; 0%nat]]));
    [|f_equal; symmetry; now apply column_of_order_two].
  rewrite H10.
  match goal with
  | |- Some (mk_ndarray _ [?a; ?c]) = Some (mk_ndarray _ [?a'; ?c']) =>
    replace a with a' by (field; repeat split; assumption);
    replace c with c' by (field; repeat split; assumption)
  end.
  reflexivity.
Qed.

Lemma order_two_handler_solve (Q H : ndarray) :
  solve_returns_solution (order_two_handler Q H).
Proof. intros M b y E. apply (solve_order_two_spec M b y E). Qed.

Lemma order_two_handler_solvetri (Q H : ndarray) :
  solvetri_back_substitutes (order_two_handler Q H) 2.
Proof. intros M b HM Hb Hwb Htri Hdiag. now apply solvetri_order_two_spec. Qed.


(** The Arnoldi factorisation of the symmetric tridiagonal matrix with
    ones on its three diagonals, of order three, from the first unit
    vector and after two steps: [Q] is the identity and [H] is the matrix
    below, whose two sub-diagonal entries are not zero. *)
Definition krylov_H : ndarray :=
  mk_ndarray [3%nat; 2%nat] [1; 1; 1; 1; 0; 1].

Definition krylov_Q : ndarray :=
  mk_ndarray [3%nat; 3%nat] [1; 0; 0; 0; 1; 0; 0; 0; 1].

Definition krylov_A : ndarray :=
  mk_ndarray [3%nat; 3%nat] [1; 1; 0; 1; 1; 1; 0; 1; 1].

Lemma krylov_H_hessenberg : upper_hessenberg krylov_H.
Proof.
  intros n p Hs i j Hi Hj Hij. injection Hs as <- <-.
  assert (i = 2%nat) as -> by lia. assert (j = 0%nat) as -> by lia.
  reflexivity.
Qed.

Lemma krylov_H_full_rank : full_column_rank krylov_H.
Proof.
  intros n m z Hs Hwz Hsz Hmm. injection Hs as <- <-.
  destruct z as [sz dz]. cbn [shape data] in *. subst sz.
  unfold wf in Hwz. cbn in Hwz.
  destruct dz as [|z0 [|z1 [|? ?]]]; try discriminate.
  unfold matmul in Hmm. cbn [shape Nat.eqb krylov_H] in Hmm.
  injection Hmm as E0 E1 E2.
  cbv -[Rplus Rmult Rminus Rdiv Ropp Rinv IZR sqrt Reqb] in E0, E1, E2.
  cbv -[Rplus Rmult Rminus Rdiv Ropp Rinv IZR sqrt Reqb].
  do 2 f_equal; [lra | f_equal; lra].
Qed.

Lemma gmres_triangular_matches_normal_equations_witness :
  exists out,
    run (order_two_handler krylov_Q krylov_H)
      (gmres krylov_A (mk_ndarray [3%nat] [1; 0; 0])
         None (Some 2%Z) (1 / 10000000) None false false false false)
    = Some out
    /\ run (order_two_handler krylov_Q krylov_H)
         (gmres krylov_A (mk_ndarray [3%nat] [1; 0; 0])
            None (Some 2%Z) (1 / 10000000) None false true false false)
       = Some out.
Proof.
  assert (Hrun : exists out,
    run (order_two_handler krylov_Q krylov_H)
      (gmres krylov_A (mk_ndarray [3%nat] [1; 0; 0])
         None (Some 2%Z) (1 / 10000000) None false false false false)
    = Some out).
  { rewrite gmres_run.
    cbv -[Rplus Rmult Rminus Rdiv Ropp Rinv IZR sqrt Reqb].
    match goal with
    | |- context [Reqb ?e 0] =>
      replace (Reqb e 0) with false by (symmetry; apply Reqb_false; lra)
    end.
    cbv -[Rplus Rmult Rminus Rdiv Ropp Rinv IZR sqrt Reqb].
    eexists. reflexivity. }
  destruct Hrun as [out Hrun]. exists out. split; [exact Hrun|].
  eapply (gmres_triangular_matches_normal_equations
            (order_two_handler krylov_Q krylov_H)
            krylov_A (mk_ndarray [3%nat] [1; 0; 0])
            None (Some 2%Z) (1 / 10000000) None false false false
            _ _ krylov_H 2).
  - reflexivity.
  - reflexivity.
  - reflexivity.
  - reflexivity.
  - apply krylov_H_hessenberg.
  - apply krylov_H_full_rank.
  - apply order_two_handler_solve.
  - apply order_two_handler_solvetri.
  - exact Hrun.
Defined.


End OrderTwoBackend.

(** ** Further facts on the Givens reduction of [gmres] *)

Section GivensTheorems.
Import NP Gmres.

(** X1. The pair [(c, s)] of [get_givens_cos_sin(a, b)] is a rotation:
    [c^2 + s^2 = 1], and [[c, s], [-s, c]]^T] sends [(a, b)] to [(r, 0)],
    where [r = a] when [b == 0] and [r = sqrt(a^2 + b^2)] otherwise. *)
Theorem get_givens_cos_sin_rotates (a b : R) :
  let '(c, s) := get_givens_cos_sin a b in
  c * c + s * s = 1
  /\ s * a + c * b = 0
  /\ c * a - s * b = if Reqb b 0 then a else sqrt (a ^ 2 + b ^ 2).
Proof.
  pose proof (get_givens_cos_sin_spec a b) as Hspec.
  unfold get_givens_cos_sin in *. destruct (Reqb b 0) eqn:E.
  - destruct Hspec as [H1 H2]. repeat split; try assumption. ring.
  - destruct Hspec as [H1 H2]. repeat split; try assumption.
    apply Reqb_false in E.
    assert (Hpos : 0 < a ^ 2 + b ^ 2) by nra.
    pose proof (sqrt_lt_R0 _ Hpos) as Hd.
    pose proof (sqrt_sqrt (a ^ 2 + b ^ 2) (Rlt_le _ _ Hpos)) as Hsq.
    set (d := sqrt (a ^ 2 + b ^ 2)) in *.
    replace (a / d * a - - b / d * b) with ((a ^ 2 + b ^ 2) / d)
      by (field; lra).
    rewrite <- Hsq. field. lra.
Qed.

(** X2. On an upper Hessenberg matrix [H] with at most one row more than
    columns, [get_hessenberg_triangular_qr] returns an upper-triangular [R]
    of the shape of [H] and one rotation for each row but the last, and [R]
    has the column products of [H]: [R^T R = H^T H]. *)
Theorem get_hessenberg_triangular_qr_triangular (H : ndarray) (n m : nat) :
  wf H -> shape H = [n; m] -> (n <= S m)%nat -> upper_hessenberg H ->
  exists R0 Gs,
    get_hessenberg_triangular_qr H = Some (R0, Gs)
    /\ length Gs = (n - 1)%nat
    /\ shape R0 = [n; m] /\ wf R0
    /\ upper_triangular R0
    /\ forall a b, (a < m)%nat -> (b < m)%nat ->
         Rsum n (fun i => em R0 i a * em R0 i b)
         = Rsum n (fun i => em H i a * em H i b).
Proof.
  intros HwH HsH Hnm Hhess.
  destruct (hessenberg_qr_reduction H (zeros [n; 1%nat]) n m HwH HsH Hnm Hhess
              (of_fun_wf _ _) eq_refl)
    as (R0 & Gs & target & Hqr & _ & Hlen & HsR & HwR & HtR & _ & _
        & Hgram & _).
  exists R0, Gs. repeat split; assumption.
Qed.

Lemma get_hessenberg_triangular_qr_triangular_witness :
  exists R0 Gs,
    get_hessenberg_triangular_qr (mk_ndarray [2%nat; 1%nat] [3; 4])
    = Some (R0, Gs)
    /\ length Gs = (2 - 1)%nat
    /\ shape R0 = [2%nat; 1%nat] /\ wf R0
    /\ upper_triangular R0
    /\ forall a b, (a < 1)%nat -> (b < 1)%nat ->
         Rsum 2 (fun i => em R0 i a * em R0 i b)
         = Rsum 2 (fun i => em (mk_ndarray [2%nat; 1%nat] [3; 4]) i a
                            * em (mk_ndarray [2%nat; 1%nat] [3; 4]) i b).
Proof.
  apply (get_hessenberg_triangular_qr_triangular
           (mk_ndarray [2%nat; 1%nat] [3; 4]) 2 1).
  - reflexivity.
  - reflexivity.
  - lia.
  - intros n p Hs i j Hi Hj Hij. injection Hs as <- <-. lia.
Defined.

(** X3. [apply_givens_fwd] replays the rotations recorded by
    [get_hessenberg_triangular_qr] on a column [e1] of as many rows as [H]:
    the result [target] has the shape of [e1] and
    [R^T target = H^T e1]. *)
Theorem apply_givens_fwd_replays (H e1 R0 : ndarray) (Gs : list ndarray)
    (n m : nat) :
  wf H -> shape H = [n; m] -> (n <= S m)%nat -> upper_hessenberg H ->
  wf e1 -> shape e1 = [n; 1%nat] ->
  get_hessenberg_triangular_qr H = Some (R0, Gs) ->
  exists target,
    apply_givens_fwd Gs e1 = Some target
    /\ shape target = [n; 1%nat] /\ wf target
    /\ forall a, (a < m)%nat ->
         Rsum n (fun i => em R0 i a * em target i 0)
         = Rsum n (fun i => em H i a * em e1 i 0).
Proof.
  intros HwH HsH Hnm Hhess Hwe Hse Hqr.
  destruct (hessenberg_qr_reduction H e1 n m HwH HsH Hnm Hhess Hwe Hse)
    as (R0' & Gs' & target & Hqr' & Happ & _ & _ & _ & _ & Hst & Hwt
        & _ & Hrhs).
  rewrite Hqr in Hqr'. injection Hqr' as <- <-.
  exists target. repeat split; assumption.
Qed.

Lemma apply_givens_fwd_replays_witness :
  exists R0 Gs target,
    get_hessenberg_triangular_qr (mk_ndarray [2%nat; 1%nat] [3; 4])
    = Some (R0, Gs)
    /\ apply_givens_fwd Gs (mk_ndarray [2%nat; 1%nat] [1; 0]) = Some target
    /\ shape target = [2%nat; 1%nat] /\ wf target
    /\ forall a, (a < 1)%nat ->
         Rsum 2 (fun i => em R0 i a * em target i 0)
         = Rsum 2 (fun i => em (mk_ndarray [2%nat; 1%nat] [3; 4]) i a
                            * em (mk_ndarray [2%nat; 1%nat] [1; 0]) i 0).
Proof.
  assert (Hh : upper_hessenberg (mk_ndarray [2%nat; 1%nat] [3; 4])).
  { intros n p Hs i j Hi Hj Hij. injection Hs as <- <-. lia. }
  destruct (hessenberg_qr_reduction (mk_ndarray [2%nat; 1%nat] [3; 4])
              (mk_ndarray [2%nat; 1%nat] [1; 0]) 2 1
              eq_refl eq_refl (le_n 2) Hh eq_refl eq_refl)
    as (R0 & Gs & t & Hqr & _).
  exists R0, Gs.
  destruct (apply_givens_fwd_replays
              (mk_ndarray [2%nat; 1%nat] [3; 4])
              (mk_ndarray [2%nat; 1%nat] [1; 0]) R0 Gs 2 1
              eq_refl eq_refl (le_n 2) Hh eq_refl eq_refl Hqr)
    as [target Ht].
  exists target. split; [exact Hqr | exact Ht].
Defined.

End GivensTheorems.

(** ** Further facts on [run_cg_lanczos] and [construct_tri] *)

Section CgLanczosTheorems.
Import Xnp CgLanczos.

Lemma tri_row_length (band diag : vec) (dim i : nat) :
  length (tri_row band diag dim i) = dim.
Proof.
  unfold tri_row.
  destruct (i =? 0)%nat; [|destruct (i =? dim - 1)%nat];
    repeat rewrite update_at_length; apply repeat_length.
Qed.

Lemma nth_tri_rows (band diag : vec) (dim i : nat) :
  (i < dim)%nat ->
  nth i (map (tri_row band diag dim) (seq 0 dim)) []
  = tri_row band diag dim i.
Proof.
  intros Hi.
  rewrite (nth_indep _ [] (tri_row band diag dim 0))
    by (rewrite length_map, length_seq; exact Hi).
  rewrite (map_nth (tri_row band diag dim)), seq_nth by exact Hi.
  reflexivity.
Qed.

(** X5. For a diagonal of [dim >= 2] entries and a band of [dim - 1]
    entries, [construct_tri] returns the [dim] by [dim] symmetric
    tridiagonal matrix with [diag] on its diagonal and [band] on both
    neighbouring diagonals. *)
Theorem construct_tri_tridiagonal (band diag : vec) :
  (2 <= length diag)%nat -> length band = (length diag - 1)%nat ->
  exists T,
    construct_tri band diag = Return T
    /\ length T = length diag
    /\ (forall i, (i < length diag)%nat ->
          length (nth i T []) = length diag)
    /\ (forall i j, (i < length diag)%nat -> (j < length diag)%nat ->
          nth j (nth i T []) 0
          = if (j =? i)%nat then nth i diag 0
            else if (j =? S i)%nat then nth i band 0
            else if (S j =? i)%nat then nth j band 0
            else 0)
    /\ (forall i j, (i < length diag)%nat -> (j < length diag)%nat ->
          nth j (nth i T []) 0 = nth i (nth j T []) 0).
Proof.
  intros Hdim Hband.
  pose proof (construct_tri_spec band diag) as Hspec. cbv zeta in Hspec.
  rewrite Hspec by assumption.
  set (dim := length diag) in *.
  eexists. split; [reflexivity|].
  split; [now rewrite length_map, length_seq|].
  split; [intros i Hi; rewrite nth_tri_rows by exact Hi;
          apply tri_row_length|].
  assert (Hentry : forall i j, (i < dim)%nat -> (j < dim)%nat ->
    nth j (nth i (map (tri_row band diag dim) (seq 0 dim)) []) 0
    = if (j =? i)%nat then nth i diag 0
      else if (j =? S i)%nat then nth i band 0
      else if (S j =? i)%nat then nth j band 0
      else 0).
  { intros i j Hi Hj. rewrite nth_tri_rows by exact Hi.
    apply tri_row_entry; assumption. }
  split; [exact Hentry|].
  intros i j Hi Hj. rewrite (Hentry i j), (Hentry j i) by assumption.
  destruct (Nat.eqb_spec j i) as [->|Hne].
  - now rewrite Nat.eqb_refl.
  - destruct (Nat.eqb_spec i j); [lia|].
    destruct (Nat.eqb_spec j (S i)) as [->|H1].
    + destruct (Nat.eqb_spec i (S (S i))); [lia|].
      now rewrite Nat.eqb_refl.
    + destruct (Nat.eqb_spec (S j) i) as [<-|H2].
      * now rewrite Nat.eqb_refl.
      * destruct (Nat.eqb_spec i (S j)); [lia|].
        destruct (Nat.eqb_spec (S i) j); [lia | reflexivity].
Qed.

Lemma construct_tri_tridiagonal_witness :
  exists T,
    construct_tri [1] [2; 3] = Return T
    /\ length T = length [2; 3]
    /\ (forall i, (i < length [2; 3])%nat ->
          length (nth i T []) = length [2; 3])
    /\ (forall i j, (i < length [2; 3])%nat -> (j < length [2; 3])%nat ->
          nth j (nth i T []) 0
          = if (j =? i)%nat then nth i [2; 3] 0
            else if (j =? S i)%nat then nth i [1] 0
            else if (S j =? i)%nat then nth j [1] 0
            else 0)
    /\ (forall i j, (i < length [2; 3])%nat -> (j < length [2; 3])%nat ->
          nth j (nth i T []) 0 = nth i (nth j T []) 0).
Proof.
  apply (construct_tri_tridiagonal [1] [2; 3]); simpl; lia.
Defined.

(** X6. The small cases of [construct_tri]: an empty diagonal gives the
    empty matrix, and a diagonal of one entry raises [IndexError] whatever
    the band, because the first row writes (or reads) a neighbour of the
    diagonal that does not exist. *)
Theorem construct_tri_small (band : vec) (d : R) :
  construct_tri band [] = Return []
  /\ construct_tri band [d] = Raise IndexError.
Proof.
  split; [reflexivity|].
  destruct band as [|b band]; reflexivity.
Qed.

(** X7. When the norm of the initial residual [rhs - A x0] is within the
    tolerance, [run_cg_lanczos] makes no trip of its loop: it returns
    [k = 0], the first column of [x] is [x0], the first column of [res] is
    the initial residual, and no basis vector was written in [q]. *)
Theorem run_cg_lanczos_converged_start (A : list vec) (rhs x0 : vec)
    (max_iters : Z) (tolerance : R) :
  conforming A rhs x0 = true -> (1 <= max_iters)%Z ->
  norm (vsub rhs (matvec A x0)) <= tolerance ->
  exists st,
    run_cg_lanczos A rhs x0 max_iters tolerance = Return st
    /\ st_k st = 0%nat
    /\ nth 0 (st_x st) [] = x0
    /\ nth 0 (st_res st) [] = vsub rhs (matvec A x0)
    /\ st_q st = repeat (repeat 0 (length rhs)) (Z.to_nat max_iters).
Proof.
  intros Hc Hm Htol.
  pose proof (initialize_cg_lanczos_spec A rhs x0 max_iters Hc Hm) as Hinit.
  cbv zeta in Hinit.
  unfold run_cg_lanczos. rewrite Hinit. cbn [bind].
  destruct (Z.to_nat max_iters) as [|m'] eqn:Em; [lia|].
  rewrite cg_lanczos_loop_S. cbn [st_alpha st_k].
  rewrite get_at_ok by (rewrite update_at_length, repeat_length; lia).
  cbn [bind].
  rewrite nth_update_at by (rewrite repeat_length; lia). cbn [Nat.eqb].
  replace (Rltb tolerance (norm (vsub rhs (matvec A x0)))) with false
    by (symmetry; apply Rltb_false; exact Htol).
  cbn [andb]. eexists. split; [reflexivity|].
  cbn [st_k st_x st_res st_q]. repeat split.
Qed.

Lemma run_cg_lanczos_converged_start_witness :
  exists st,
    run_cg_lanczos [[2]] [6] [3] 4 0 = Return st
    /\ st_k st = 0%nat
    /\ nth 0 (st_x st) [] = [3]
    /\ nth 0 (st_res st) [] = vsub [6] (matvec [[2]] [3])
    /\ st_q st = repeat (repeat 0 (length [6])) (Z.to_nat 4).
Proof.
  apply (run_cg_lanczos_converged_start [[2]] [6] [3] 4 0).
  - reflexivity.
  - lia.
  - unfold norm. cbn [vsub matvec map combine dot fst snd sumsq].
    replace ((6 - (2 * 3 + 0)) * (6 - (2 * 3 + 0)) + 0) with 0 by ring.
    rewrite sqrt_0. lra.
Defined.

(** X8. Without a column to write to, [initialize_cg_lanczos] fails:
    a negative [max_iters] raises [ValueError] (from [np.zeros]), and
    [max_iters = 0] with conforming shapes raises [IndexError] at
    [x[:, 0] = x0.copy()], so [run_cg_lanczos] raises it too. *)
Theorem initialize_cg_lanczos_needs_a_column (A : list vec) (rhs x0 : vec)
    (tolerance : R) :
  (forall max_iters, (max_iters < 0)%Z ->
     initialize_cg_lanczos A rhs x0 max_iters = Raise ValueError)
  /\ (conforming A rhs x0 = true ->
      initialize_cg_lanczos A rhs x0 0 = Raise IndexError
      /\ run_cg_lanczos A rhs x0 0 tolerance = Raise IndexError).
Proof.
  split.
  - intros max_iters Hneg. unfold initialize_cg_lanczos.
    now destruct (Z.ltb_spec max_iters 0); [|lia].
  - intros Hc.
    assert (Hinit : initialize_cg_lanczos A rhs x0 0 = Raise IndexError).
    { unfold initialize_cg_lanczos. rewrite Hc. reflexivity. }
    split; [exact Hinit|].
    unfold run_cg_lanczos. now rewrite Hinit.
Qed.

(** X9. For a symmetric [A], conforming shapes, [max_iters >= 1] and
    [tolerance >= 0], the last residual [res[:, k]] that [run_cg_lanczos]
    returns is orthogonal to every column of [Q = q[:, 1:k + 1]], and each
    column of [Q] is the residual before it divided by its norm entry
    [alpha], which is positive. *)
Theorem run_cg_lanczos_residual_orthogonal (A : list vec) (rhs x0 : vec)
    (max_iters : Z) (tolerance : R) :
  conforming A rhs x0 = true -> symmetric A ->
  (1 <= max_iters)%Z -> 0 <= tolerance ->
  exists st,
    run_cg_lanczos A rhs x0 max_iters tolerance = Return st
    /\ (forall i, (i < st_k st)%nat ->
          dot (nth i (lanczos_Q st) []) (nth (st_k st) (st_res st) []) = 0)
    /\ (forall j, (j < st_k st)%nat ->
          0 < nth j (st_alpha st) 0
          /\ nth j (lanczos_Q st) []
             = vdiv (nth j (st_res st) []) (nth j (st_alpha st) 0)).
Proof.
  intros Hc Hsym Hm Htol.
  destruct (conforming_square _ _ _ Hc) as [Hsq _].
  pose proof (initialize_cg_lanczos_spec A rhs x0 max_iters Hc Hm) as Hinit.
  cbv zeta in Hinit.
  pose proof (lanczos_inv_init _ _ _ _ _ Hc Hm Hinit) as HI0.
  set (st0 := mk_cg_state _ _ _ _ _ _ _ _ _ _) in *.
  set (m := Z.to_nat max_iters) in *. set (n := length rhs) in *.
  destruct (cg_lanczos_loop_inv A max_iters tolerance (lanczos_inv A n m)
              Htol)
    with (fuel := m) (st := st0)
    as (st & Hrun & HI & _ & _ & _).
  - intros s Hs. split; [apply (li_wf _ _ _ _ Hs) | apply (li_k _ _ _ _ Hs)].
  - intros s s' Hs Hgt HS Hb.
    apply (lanczos_inv_body A n m tolerance Hsq Hsym Htol s s' Hs Hgt HS Hb).
  - exact HI0.
  - lia.
  - exists st.
    destruct (lanczos_inv_Q _ _ _ _ HI) as [HQl HQn].
    split; [unfold run_cg_lanczos; rewrite Hinit; exact Hrun|].
    split.
    + intros i Hi. rewrite HQn by exact Hi.
      apply (li_perp _ _ _ _ HI). lia.
    + intros j Hj. rewrite HQn by exact Hj.
      apply (li_next _ _ _ _ HI). exact Hj.
Qed.

Lemma run_cg_lanczos_residual_orthogonal_witness :
  exists st,
    run_cg_lanczos [[2; 1]; [1; 2]] [1; 0] [0; 0] 2 0 = Return st
    /\ (forall i, (i < st_k st)%nat ->
          dot (nth i (lanczos_Q st) []) (nth (st_k st) (st_res st) []) = 0)
    /\ (forall j, (j < st_k st)%nat ->
          0 < nth j (st_alpha st) 0
          /\ nth j (lanczos_Q st) []
             = vdiv (nth j (st_res st) []) (nth j (st_alpha st) 0)).
Proof.
  apply (run_cg_lanczos_residual_orthogonal [[2; 1]; [1; 2]] [1; 0] [0; 0]
           2 0).
  - reflexivity.
  - intros i j. destruct i as [|[|[|i]]], j as [|[|[|j]]]; reflexivity.
  - lia.
  - lra.
Defined.

End CgLanczosTheorems.

(** ** Further facts on Householder reflectors *)

Section HouseholderTheorems.
Import Xnp Householder.

Lemma dot_axpy_l (x v w : vec) (c : R) :
  length x = length v ->
  dot (map (fun p => fst p - c * snd p) (combine x v)) w
  = dot x w - c * dot v w.
Proof.
  revert v w; induction x as [|a x IH]; intros [|b v] [|e w] H;
    simpl in *; try discriminate; try ring.
  rewrite IH by lia. ring.
Qed.

Lemma sumsq_axpy (x v : vec) (c : R) :
  length x = length v ->
  sumsq (map (fun p => fst p - c * snd p) (combine x v))
  = sumsq x - 2 * c * dot x v + c * c * sumsq v.
Proof.
  revert v; induction x as [|a x IH]; intros [|b v] H;
    simpl in *; try discriminate; try ring.
  rewrite IH by lia. ring.
Qed.

Lemma axpy_back (x v : vec) (c1 c2 : R) :
  length x = length v -> c1 + c2 = 0 ->
  map (fun p => fst p - c2 * snd p)
    (combine (map (fun p => fst p - c1 * snd p) (combine x v)) v) = x.
Proof.
  intros H Hc. revert v H; induction x as [|a x IH]; intros [|b v] H;
    simpl in *; try discriminate; [reflexivity|].
  rewrite IH by lia. f_equal.
  replace c2 with (- c1) by lra. ring.
Qed.

(** X10. When [beta * (v . v) = 2], the reflector [x - beta (x . v) v] of
    [Householder._matmat] is an involution on the columns of the length of
    [v], and it keeps their 2-norm. *)
Theorem householder_matmat_involution (v x : vec) (beta : R) :
  length x = length v -> beta * dot v v = 2 ->
  householder_matmat v beta (householder_matmat v beta x) = x
  /\ norm (householder_matmat v beta x) = norm x.
Proof.
  intros Hlen Hbeta. unfold householder_matmat. split.
  - rewrite dot_axpy_l by exact Hlen.
    apply axpy_back; [exact Hlen|].
    match goal with
    | |- ?L = 0 =>
      replace L with (beta * dot x v * (2 - beta * dot v v)) by ring
    end.
    rewrite Hbeta. ring.
  - unfold norm. f_equal. rewrite sumsq_axpy by exact Hlen.
    rewrite <- (dot_self v).
    match goal with
    | |- ?L = _ =>
      replace L with (sumsq x + beta * dot x v * dot x v
                                * (beta * dot v v - 2)) by ring
    end.
    rewrite Hbeta. ring.
Qed.

Lemma householder_matmat_involution_witness :
  householder_matmat [1; 1] 1 (householder_matmat [1; 1] 1 [3; 4]) = [3; 4]
  /\ norm (householder_matmat [1; 1] 1 [3; 4]) = norm [3; 4].
Proof.
  apply (householder_matmat_involution [1; 1] [3; 4] 1).
  - reflexivity.
  - simpl. lra.
Defined.

(** X11. When the entries of [x] below the pivot are not all zero,
    [get_householder_vec] returns a vector [v] with zeros before the pivot
    and [1] at the pivot, and a [beta] with [beta * (v . v) = 2]: the
    reflector [I - beta v v^T] is orthogonal. *)
Theorem get_householder_vec_normalised (x : vec) (idx : nat) :
  (idx < length x)%nat -> norm (skipn (idx + 1) x) <> 0 ->
  exists v beta,
    get_householder_vec x idx = Some (v, beta)
    /\ length v = length x
    /\ (forall i, (i < idx)%nat -> nth i v 0 = 0)
    /\ nth idx v 0 = 1
    /\ beta * dot v v = 2.
Proof.
  intros Hidx Hnorm.
  destruct (split_at_index x idx Hidx) as (pre & tl & Hx & Hlen).
  set (xi := nth idx x 0) in *. clearbody xi. subst x idx.
  rewrite skipn_app_next in Hnorm.
  assert (Hs : 0 < sumsq tl).
  { pose proof (sumsq_nonneg tl) as Hn.
    destruct (Req_dec_T (sumsq tl) 0) as [E|E]; [|lra].
    exfalso. apply Hnorm. unfold norm. rewrite E. apply sqrt_0. }
  rewrite get_householder_vec_split. cbv zeta.
  replace (Reqb (sumsq tl) 0) with false
    by (symmetry; apply Reqb_false; lra).
  cbn [andb].
  destruct (householder_pivot_entry xi (sumsq tl) Hs) as [Hne _].
  set (v1 := if Rleb xi 0 then _ else _) in *. clearbody v1.
  replace (v1 / v1) with 1 by (field; exact Hne).
  replace (1 / 1) with 1 by field.
  rewrite vdiv_one.
  do 2 eexists. split; [reflexivity|].
  split.
  { rewrite !length_app, repeat_length. cbn [length]. unfold vdiv.
    now rewrite length_map. }
  split.
  { intros i Hi. rewrite app_nth1 by (rewrite repeat_length; exact Hi).
    apply nth_repeat_lt. exact Hi. }
  split.
  { pose proof (nth_app_here (repeat 0 (length pre)) (vdiv tl v1) 1) as N.
    now rewrite repeat_length in N. }
  rewrite dot_app by reflexivity. rewrite dot_zeros_r. cbn [dot].
  rewrite dot_self.
  assert (Hsq : sumsq (vdiv tl v1) = sumsq tl / (v1 * v1)).
  { unfold vdiv. clear - Hne. induction tl as [|b tl IH]; simpl.
    - unfold Rdiv. ring.
    - rewrite IH. field. exact Hne. }
  rewrite Hsq. field. split; [exact Hne | nra].
Qed.

Lemma get_householder_vec_normalised_witness :
  exists v beta,
    get_householder_vec [3; 4] 0 = Some (v, beta)
    /\ length v = length [3; 4]
    /\ (forall i, (i < 0)%nat -> nth i v 0 = 0)
    /\ nth 0 v 0 = 1
    /\ beta * dot v v = 2.
Proof.
  apply (get_householder_vec_normalised [3; 4] 0).
  - simpl. lia.
  - unfold norm. simpl.
    replace (4 * 4 + 0) with (4 * 4) by ring.
    rewrite sqrt_square by lra. lra.
Defined.

(** X12. For every index [idx] of [x], in each of its three branches,
    [get_householder_vec] returns a vector of the length of [x] with zeros
    before the pivot. *)
Theorem get_householder_vec_defined (x : vec) (idx : nat) :
  (idx < length x)%nat ->
  exists v beta,
    get_householder_vec x idx = Some (v, beta)
    /\ length v = length x
    /\ forall i, (i < idx)%nat -> nth i v 0 = 0.
Proof.
  intros Hidx.
  destruct (split_at_index x idx Hidx) as (pre & tl & Hx & Hlen).
  set (xi := nth idx x 0) in *. clearbody xi. subst x idx.
  rewrite get_householder_vec_split. cbv zeta.
  assert (Hz : forall vi vt i, (i < length pre)%nat ->
            nth i (repeat 0 (length pre) ++ vi :: vt) 0 = 0).
  { intros vi vt i Hi.
    rewrite app_nth1 by (rewrite repeat_length; exact Hi).
    apply nth_repeat_lt. exact Hi. }
  assert (Hl : forall vi vt, length vt = length tl ->
            length (repeat 0 (length pre) ++ vi :: vt)
            = length (pre ++ xi :: tl)).
  { intros vi vt Hvt. rewrite !length_app, repeat_length. simpl. lia. }
  destruct (Reqb (sumsq tl) 0 && Rleb 0 xi);
    [|destruct (Reqb (sumsq tl) 0 && Rltb xi 0)];
    do 2 eexists; (split; [reflexivity|]);
    (split; [apply Hl; unfold vdiv; now rewrite ?length_map | apply Hz]).
Qed.

Lemma get_householder_vec_defined_witness :
  exists v beta,
    get_householder_vec [1; -3; 0; 0] 1 = Some (v, beta)
    /\ length v = length [1; -3; 0; 0]
    /\ forall i, (i < 1)%nat -> nth i v 0 = 0.
Proof.
  apply (get_householder_vec_defined [1; -3; 0; 0] 1). simpl. lia.
Defined.

Lemma axpy_zeros (pre : vec) (c : R) :
  map (fun p : R * R => fst p - c * snd p)
      (combine pre (repeat 0 (length pre))) = pre.
Proof.
  induction pre as [|a pre IH]; simpl; [reflexivity|].
  rewrite IH. f_equal. ring.
Qed.

(** A vector [v] with [beta * (v . v) = 2] gives a reflection: the 2-norm
    is kept. *)
Lemma householder_matmat_norm (v x : vec) (beta : R) :
  length x = length v -> beta * dot v v = 2 ->
  norm (householder_matmat v beta x) = norm x.
Proof.
  intros Hlen Hbeta. unfold householder_matmat, norm. f_equal.
  rewrite sumsq_axpy by exact Hlen. rewrite <- (dot_self v).
  match goal with
  | |- ?L = _ =>
    replace L with (sumsq x + beta * dot x v * dot x v
                              * (beta * dot v v - 2)) by ring
  end.
  rewrite Hbeta. ring.
Qed.

(** C2, amended.  In exact arithmetic, for a pivot index [idx] of [x],
    [get_householder_vec] returns a vector [v] of the length of [x] and a
    scalar [beta] such that [I - beta v v^T], applied to [x], has every
    entry strictly below the pivot equal to zero and leaves the entries
    above the pivot as they are; and when the entries of [x] below the
    pivot are not all zero, [beta * (v . v) = 2]: the operator is a
    reflection, and the result has the 2-norm of [x]. *)
Theorem householder_zeroes_below_pivot (x : vec) (idx : nat) :
  (idx < length x)%nat ->
  exists v beta,
    get_householder_vec x idx = Some (v, beta)
    /\ length v = length x
    /\ (forall i, (idx < i < length x)%nat ->
          nth i (householder_matmat v beta x) 0 = 0)
    /\ (forall i, (i < idx)%nat ->
          nth i (householder_matmat v beta x) 0 = nth i x 0)
    /\ (norm (skipn (idx + 1) x) <> 0 ->
        beta * dot v v = 2
        /\ norm (householder_matmat v beta x) = norm x).
Proof.
  intros Hidx.
  destruct (split_at_index x idx Hidx) as (pre & tl & Hx & Hlen).
  set (xi := nth idx x 0) in *. clearbody xi. subst x idx.
  rewrite skipn_app_next.
  rewrite get_householder_vec_split. cbv zeta.
  assert (Hz : length pre = length (repeat 0 (length pre)))
    by now rewrite repeat_length.
  assert (Hlen1 : forall vi vt, length vt = length tl ->
            length (repeat 0 (length pre) ++ vi :: vt) = length (pre ++ xi :: tl)).
  { intros vi vt Hvt. rewrite !length_app, repeat_length. simpl. lia. }
  assert (Hmain : forall vi vt beta,
            Forall (fun b => b = 0)
              (map (fun p : R * R =>
                      fst p - beta * dot (pre ++ xi :: tl)
                                (repeat 0 (length pre) ++ vi :: vt) * snd p)
                   (combine tl vt)) ->
            forall i, (length pre < i < length (pre ++ xi :: tl))%nat ->
              nth i (householder_matmat (repeat 0 (length pre) ++ vi :: vt)
                       beta (pre ++ xi :: tl)) 0 = 0).
  { intros vi vt beta Hall i Hi.
    rewrite householder_matmat_split by exact Hz. cbv zeta.
    apply nth_past_pivot; [exact Hall|].
    rewrite length_map, length_combine, repeat_length, Nat.min_id. lia. }
  assert (Habove : forall vi vt beta i, (i < length pre)%nat ->
            nth i (householder_matmat (repeat 0 (length pre) ++ vi :: vt)
                     beta (pre ++ xi :: tl)) 0
            = nth i (pre ++ xi :: tl) 0).
  { intros vi vt beta i Hi.
    rewrite householder_matmat_split by exact Hz. cbv zeta.
    rewrite axpy_zeros. now rewrite !app_nth1 by exact Hi. }
  assert (Hdeg : sumsq tl = 0 -> norm tl = 0).
  { intros E. unfold norm. rewrite E. apply sqrt_0. }
  destruct (Reqb (sumsq tl) 0 && Rleb 0 xi) eqn:B1;
    [|destruct (Reqb (sumsq tl) 0 && Rltb xi 0) eqn:B2].
  - (* beta = 0 *)
    apply andb_prop in B1 as [Hs _]. apply Reqb_true in Hs.
    pose proof (proj1 (sumsq_zero_iff tl) Hs) as Hall.
    do 2 eexists. split; [reflexivity|]. split; [now apply Hlen1|].
    split; [|split; [apply Habove | intros Hn; now apply Hdeg in Hs]].
    apply Hmain. generalize (dot (pre ++ xi :: tl)
                               (repeat 0 (length pre) ++ xi :: tl)) as d.
    intros d. clear - Hall. induction Hall as [|b tl Hb _ IH]; simpl;
      [constructor | constructor; [rewrite Hb; ring | exact IH]].
  - (* beta = -2 *)
    apply andb_prop in B2 as [Hs _]. apply Reqb_true in Hs.
    pose proof (proj1 (sumsq_zero_iff tl) Hs) as Hall.
    do 2 eexists. split; [reflexivity|]. split; [now apply Hlen1|].
    split; [|split; [apply Habove | intros Hn; now apply Hdeg in Hs]].
    apply Hmain. generalize (dot (pre ++ xi :: tl)
                               (repeat 0 (length pre) ++ xi :: tl)) as d.
    intros d. clear - Hall. induction Hall as [|b tl Hb _ IH]; simpl;
      [constructor | constructor; [rewrite Hb; ring | exact IH]].
  - (* the general branch *)
    assert (Hs : 0 < sumsq tl).
    { pose proof (sumsq_nonneg tl) as Hn.
      destruct (Req_dec_T (sumsq tl) 0) as [E|E]; [|lra].
      exfalso. apply Reqb_true in E. rewrite E in B1, B2. simpl in B1, B2.
      apply Rleb_false in B1. apply Rltb_false in B2. lra. }
    destruct (householder_pivot_entry xi (sumsq tl) Hs) as [Hne Heq].
    set (v1 := if Rleb xi 0 then _ else _) in *. clearbody v1.
    replace (v1 / v1) with 1 by (field; exact Hne).
    replace (1 / 1) with 1 by field.
    rewrite vdiv_one.
    assert (Hvl : length (vdiv tl v1) = length tl)
      by (unfold vdiv; now rewrite length_map).
    assert (Hsq : sumsq (vdiv tl v1) = sumsq tl / (v1 * v1)).
    { unfold vdiv. clear - Hne. induction tl as [|b tl IH]; simpl.
      - unfold Rdiv. ring.
      - rewrite IH. field. exact Hne. }
    assert (Hbeta : 2 * v1 ^ 2 / (sumsq tl + v1 ^ 2)
                    * dot (repeat 0 (length pre) ++ 1 :: vdiv tl v1)
                          (repeat 0 (length pre) ++ 1 :: vdiv tl v1) = 2).
    { rewrite dot_app by reflexivity. rewrite dot_zeros_r. cbn [dot].
      rewrite dot_self, Hsq. field. split; [exact Hne | nra]. }
    do 2 eexists. split; [reflexivity|].
    split; [now apply Hlen1|].
    split; [|split; [apply Habove|]].
    + apply Hmain.
      rewrite dot_app by exact Hz. rewrite dot_zeros_r. simpl dot at 1.
      assert (Hvd : vdiv tl v1 = map (fun b => b * / v1) tl) by reflexivity.
      rewrite Hvd, dot_self_scaled.
      assert (Hden : sumsq tl + v1 ^ 2 <> 0) by nra.
      assert (Hk : 2 * v1 ^ 2 / (sumsq tl + v1 ^ 2)
                   * (0 + (xi * 1 + sumsq tl * / v1)) = v1).
      { field_simplify_eq; [nra | split; assumption]. }
      rewrite Hk. clear - Hne.
      induction tl as [|b tl IH]; simpl;
        [constructor | constructor; [field; exact Hne | exact IH]].
    + intros _. split; [exact Hbeta|].
      apply householder_matmat_norm; [|exact Hbeta].
      symmetry. now apply Hlen1.
Qed.

Lemma householder_zeroes_below_pivot_witness :
  exists v beta,
    get_householder_vec [5; 3; 4; 0] 1 = Some (v, beta)
    /\ length v = length [5; 3; 4; 0]
    /\ (forall i, (1 < i < length [5; 3; 4; 0])%nat ->
          nth i (householder_matmat v beta [5; 3; 4; 0]) 0 = 0)
    /\ (forall i, (i < 1)%nat ->
          nth i (householder_matmat v beta [5; 3; 4; 0]) 0
          = nth i [5; 3; 4; 0] 0)
    /\ (norm (skipn (1 + 1) [5; 3; 4; 0]) <> 0 ->
        beta * dot v v = 2
        /\ norm (householder_matmat v beta [5; 3; 4; 0]) = norm [5; 3; 4; 0]).
Proof.
  apply (householder_zeroes_below_pivot [5; 3; 4; 0] 1). simpl. lia.
Defined.

End HouseholderTheorems.

Section HouseholderFloatFacts.
Import PrimFloat.

(** C2, counterexample: in binary64 the claim fails by underflow.  For
    [x = [1, 2^-600]] and the pivot [0], the square of the entry below the
    pivot underflows to zero, so [sigma_2 == 0] and [get_householder_vec]
    takes the branch of a zero norm below the pivot: it returns [v = x] and
    [beta = 0], and [I - beta v v^T] leaves the entry [2^-600] below the
    pivot, which is not zero, as it is. *)
Lemma householder_underflow_counterexample :
  HouseholderFloat.get_householder_vec [1%float; 0x1p-600%float] 0
  = Some ([1%float; 0x1p-600%float], 0%float)
  /\ HouseholderFloat.householder_matmat [1%float; 0x1p-600%float] 0%float
       [1%float; 0x1p-600%float]
     = [1%float; 0x1p-600%float]
  /\ PrimFloat.eqb
       (nth 1 (HouseholderFloat.householder_matmat
                 [1%float; 0x1p-600%float] 0%float
                 [1%float; 0x1p-600%float]) 0%float) 0%float = false.
Proof. repeat split; vm_compute; reflexivity. Qed.

End HouseholderFloatFacts.


(** ** cola/operators.py: Dense, ScalarMul, Identity, Diagonal, Transpose
    and the right actions of Product and Sum *)

Module LinearOperators.
Import NP Operators.

(** [a[:, None]] *)
Definition colon_none (a : ndarray) : option ndarray :=
  match shape a with
  | n :: rest => Some (mk_ndarray (n :: 1%nat :: rest) (data a))
  | [] => None
  end.

(** [a[None, :]] *)
Definition none_colon (a : ndarray) : option ndarray :=
  match shape a with
  | n :: rest => Some (mk_ndarray (1%nat :: n :: rest) (data a))
  | [] => None
  end.

(** [xnp.diag(a)]: the diagonal matrix of a one-dimensional [a], the
    diagonal of a two-dimensional one. *)
Definition diag (a : ndarray) : option ndarray :=
  match shape a with
  | [n] =>
    Some (of_fun [n; n]
            (fun idx =>
               if (nth 0 idx 0%nat =? nth 1 idx 0%nat)%nat
               then get a [nth 0 idx 0%nat] else 0))
  | [n; p] =>
    Some (of_fun [Nat.min n p]
            (fun idx => get a [nth 0 idx 0%nat; nth 0 idx 0%nat]))
  | _ => None
  end.

(** [ScalarMul._matmat(self, v)]: [self.c * v]. *)
Definition ScalarMul_matmat (c : R) (v : ndarray) : option ndarray :=
  binop Rmult (scalar c) v.

(** [Identity(shape, dtype)._matmat(v)]: [Identity.__init__] sets [c = 1]. *)
Definition Identity_matmat (v : ndarray) : option ndarray :=
  ScalarMul_matmat 1 v.

(** The operators of the file that have both a [_matmat] and an [_rmatmat]
    and wrap real arrays or one another. *)
Inductive linop : Type :=
| Dense_op (M : Dense)
| Diagonal_op (d : ndarray)
| Transpose_op (A : linop).

(** [self.shape], as each [__init__] hands it to [LinearOperator.__init__];
    [None] where [len(diag)] raises. *)
Fixpoint linop_shape (A : linop) : option (nat * nat) :=
  match A with
  | Dense_op M => Some (op_shape M)
  | Diagonal_op d =>
    match shape d with
    | n :: _ => Some (n, n)
    | [] => None
    end
  | Transpose_op A' =>
    match linop_shape A' with
    | Some (r, c) => Some (c, r)
    | None => None
    end
  end.

(** [A._matmat(X)] when [right] is [false], [A._rmatmat(X)] when it is
    [true]: [Transpose] calls the one from the other. *)
Fixpoint apply (right : bool) (A : linop) (X : ndarray) : option ndarray :=
  match A with
  | Dense_op M =>
    if right then matmul X (to_array M) else matmul (to_array M) X
  | Diagonal_op d =>
    match (if right then none_colon d else colon_none d) with
    | Some d' => binop Rmult d' X
    | None => None
    end
  | Transpose_op A' =>
    option_map transpose (apply (negb right) A' (transpose X))
  end.

Definition matmat (A : linop) (X : ndarray) : option ndarray :=
  apply false A X.

Definition rmatmat (A : linop) (X : ndarray) : option ndarray :=
  apply true A X.

(** [Diagonal.to_dense(self)] *)
Definition Diagonal_to_dense (d : ndarray) : option ndarray := diag d.

(** [Diagonal._dense_to_flat(self, A)] *)
Definition Diagonal_dense_to_flat (A : ndarray) : option ndarray := diag A.

(** [v @ M] *)
Definition op_rmatmul (v : ndarray) (M : Dense) : option ndarray :=
  matmul v (to_array M).

(** [for M in Ms: v = v @ M] *)
Fixpoint Product_rloop (Ms : list Dense) (v : ndarray) : option ndarray :=
  match Ms with
  | [] => Some v
  | M :: Ms' =>
    match op_rmatmul v M with
    | Some v' => Product_rloop Ms' v'
    | None => None
    end
  end.

(** [Product._rmatmat(self, v)] *)
Definition Product_rmatmat (self : instance) (v : ndarray) : option ndarray :=
  match self_Ms self with
  | Some Ms => Product_rloop Ms v
  | None => None
  end.

(** [sum(v @ M for M in Ms)], from the accumulator [acc]. *)
Fixpoint Sum_rloop (Ms : list Dense) (v acc : ndarray) : option ndarray :=
  match Ms with
  | [] => Some acc
  | M :: Ms' =>
    match op_rmatmul v M with
    | Some y =>
      match binop Rplus acc y with
      | Some acc' => Sum_rloop Ms' v acc'
      | None => None
      end
    | None => None
    end
  end.

(** [Sum._rmatmat(self, v)] *)
Definition Sum_rmatmat (self : instance) (v : ndarray) : option ndarray :=
  match self_Ms self with
  | Some Ms => Sum_rloop Ms v (scalar 0)
  | None => None
  end.

(** [xnp.eye(n)] *)
Definition eye (n : nat) : ndarray :=
  of_fun [n; n]
    (fun idx => if (nth 0 idx 0%nat =? nth 1 idx 0%nat)%nat then 1 else 0).

(** [kronsum(A, B)] for two-dimensional arrays. *)
Definition kronsum (A B : ndarray) : option ndarray :=
  match shape A, shape B with
  | [m; _], [p; _] =>
    let IA := eye m in
    let IB := eye p in
    x <- kron A IB ;;
    y <- kron IA B ;;
    binop Rplus x y
  | _, _ => None
  end.

(** [reduce(kronsum, Ms)] *)
Fixpoint reduce_kronsum (acc : ndarray) (Ms : list ndarray)
    : option ndarray :=
  match Ms with
  | [] => Some acc
  | M :: Ms' => acc' <- kronsum acc M ;; reduce_kronsum acc' Ms'
  end.

(** [KronSum.to_dense(self)] *)
Definition KronSum_to_dense (self : instance) : option ndarray :=
  Ms <- self_Ms self ;;
  match map to_array Ms with
  | [] => None
  | M0 :: Ms' => reduce_kronsum M0 Ms'
  end.

(** The loop of [KronSum._matmat] over [enumerate(self.Ms)], from the
    operand of index [i] on. *)
Fixpoint KronSum_loop (Ms : list Dense) (i : nat) (ev out : ndarray)
    : option ndarray :=
  match Ms with
  | [] => Some out
  | M :: Ms' =>
    ev_front <- moveaxis ev i 0 ;;
    x <- reshape_infer [snd (op_shape M)] ev_front ;;
    y <- op_matmul M x ;;
    Mev_front <- reshape (fst (op_shape M) :: tl (shape ev_front)) y ;;
    t <- moveaxis Mev_front 0 i ;;
    out' <- iadd out t ;;
    KronSum_loop Ms' (S i) ev out'
  end.

(** [KronSum._matmat(self, v)] *)
Definition KronSum_matmat (self : instance) (v : ndarray) : option ndarray :=
  Ms <- self_Ms self ;;
  sh <- self_shape self ;;
  ev <- reshape_infer (map (fun Mi => snd (op_shape Mi)) Ms) v ;;
  out <- binop Rmult (scalar 0) ev ;;
  out' <- KronSum_loop Ms 0 ev out ;;
  reshape [fst sh; last (shape ev) 0%nat] out'.

End LinearOperators.

Section LinearOperatorFacts.
Import NP Operators LinearOperators.

Lemma of_fun_ext (s : list nat) (f g : list nat -> R) :
  (forall idx, in_shape idx s -> f idx = g idx) -> of_fun s f = of_fun s g.
Proof.
  intros H. apply ndarray_ext; try apply of_fun_wf; [reflexivity|].
  simpl. intros idx Hidx. rewrite !get_of_fun by exact Hidx. now apply H.
Qed.

Lemma bget_self (a : ndarray) (idx : list nat) :
  in_shape idx (shape a) -> bget a idx = get a idx.
Proof.
  intros H. unfold bget.
  assert (Hl : length idx = length (shape a)) by (eapply Forall2_length; eauto).
  rewrite Hl, Nat.sub_diag. cbn [skipn]. f_equal.
  clear Hl. induction H as [|i n idx s Hi _ IH]; [reflexivity|].
  cbn [combine map fst snd]. rewrite IH. f_equal.
  destruct (Nat.eqb_spec n 1); [lia | reflexivity].
Qed.

Lemma binop_same_shape (op : R -> R -> R) (a b : ndarray) :
  shape a = shape b ->
  binop op a b
  = Some (of_fun (shape a) (fun idx => op (get a idx) (get b idx))).
Proof.
  intros Hs. unfold binop. rewrite <- Hs, broadcast_shapes_same. f_equal.
  apply of_fun_ext. intros idx Hidx.
  rewrite !bget_self by (rewrite <- ?Hs; exact Hidx). reflexivity.
Qed.

Lemma binop_scalar_l (op : R -> R -> R) (c : R) (v : ndarray) :
  binop op (scalar c) v
  = Some (of_fun (shape v) (fun idx => op c (get v idx))).
Proof.
  unfold binop. cbn [scalar shape]. rewrite broadcast_shapes_scalar. f_equal.
  apply of_fun_ext. intros idx Hidx.
  rewrite (bget_self v) by exact Hidx. reflexivity.
Qed.

Lemma of_fun_get (a : ndarray) : wf a -> of_fun (shape a) (get a) = a.
Proof.
  intros Hw. apply ndarray_ext; [apply of_fun_wf | exact Hw | reflexivity |].
  simpl. intros idx Hidx. now apply get_of_fun.
Qed.

Lemma in_shape_rev (idx s : list nat) :
  in_shape idx s -> in_shape (rev idx) (rev s).
Proof.
  unfold in_shape. induction 1 as [|i n idx s Hi H IH]; [constructor|].
  simpl. apply Forall2_app; [exact IH | now repeat constructor].
Qed.

Lemma transpose_involutive (a : ndarray) :
  wf a -> transpose (transpose a) = a.
Proof.
  intros Hw.
  apply ndarray_ext; [apply of_fun_wf | exact Hw | |].
  - unfold transpose. cbn [shape of_fun]. apply rev_involutive.
  - intros idx Hidx.
    assert (Hi : in_shape idx (shape a)).
    { unfold transpose in Hidx. cbn [shape of_fun] in Hidx.
      now rewrite rev_involutive in Hidx. }
    unfold transpose at 1. rewrite get_of_fun by exact Hidx.
    unfold transpose. rewrite get_of_fun by now apply in_shape_rev.
    now rewrite rev_involutive.
Qed.

Lemma transpose_wf (a : ndarray) : wf (transpose a).
Proof. apply of_fun_wf. Qed.

Lemma binop_wf (op : R -> R -> R) (a b c : ndarray) :
  binop op a b = Some c -> wf c.
Proof.
  unfold binop. destruct (broadcast_shapes _ _); [|discriminate].
  intros E. injection E as <-. apply of_fun_wf.
Qed.

Lemma matmul_wf (a b c : ndarray) : matmul a b = Some c -> wf c.
Proof.
  unfold matmul.
  destruct (shape a) as [|m [|n [|? ?]]]; try discriminate.
  destruct (shape b) as [|n' [|p [|? ?]]]; try discriminate.
  destruct (n =? n')%nat; [|discriminate].
  intros E. injection E as <-. apply of_fun_wf.
Qed.

Lemma apply_wf (A : linop) (right : bool) (X Y : ndarray) :
  apply right A X = Some Y -> wf Y.
Proof.
  revert right X Y. induction A as [M|d|A IH]; intros right X Y; cbn [apply].
  - destruct right; apply matmul_wf.
  - destruct (if right then none_colon d else colon_none d);
      [apply binop_wf | discriminate].
  - destruct (apply (negb right) A (transpose X)); [|discriminate].
    simpl. intros E. injection E as <-. apply transpose_wf.
Qed.

End LinearOperatorFacts.

Section LinearOperatorDuality.
Import NP Operators LinearOperators.

Lemma matmul_entries (a b c : ndarray) (m n p : nat) :
  shape a = [m; n] -> shape b = [n; p] -> matmul a b = Some c ->
  shape c = [m; p] /\ wf c
  /\ forall i j, (i < m)%nat -> (j < p)%nat ->
       em c i j = Rsum n (fun k => em a i k * em b k j).
Proof.
  intros Ha Hb Hc.
  destruct (matmul_spec a b m n p Ha Hb) as (c' & Hc' & Hs & Hw & He).
  rewrite Hc in Hc'. injection Hc' as <-. auto.
Qed.

Lemma broadcast_col (n b : nat) :
  broadcast_shapes [n; 1%nat] [n; b] = Some [n; b].
Proof.
  unfold broadcast_shapes. cbn [rev app broadcast_rev].
  rewrite Nat.eqb_refl.
  destruct (Nat.eqb_spec 1 b) as [<-|]; reflexivity.
Qed.

Lemma broadcast_row (a n : nat) :
  broadcast_shapes [1%nat; n] [a; n] = Some [a; n].
Proof.
  unfold broadcast_shapes. cbn [rev app broadcast_rev].
  destruct (Nat.eqb_spec 1 a) as [<-|]; cbn [Nat.eqb];
    now rewrite Nat.eqb_refl.
Qed.

Lemma get_1d (d : ndarray) (n i : nat) :
  shape d = [n] -> get d [i] = nth i (data d) 0.
Proof.
  intros Hd. unfold get. rewrite Hd. cbn [ravel size fold_right].
  f_equal. lia.
Qed.

Lemma bget_col (dat : list R) (n i j : nat) :
  (i < n)%nat -> bget (mk_ndarray [n; 1%nat] dat) [i; j] = nth i dat 0.
Proof.
  intros Hi. unfold bget, get. cbn.
  destruct (Nat.eqb_spec n 1); f_equal; lia.
Qed.

Lemma bget_row (dat : list R) (n i j : nat) :
  (j < n)%nat -> bget (mk_ndarray [1%nat; n] dat) [i; j] = nth j dat 0.
Proof.
  intros Hj. unfold bget, get. cbn.
  destruct (Nat.eqb_spec n 1); f_equal; lia.
Qed.

(** What [Diagonal] does on either side, on the entries. *)
Lemma Diagonal_apply_spec (d : ndarray) (n : nat) :
  shape d = [n] ->
  (forall X b, shape X = [n; b] ->
     exists Y, matmat (Diagonal_op d) X = Some Y
       /\ shape Y = [n; b] /\ wf Y
       /\ forall i j, (i < n)%nat -> (j < b)%nat ->
            em Y i j = get d [i] * em X i j)
  /\ (forall X a, shape X = [a; n] ->
        exists Y, rmatmat (Diagonal_op d) X = Some Y
          /\ shape Y = [a; n] /\ wf Y
          /\ forall i j, (i < a)%nat -> (j < n)%nat ->
               em Y i j = get d [j] * em X i j).
Proof.
  intros Hd. split.
  - intros X b HX. unfold matmat. cbn [apply]. unfold colon_none.
    rewrite Hd. unfold binop. cbn [shape]. rewrite HX, broadcast_col.
    eexists. split; [reflexivity|]. split; [reflexivity|].
    split; [apply of_fun_wf|]. intros i j Hi Hj.
    rewrite em_of_fun by assumption. rewrite bget_col by exact Hi.
    rewrite bget_self by (rewrite HX; now apply in_shape_2d).
    now rewrite (get_1d d n i Hd).
  - intros X a HX. unfold rmatmat. cbn [apply]. unfold none_colon.
    rewrite Hd. unfold binop. cbn [shape]. rewrite HX, broadcast_row.
    eexists. split; [reflexivity|]. split; [reflexivity|].
    split; [apply of_fun_wf|]. intros i j Hi Hj.
    rewrite em_of_fun by assumption. rewrite bget_row by exact Hj.
    rewrite bget_self by (rewrite HX; now apply in_shape_2d).
    now rewrite (get_1d d n j Hd).
Qed.

Lemma diag_spec (d : ndarray) (n : nat) :
  shape d = [n] ->
  exists D, diag d = Some D /\ shape D = [n; n] /\ wf D
    /\ forall i j, (i < n)%nat -> (j < n)%nat ->
         em D i j = if (i =? j)%nat then get d [i] else 0.
Proof.
  intros Hd. unfold diag. rewrite Hd. eexists.
  split; [reflexivity|]. split; [reflexivity|]. split; [apply of_fun_wf|].
  intros i j Hi Hj. now rewrite em_of_fun by assumption.
Qed.

(** Every [Diagonal] inside the operator wraps a one-dimensional array. *)
Fixpoint vector_diagonals (A : linop) : Prop :=
  match A with
  | Dense_op _ => True
  | Diagonal_op d => length (shape d) = 1%nat
  | Transpose_op A' => vector_diagonals A'
  end.

Lemma apply_spec (A : linop) :
  vector_diagonals A ->
  forall r c, linop_shape A = Some (r, c) ->
  (forall v b, shape v = [c; b] ->
     exists y, matmat A v = Some y /\ shape y = [r; b])
  /\ (forall u a, shape u = [a; r] ->
        exists z, rmatmat A u = Some z /\ shape z = [a; c])
  /\ (forall u v a b y z,
        shape u = [a; r] -> shape v = [c; b] ->
        matmat A v = Some y -> rmatmat A u = Some z ->
        forall i j, (i < a)%nat -> (j < b)%nat ->
          Rsum r (fun k => em u i k * em y k j)
          = Rsum c (fun k => em z i k * em v k j)).
Proof.
  induction A as [M|d|A IH]; intros Hv r c Hs.
  - cbn [linop_shape] in Hs. injection Hs as Hs.
    assert (HM : shape (to_array M) = [r; c]).
    { unfold to_array. rewrite Hs. reflexivity. }
    unfold matmat, rmatmat. cbn [apply]. repeat split.
    + intros v b Hsv.
      destruct (matmul_spec _ _ r c b HM Hsv) as (y & Hy & Hsy & _).
      now exists y.
    + intros u a Hsu.
      destruct (matmul_spec _ _ a r c Hsu HM) as (z & Hz & Hsz & _).
      now exists z.
    + intros u v a b y z Hsu Hsv Hy Hz i j Hi Hj.
      destruct (matmul_entries _ _ _ r c b HM Hsv Hy) as (_ & _ & Ey).
      destruct (matmul_entries _ _ _ a r c Hsu HM Hz) as (_ & _ & Ez).
      transitivity (Rsum r (fun k => Rsum c (fun l =>
                      em u i k * em (to_array M) k l * em v l j))).
      { apply Rsum_ext. intros k Hk. rewrite Ey by assumption.
        rewrite Rsum_scal. apply Rsum_ext. intros l _. ring. }
      rewrite Rsum_swap. apply Rsum_ext. intros l Hl.
      rewrite Ez by assumption. rewrite Rsum_scal_r. reflexivity.
  - cbn [vector_diagonals] in Hv. cbn [linop_shape] in Hs.
    destruct (shape d) as [|n [|? ?]] eqn:Hd; try discriminate.
    injection Hs as <- <-.
    destruct (Diagonal_apply_spec d n Hd) as [HL HR]. repeat split.
    + intros v b Hsv. destruct (HL v b Hsv) as (y & Hy & Hsy & _).
      now exists y.
    + intros u a Hsu. destruct (HR u a Hsu) as (z & Hz & Hsz & _).
      now exists z.
    + intros u v a b y z Hsu Hsv Hy Hz i j Hi Hj.
      destruct (HL v b Hsv) as (y' & Hy' & _ & _ & Ey).
      destruct (HR u a Hsu) as (z' & Hz' & _ & _ & Ez).
      rewrite Hy in Hy'. injection Hy' as <-.
      rewrite Hz in Hz'. injection Hz' as <-.
      apply Rsum_ext. intros k Hk. rewrite Ey, Ez by assumption. ring.
  - cbn [vector_diagonals] in Hv. cbn [linop_shape] in Hs.
    destruct (linop_shape A) as [[r' c']|] eqn:HsA; [|discriminate].
    injection Hs as <- <-.
    destruct (IH Hv r' c' eq_refl) as (IHm & IHr & IHd).
    unfold matmat, rmatmat in *. cbn [apply negb]. repeat split.
    + intros v b Hsv.
      destruct (transpose_spec v r' b Hsv) as (Hst & _ & _).
      destruct (IHr _ b Hst) as (z & Hz & Hsz). rewrite Hz. cbn.
      eexists. split; [reflexivity|]. apply (transpose_spec z b c' Hsz).
    + intros u a Hsu.
      destruct (transpose_spec u a c' Hsu) as (Hst & _ & _).
      destruct (IHm _ a Hst) as (y & Hy & Hsy). rewrite Hy. cbn.
      eexists. split; [reflexivity|]. apply (transpose_spec y r' a Hsy).
    + intros u v a b y z Hsu Hsv Hy Hz i j Hi Hj.
      destruct (transpose_spec v r' b Hsv) as (Hsvt & _ & Evt).
      destruct (transpose_spec u a c' Hsu) as (Hsut & _ & Eut).
      destruct (IHr _ b Hsvt) as (z' & Hz' & Hsz').
      destruct (IHm _ a Hsut) as (y' & Hy' & Hsy').
      rewrite Hz' in Hy. cbn in Hy. injection Hy as <-.
      rewrite Hy' in Hz. cbn in Hz. injection Hz as <-.
      destruct (transpose_spec z' b c' Hsz') as (_ & _ & Ezt).
      destruct (transpose_spec y' r' a Hsy') as (_ & _ & Eyt).
      pose proof (IHd _ _ b a y' z' Hsvt Hsut Hy' Hz' j i Hj Hi) as E.
      transitivity (Rsum c' (fun k => em z' j k * em (transpose u) k i)).
      { apply Rsum_ext. intros k Hk.
        rewrite Ezt, Eut by assumption. ring. }
      rewrite <- E. apply Rsum_ext. intros k Hk.
      rewrite Eyt, Evt by assumption. ring.
Qed.

End LinearOperatorDuality.

Section LinearOperatorTheorems.
Import NP Operators LinearOperators.

Lemma in_shape_2d_inv (idx : list nat) (n p : nat) :
  in_shape idx [n; p] ->
  exists i j, idx = [i; j] /\ (i < n)%nat /\ (j < p)%nat.
Proof.
  intros H. inversion H as [|i n' r s' Hi Hr]; subst.
  inversion Hr as [|j p' r' s'' Hj Hr']; subst.
  inversion Hr'; subst. now exists i, j.
Qed.

(** X13. For a one-dimensional [diag] of length [n], [Diagonal._matmat]
    on an [n x b] array is the product of [to_dense()] with it, and
    [Diagonal._rmatmat] on an [a x n] array is its product with
    [to_dense()]. *)
Theorem Diagonal_apply_is_dense_matmul (d X U : ndarray) (n a b : nat) :
  shape d = [n] -> shape X = [n; b] -> shape U = [a; n] ->
  exists D Y Z,
    Diagonal_to_dense d = Some D /\ shape D = [n; n]
    /\ matmat (Diagonal_op d) X = Some Y /\ matmul D X = Some Y
    /\ rmatmat (Diagonal_op d) U = Some Z /\ matmul U D = Some Z.
Proof.
  intros Hd HX HU.
  destruct (diag_spec d n Hd) as (D & HD & HsD & HwD & ED).
  destruct (Diagonal_apply_spec d n Hd) as [HL HR].
  destruct (HL X b HX) as (Y & HY & HsY & HwY & EY).
  destruct (HR U a HU) as (Z & HZ & HsZ & HwZ & EZ).
  destruct (matmul_spec D X n n b HsD HX) as (Y' & HY' & HsY' & HwY' & EY').
  destruct (matmul_spec U D a n n HU HsD) as (Z' & HZ' & HsZ' & HwZ' & EZ').
  exists D, Y, Z. unfold Diagonal_to_dense.
  repeat split; try assumption.
  - rewrite HY'. f_equal. apply (matrix_ext n b); try assumption.
    intros i j Hi Hj. rewrite EY, EY' by assumption.
    rewrite (Rsum_ext n _ (fun k => if (k =? i)%nat
                                    then get d [k] * em X k j else 0)).
    + rewrite Rsum_delta. now destruct (Nat.ltb_spec i n); [|lia].
    + intros k Hk. rewrite ED by assumption.
      destruct (Nat.eqb_spec i k), (Nat.eqb_spec k i);
        subst; try congruence; ring.
  - rewrite HZ'. f_equal. apply (matrix_ext a n); try assumption.
    intros i j Hi Hj. rewrite EZ, EZ' by assumption.
    rewrite (Rsum_ext n _ (fun k => if (k =? j)%nat
                                    then get d [k] * em U i k else 0)).
    + rewrite Rsum_delta. now destruct (Nat.ltb_spec j n); [|lia].
    + intros k Hk. rewrite ED by assumption.
      destruct (Nat.eqb_spec k j); subst; ring.
Qed.

Lemma Diagonal_apply_is_dense_matmul_witness :
  exists D Y Z,
    Diagonal_to_dense (mk_ndarray [2%nat] [2; 3]) = Some D
    /\ shape D = [2%nat; 2%nat]
    /\ matmat (Diagonal_op (mk_ndarray [2%nat] [2; 3]))
         (mk_ndarray [2%nat; 1%nat] [1; 1]) = Some Y
    /\ matmul D (mk_ndarray [2%nat; 1%nat] [1; 1]) = Some Y
    /\ rmatmat (Diagonal_op (mk_ndarray [2%nat] [2; 3]))
         (mk_ndarray [1%nat; 2%nat] [1; 1]) = Some Z
    /\ matmul (mk_ndarray [1%nat; 2%nat] [1; 1]) D = Some Z.
Proof.
  apply (Diagonal_apply_is_dense_matmul (mk_ndarray [2%nat] [2; 3])
           (mk_ndarray [2%nat; 1%nat] [1; 1])
           (mk_ndarray [1%nat; 2%nat] [1; 1]) 2 1 1);
    reflexivity.
Defined.

(** X23. [Diagonal._dense_to_flat] undoes [Diagonal.to_dense]: for a
    one-dimensional [diag] whose entries fill its shape, the diagonal of the
    dense form is [diag] again. *)
Theorem Diagonal_dense_to_flat_to_dense (d : ndarray) (n : nat) :
  shape d = [n] -> wf d ->
  exists D,
    Diagonal_to_dense d = Some D /\ Diagonal_dense_to_flat D = Some d.
Proof.
  intros Hd Hw.
  destruct (diag_spec d n Hd) as (D & HD & HsD & _ & ED).
  exists D. split; [exact HD|].
  unfold Diagonal_dense_to_flat, diag. rewrite HsD, Nat.min_id. f_equal.
  apply ndarray_ext; [apply of_fun_wf | exact Hw | now rewrite Hd |].
  cbn [shape of_fun]. intros idx Hidx.
  rewrite get_of_fun by exact Hidx.
  inversion Hidx as [|i n' r s' Hi Hr]; subst. inversion Hr; subst.
  cbn [nth]. fold (em D i i). rewrite ED by assumption.
  now rewrite Nat.eqb_refl.
Qed.

Lemma Diagonal_dense_to_flat_to_dense_witness :
  exists D,
    Diagonal_to_dense (mk_ndarray [2%nat] [2; 3]) = Some D
    /\ Diagonal_dense_to_flat D = Some (mk_ndarray [2%nat] [2; 3]).
Proof.
  apply (Diagonal_dense_to_flat_to_dense (mk_ndarray [2%nat] [2; 3]) 2);
    reflexivity.
Defined.

(** X14. For an operator built from [Dense], [Diagonal] (of a
    one-dimensional array) and [Transpose], of shape [(r, c)]: [_matmat]
    takes a [c x b] array to an [r x b] one, [_rmatmat] takes an [a x r]
    array to an [a x c] one, and the two are the two sides of one matrix:
    [u @ A._matmat(v) = A._rmatmat(u) @ v]. *)
Theorem matmat_rmatmat_adjoint (A : linop) (r c a b : nat) (u v : ndarray) :
  vector_diagonals A -> linop_shape A = Some (r, c) ->
  shape u = [a; r] -> shape v = [c; b] ->
  exists y z w,
    matmat A v = Some y /\ shape y = [r; b]
    /\ rmatmat A u = Some z /\ shape z = [a; c]
    /\ matmul u y = Some w /\ matmul z v = Some w.
Proof.
  intros Hv Hs Hu Hsv.
  destruct (apply_spec A Hv r c Hs) as (Hm & Hr & Hd).
  destruct (Hm v b Hsv) as (y & Hy & Hsy).
  destruct (Hr u a Hu) as (z & Hz & Hsz).
  destruct (matmul_spec u y a r b Hu Hsy) as (w & Hw & Hsw & Hww & Ew).
  destruct (matmul_spec z v a c b Hsz Hsv) as (w' & Hw' & Hsw' & Hww' & Ew').
  exists y, z, w. repeat split; try assumption.
  rewrite Hw'. f_equal. apply (matrix_ext a b); try assumption.
  intros i j Hi Hj. rewrite Ew, Ew' by assumption.
  symmetry. now apply (Hd u v a b y z).
Qed.

Lemma matmat_rmatmat_adjoint_witness :
  exists y z w,
    matmat (Transpose_op (Diagonal_op (mk_ndarray [2%nat] [2; 3])))
      (mk_ndarray [2%nat; 1%nat] [1; 1]) = Some y
    /\ shape y = [2%nat; 1%nat]
    /\ rmatmat (Transpose_op (Diagonal_op (mk_ndarray [2%nat] [2; 3])))
         (mk_ndarray [1%nat; 2%nat] [1; 0]) = Some z
    /\ shape z = [1%nat; 2%nat]
    /\ matmul (mk_ndarray [1%nat; 2%nat] [1; 0]) y = Some w
    /\ matmul z (mk_ndarray [2%nat; 1%nat] [1; 1]) = Some w.
Proof.
  apply (matmat_rmatmat_adjoint
           (Transpose_op (Diagonal_op (mk_ndarray [2%nat] [2; 3])))
           2 2 1 1); reflexivity.
Defined.

(** X15. On a two-dimensional [X], [Transpose(Dense(A))] multiplies by the
    transposed array: [_matmat(X)] is [A.T @ X] and [_rmatmat(X)] is
    [X @ A.T], and each raises where that product does. *)
Theorem Transpose_Dense_is_transposed_matrix (M : Dense) (X : ndarray) :
  length (shape X) = 2%nat ->
  matmat (Transpose_op (Dense_op M)) X = matmul (transpose (to_array M)) X
  /\ rmatmat (Transpose_op (Dense_op M)) X
     = matmul X (transpose (to_array M)).
Proof.
  intros H2. unfold matmat, rmatmat. cbn [apply negb].
  destruct M as [[r c] dt dat]. unfold to_array. cbn [op_shape fst snd op_A].
  set (A := mk_ndarray [r; c] dat).
  assert (HA : shape A = [r; c]) by reflexivity.
  destruct (transpose_spec A r c HA) as (HsT & _ & ET).
  destruct (shape X) as [|n [|b [|? ?]]] eqn:HX; try discriminate.
  destruct (transpose_spec X n b HX) as (HsXt & _ & EXt).
  split.
  - unfold matmul at 1 2. rewrite HsXt, HsT, HX, HA.
    rewrite (Nat.eqb_sym r n).
    destruct (Nat.eqb_spec n r) as [->|]; [|reflexivity].
    cbn [option_map]. f_equal. unfold transpose at 1. cbn [shape of_fun rev app].
    apply of_fun_ext. intros idx Hidx.
    destruct (in_shape_2d_inv _ _ _ Hidx) as (i & j & -> & Hi & Hj).
    cbn [rev app nth]. rewrite get_of_fun by now apply in_shape_2d.
    cbn [nth]. apply Rsum_ext. intros k Hk.
    change (em (transpose X) j k * em A k i
            = em (transpose A) i k * em X k j).
    rewrite EXt, ET by assumption. ring.
  - unfold matmul at 1 2. rewrite HsXt, HsT, HX, HA.
    rewrite (Nat.eqb_sym c b).
    destruct (Nat.eqb_spec b c) as [->|]; [|reflexivity].
    cbn [option_map]. f_equal. unfold transpose at 1. cbn [shape of_fun rev app].
    apply of_fun_ext. intros idx Hidx.
    destruct (in_shape_2d_inv _ _ _ Hidx) as (i & j & -> & Hi & Hj).
    cbn [rev app nth]. rewrite get_of_fun by now apply in_shape_2d.
    cbn [nth]. apply Rsum_ext. intros k Hk.
    change (em A j k * em (transpose X) k i
            = em X i k * em (transpose A) k j).
    rewrite EXt, ET by assumption. ring.
Qed.

Lemma Transpose_Dense_is_transposed_matrix_witness :
  matmat (Transpose_op
            (Dense_op (mk_Dense (2%nat, 2%nat) float64 [1; 2; 3; 4])))
    (mk_ndarray [2%nat; 1%nat] [1; 1])
  = matmul (transpose
              (to_array (mk_Dense (2%nat, 2%nat) float64 [1; 2; 3; 4])))
      (mk_ndarray [2%nat; 1%nat] [1; 1])
  /\ rmatmat (Transpose_op
                (Dense_op (mk_Dense (2%nat, 2%nat) float64 [1; 2; 3; 4])))
       (mk_ndarray [2%nat; 1%nat] [1; 1])
     = matmul (mk_ndarray [2%nat; 1%nat] [1; 1])
         (transpose
            (to_array (mk_Dense (2%nat, 2%nat) float64 [1; 2; 3; 4]))).
Proof.
  apply (Transpose_Dense_is_transposed_matrix
           (mk_Dense (2%nat, 2%nat) float64 [1; 2; 3; 4])
           (mk_ndarray [2%nat; 1%nat] [1; 1])).
  reflexivity.
Defined.

(** X16. A double [Transpose] acts as its operand: on every
    two-dimensional array whose entries fill its shape,
    [Transpose(Transpose(A))] returns what [A] returns, from [_matmat] and
    from [_rmatmat], and raises where [A] does. *)
Theorem Transpose_Transpose_acts_as_operand (A : linop) (X : ndarray) :
  wf X -> length (shape X) = 2%nat ->
  matmat (Transpose_op (Transpose_op A)) X = matmat A X
  /\ rmatmat (Transpose_op (Transpose_op A)) X = rmatmat A X.
Proof.
  intros Hw _. unfold matmat, rmatmat. cbn [apply negb].
  rewrite (transpose_involutive X Hw).
  split.
  - destruct (apply false A X) as [Y|] eqn:E; [|reflexivity].
    cbn [option_map]. f_equal. apply transpose_involutive.
    now apply (apply_wf A false X).
  - destruct (apply true A X) as [Y|] eqn:E; [|reflexivity].
    cbn [option_map]. f_equal. apply transpose_involutive.
    now apply (apply_wf A true X).
Qed.

Lemma Transpose_Transpose_acts_as_operand_witness :
  matmat (Transpose_op (Transpose_op
            (Dense_op (mk_Dense (2%nat, 2%nat) float64 [1; 2; 3; 4]))))
    (mk_ndarray [2%nat; 1%nat] [1; 1])
  = matmat (Dense_op (mk_Dense (2%nat, 2%nat) float64 [1; 2; 3; 4]))
      (mk_ndarray [2%nat; 1%nat] [1; 1])
  /\ rmatmat (Transpose_op (Transpose_op
                (Dense_op (mk_Dense (2%nat, 2%nat) float64 [1; 2; 3; 4]))))
       (mk_ndarray [2%nat; 1%nat] [1; 1])
     = rmatmat (Dense_op (mk_Dense (2%nat, 2%nat) float64 [1; 2; 3; 4]))
         (mk_ndarray [2%nat; 1%nat] [1; 1]).
Proof.
  apply (Transpose_Transpose_acts_as_operand
           (Dense_op (mk_Dense (2%nat, 2%nat) float64 [1; 2; 3; 4]))
           (mk_ndarray [2%nat; 1%nat] [1; 1])); reflexivity.
Defined.

End LinearOperatorTheorems.

Section CompositeActionTheorems.
Import NP Operators LinearOperators.

Lemma matmul_assoc (a b c ab bc : ndarray) (m n p q : nat) :
  shape a = [m; n] -> shape b = [n; p] -> shape c = [p; q] ->
  matmul a b = Some ab -> matmul b c = Some bc ->
  exists w, matmul a bc = Some w /\ matmul ab c = Some w
            /\ shape w = [m; q].
Proof.
  intros Ha Hb Hc Hab Hbc.
  destruct (matmul_entries _ _ _ m n p Ha Hb Hab) as (Hsab & _ & Eab).
  destruct (matmul_entries _ _ _ n p q Hb Hc Hbc) as (Hsbc & _ & Ebc).
  destruct (matmul_spec a bc m n q Ha Hsbc) as (w & Hw & Hsw & Hww & Ew).
  destruct (matmul_spec ab c m p q Hsab Hc) as (w' & Hw' & Hsw' & Hww' & Ew').
  exists w. split; [exact Hw|]. split; [|exact Hsw].
  rewrite Hw'. f_equal. apply (matrix_ext m q); try assumption.
  intros i j Hi Hj. rewrite Ew, Ew' by assumption.
  transitivity (Rsum p (fun l => Rsum n (fun k =>
                  em a i k * em b k l * em c l j))).
  { apply Rsum_ext. intros l Hl. rewrite Eab by assumption.
    rewrite Rsum_scal_r. reflexivity. }
  rewrite Rsum_swap. apply Rsum_ext. intros k Hk.
  rewrite Ebc by assumption. rewrite Rsum_scal.
  apply Rsum_ext. intros l _. ring.
Qed.

Lemma to_array_shape (M : Dense) :
  shape (to_array M) = [fst (op_shape M); snd (op_shape M)].
Proof. reflexivity. Qed.

Lemma Product_loops_adjoint (Ms : list Dense) :
  forall (M0 : Dense) (u v : ndarray) (a b : nat),
  inner_dims_agree (M0 :: Ms) ->
  shape u = [a; fst (op_shape M0)] ->
  shape v = [snd (op_shape (last (M0 :: Ms) M0)); b] ->
  exists y z w,
    Product_loop (rev (M0 :: Ms)) v = Some y
    /\ shape y = [fst (op_shape M0); b]
    /\ Product_rloop (M0 :: Ms) u = Some z
    /\ shape z = [a; snd (op_shape (last (M0 :: Ms) M0))]
    /\ matmul u y = Some w /\ matmul z v = Some w.
Proof.
  induction Ms as [|M1 Ms IH]; intros M0 u v a b Hc Hu Hv.
  - cbn [last] in *. cbn [rev app Product_loop Product_rloop].
    unfold op_matmul, op_rmatmul.
    destruct (matmul_spec _ _ _ _ b (to_array_shape M0) Hv)
      as (y & Hy & Hsy & _).
    destruct (matmul_spec _ _ a _ _ Hu (to_array_shape M0))
      as (z & Hz & Hsz & _).
    destruct (matmul_assoc _ _ _ _ _ _ _ _ _ Hu (to_array_shape M0) Hv Hz Hy)
      as (w & Hw1 & Hw2 & _).
    rewrite Hy, Hz. exists y, z, w. repeat split; assumption.
  - destruct Hc as [Hd Hc].
    assert (Hl : last (M0 :: M1 :: Ms) M0 = last (M1 :: Ms) M1).
    { change (last (M0 :: M1 :: Ms) M0) with (last (M1 :: Ms) M0).
      apply last_nonempty_default. }
    rewrite Hl in *.
    destruct (matmul_spec _ _ a _ _ Hu (to_array_shape M0))
      as (u1 & Hu1 & Hsu1 & _).
    rewrite Hd in Hsu1.
    destruct (IH M1 u1 v a b Hc Hsu1 Hv)
      as (y' & z & w & Hy' & Hsy' & Hz & Hsz & Hw1 & Hw2).
    change (rev (M0 :: M1 :: Ms)) with (rev (M1 :: Ms) ++ [M0]).
    rewrite Product_loop_app, Hy'. cbn [Product_loop Product_rloop].
    unfold op_matmul, op_rmatmul at 1. rewrite Hu1.
    assert (HA : shape (to_array M0)
                 = [fst (op_shape M0); fst (op_shape M1)]).
    { rewrite to_array_shape. now rewrite Hd. }
    destruct (matmul_spec _ _ _ _ b HA Hsy') as (y & Hy & Hsy & _).
    rewrite Hy.
    destruct (matmul_assoc _ _ _ _ _ _ _ _ _ Hu HA Hsy' Hu1 Hy)
      as (w' & Hw1' & Hw2' & _).
    exists y, z, w. repeat split; try assumption.
    rewrite Hw1'. now rewrite <- Hw2'.
Qed.

Lemma Product_init_accepts (Ms : list Dense) (self : instance) :
  Product_init Ms fresh = (self, None) ->
  inner_dims_agree Ms /\ Ms <> [] /\ self_Ms self = Some Ms.
Proof.
  unfold Product_init. intros H.
  destruct (Product_check_spec Ms) as [_ P2].
  destruct (Product_check (combine (removelast Ms) (tl Ms))) eqn:E;
    [discriminate|].
  assert (D : forall l, inner_dims_agree l \/ ~ inner_dims_agree l).
  { induction l as [|M1 l IHl]; [now left|].
    destruct l as [|M2 l]; [now left|].
    cbn [inner_dims_agree].
    destruct (Nat.eq_dec (snd (op_shape M1)) (fst (op_shape M2)));
      destruct IHl; tauto. }
  split.
  { destruct (D Ms) as [HC|HC]; [exact HC|].
    destruct (P2 HC) as (s1 & s2 & E'). congruence. }
  destruct Ms as [|M0 Ms]; [discriminate|].
  split; [discriminate|]. injection H as <-. reflexivity.
Qed.

(** X17. For a [Product] that [__init__] accepted, of operands
    [M0, ..., Mk]: [_matmat] takes an array [v] with the rows of [Mk]'s
    columns, [_rmatmat] takes an array [u] with the columns of [M0]'s rows,
    and the two are the two sides of one matrix:
    [u @ P._matmat(v) = P._rmatmat(u) @ v]. *)
Theorem Product_matmat_rmatmat_adjoint (M0 : Dense) (Ms : list Dense)
    (self : instance) (u v : ndarray) (a b : nat) :
  Product_init (M0 :: Ms) fresh = (self, None) ->
  shape u = [a; fst (op_shape M0)] ->
  shape v = [snd (op_shape (last (M0 :: Ms) M0)); b] ->
  exists y z w,
    Product_matmat self v = Some y
    /\ shape y = [fst (op_shape M0); b]
    /\ Product_rmatmat self u = Some z
    /\ shape z = [a; snd (op_shape (last (M0 :: Ms) M0))]
    /\ matmul u y = Some w /\ matmul z v = Some w.
Proof.
  intros Hinit Hu Hv.
  destruct (Product_init_accepts _ _ Hinit) as (Hc & _ & HMs).
  unfold Product_matmat, Product_rmatmat. rewrite HMs.
  now apply Product_loops_adjoint.
Qed.

Lemma Product_matmat_rmatmat_adjoint_witness :
  exists y z w,
    Product_matmat
      (mk_instance
         (Some [mk_Dense (2%nat, 2%nat) float64 [1; 2; 3; 4];
                mk_Dense (2%nat, 1%nat) float64 [5; 6]])
         (Some float64) (Some (2%nat, 1%nat)))
      (mk_ndarray [1%nat; 1%nat] [1]) = Some y
    /\ shape y = [2%nat; 1%nat]
    /\ Product_rmatmat
         (mk_instance
            (Some [mk_Dense (2%nat, 2%nat) float64 [1; 2; 3; 4];
                   mk_Dense (2%nat, 1%nat) float64 [5; 6]])
            (Some float64) (Some (2%nat, 1%nat)))
         (mk_ndarray [1%nat; 2%nat] [1; 0]) = Some z
    /\ shape z = [1%nat; 1%nat]
    /\ matmul (mk_ndarray [1%nat; 2%nat] [1; 0]) y = Some w
    /\ matmul z (mk_ndarray [1%nat; 1%nat] [1]) = Some w.
Proof.
  apply (Product_matmat_rmatmat_adjoint
           (mk_Dense (2%nat, 2%nat) float64 [1; 2; 3; 4])
           [mk_Dense (2%nat, 1%nat) float64 [5; 6]]
           (mk_instance
              (Some [mk_Dense (2%nat, 2%nat) float64 [1; 2; 3; 4];
                     mk_Dense (2%nat, 1%nat) float64 [5; 6]])
              (Some float64) (Some (2%nat, 1%nat)))
           (mk_ndarray [1%nat; 2%nat] [1; 0])
           (mk_ndarray [1%nat; 1%nat] [1]) 1 1); reflexivity.
Defined.

(** Entry [(i, k)] of the sum of the arrays the operands wrap. *)
Fixpoint entry_sum (Ms : list Dense) (i k : nat) : R :=
  match Ms with
  | [] => 0
  | M :: Ms' => em (to_array M) i k + entry_sum Ms' i k
  end.

Lemma Sum_loop_entries (Ms : list Dense) (r c b : nat) (v : ndarray) :
  Forall (fun M => op_shape M = (r, c)) Ms -> shape v = [c; b] ->
  forall acc, shape acc = [r; b] ->
  exists y, Sum_loop Ms v acc = Some y /\ shape y = [r; b]
    /\ forall i j, (i < r)%nat -> (j < b)%nat ->
         em y i j
         = em acc i j + Rsum c (fun k => entry_sum Ms i k * em v k j).
Proof.
  intros HF Hv. induction HF as [|M Ms HM _ IH]; intros acc Hacc.
  - exists acc. split; [reflexivity|]. split; [exact Hacc|].
    intros i j _ _. cbn [entry_sum].
    rewrite (Rsum_ext c _ (fun _ => 0)) by (intros; ring).
    rewrite Rsum_zero. ring.
  - cbn [Sum_loop]. unfold op_matmul.
    assert (HA : shape (to_array M) = [r; c]).
    { rewrite to_array_shape, HM. reflexivity. }
    destruct (matmul_spec _ _ r c b HA Hv) as (y & Hy & Hsy & _ & Ey).
    rewrite Hy. rewrite binop_same_shape by congruence.
    destruct (IH (of_fun (shape acc)
                    (fun idx => get acc idx + get y idx)))
      as (y' & Hy' & Hsy' & Ey'); [exact Hacc|].
    exists y'. split; [exact Hy'|]. split; [exact Hsy'|].
    intros i j Hi Hj. rewrite Ey' by assumption. rewrite Hacc.
    rewrite em_of_fun by assumption. fold (em acc i j) (em y i j).
    rewrite Ey by assumption. cbn [entry_sum].
    rewrite (Rsum_ext c (fun k => (em (to_array M) i k + entry_sum Ms i k)
                                  * em v k j)
               (fun k => em (to_array M) i k * em v k j
                         + entry_sum Ms i k * em v k j))
      by (intros; ring).
    rewrite Rsum_plus. ring.
Qed.

Lemma Sum_rloop_entries (Ms : list Dense) (r c a : nat) (u : ndarray) :
  Forall (fun M => op_shape M = (r, c)) Ms -> shape u = [a; r] ->
  forall acc, shape acc = [a; c] ->
  exists z, Sum_rloop Ms u acc = Some z /\ shape z = [a; c]
    /\ forall i j, (i < a)%nat -> (j < c)%nat ->
         em z i j
         = em acc i j + Rsum r (fun k => em u i k * entry_sum Ms k j).
Proof.
  intros HF Hu. induction HF as [|M Ms HM _ IH]; intros acc Hacc.
  - exists acc. split; [reflexivity|]. split; [exact Hacc|].
    intros i j _ _. cbn [entry_sum].
    rewrite (Rsum_ext r _ (fun _ => 0)) by (intros; ring).
    rewrite Rsum_zero. ring.
  - cbn [Sum_rloop]. unfold op_rmatmul.
    assert (HA : shape (to_array M) = [r; c]).
    { rewrite to_array_shape, HM. reflexivity. }
    destruct (matmul_spec _ _ a r c Hu HA) as (y & Hy & Hsy & _ & Ey).
    rewrite Hy. rewrite binop_same_shape by congruence.
    destruct (IH (of_fun (shape acc)
                    (fun idx => get acc idx + get y idx)))
      as (z & Hz & Hsz & Ez); [exact Hacc|].
    exists z. split; [exact Hz|]. split; [exact Hsz|].
    intros i j Hi Hj. rewrite Ez by assumption. rewrite Hacc.
    rewrite em_of_fun by assumption. fold (em acc i j) (em y i j).
    rewrite Ey by assumption. cbn [entry_sum].
    rewrite (Rsum_ext r (fun k => em u i k
                                  * (em (to_array M) k j + entry_sum Ms k j))
               (fun k => em u i k * em (to_array M) k j
                         + em u i k * entry_sum Ms k j))
      by (intros; ring).
    rewrite Rsum_plus. ring.
Qed.

(** X18. A [Sum] of operands of one shape [(r, c)] acts as the sum of the
    arrays they wrap: [_matmat] takes a [c x b] array [v] to
    [(A0 + ... + Ak) @ v], and [_rmatmat] takes an [a x r] array [u] to
    [u @ (A0 + ... + Ak)]. *)
Theorem Sum_apply_is_sum_of_operands (M0 : Dense) (Ms : list Dense)
    (r c a b : nat) (u v : ndarray) :
  Forall (fun M => op_shape M = (r, c)) (M0 :: Ms) ->
  shape u = [a; r] -> shape v = [c; b] ->
  exists y z,
    Sum_matmat (fst (Sum_init (M0 :: Ms) fresh)) v = Some y
    /\ shape y = [r; b]
    /\ (forall i j, (i < r)%nat -> (j < b)%nat ->
          em y i j
          = Rsum c (fun k => entry_sum (M0 :: Ms) i k * em v k j))
    /\ Sum_rmatmat (fst (Sum_init (M0 :: Ms) fresh)) u = Some z
    /\ shape z = [a; c]
    /\ (forall i j, (i < a)%nat -> (j < c)%nat ->
          em z i j
          = Rsum r (fun k => em u i k * entry_sum (M0 :: Ms) k j)).
Proof.
  intros HF Hu Hv.
  assert (HMs : self_Ms (fst (Sum_init (M0 :: Ms) fresh)) = Some (M0 :: Ms)).
  { unfold Sum_init.
    now destruct (Sum_check (op_shape M0) (M0 :: Ms)). }
  unfold Sum_matmat, Sum_rmatmat. rewrite HMs.
  inversion HF as [|? ? HM0 HF']; subst.
  assert (HA : shape (to_array M0) = [r; c]).
  { rewrite to_array_shape, HM0. reflexivity. }
  cbn [Sum_loop Sum_rloop]. unfold op_matmul, op_rmatmul.
  destruct (matmul_spec _ _ r c b HA Hv) as (y0 & Hy0 & Hsy0 & _ & Ey0).
  destruct (matmul_spec _ _ a r c Hu HA) as (z0 & Hz0 & Hsz0 & _ & Ez0).
  rewrite Hy0, Hz0, !binop_scalar_l.
  destruct (Sum_loop_entries Ms r c b v HF' Hv
              (of_fun (shape y0) (fun idx => 0 + get y0 idx)))
    as (y & Hy & Hsy & Ey); [exact Hsy0|].
  destruct (Sum_rloop_entries Ms r c a u HF' Hu
              (of_fun (shape z0) (fun idx => 0 + get z0 idx)))
    as (z & Hz & Hsz & Ez); [exact Hsz0|].
  exists y, z. repeat split; try assumption.
  - intros i j Hi Hj. rewrite Ey by assumption. rewrite Hsy0.
    rewrite em_of_fun by assumption. fold (em y0 i j).
    rewrite Ey0 by assumption. cbn [entry_sum].
    rewrite (Rsum_ext c (fun k => (em (to_array M0) i k + entry_sum Ms i k)
                                  * em v k j)
               (fun k => em (to_array M0) i k * em v k j
                         + entry_sum Ms i k * em v k j))
      by (intros; ring).
    rewrite Rsum_plus. ring.
  - intros i j Hi Hj. rewrite Ez by assumption. rewrite Hsz0.
    rewrite em_of_fun by assumption. fold (em z0 i j).
    rewrite Ez0 by assumption. cbn [entry_sum].
    rewrite (Rsum_ext r (fun k => em u i k
                                  * (em (to_array M0) k j + entry_sum Ms k j))
               (fun k => em u i k * em (to_array M0) k j
                         + em u i k * entry_sum Ms k j))
      by (intros; ring).
    rewrite Rsum_plus. ring.
Qed.

Lemma Sum_apply_is_sum_of_operands_witness :
  exists y z,
    Sum_matmat
      (fst (Sum_init [mk_Dense (1%nat, 2%nat) float64 [1; 2];
                      mk_Dense (1%nat, 2%nat) float64 [3; 4]] fresh))
      (mk_ndarray [2%nat; 1%nat] [1; 1]) = Some y
    /\ shape y = [1%nat; 1%nat]
    /\ (forall i j, (i < 1)%nat -> (j < 1)%nat ->
          em y i j
          = Rsum 2 (fun k =>
              entry_sum [mk_Dense (1%nat, 2%nat) float64 [1; 2];
                         mk_Dense (1%nat, 2%nat) float64 [3; 4]] i k
              * em (mk_ndarray [2%nat; 1%nat] [1; 1]) k j))
    /\ Sum_rmatmat
         (fst (Sum_init [mk_Dense (1%nat, 2%nat) float64 [1; 2];
                         mk_Dense (1%nat, 2%nat) float64 [3; 4]] fresh))
         (mk_ndarray [1%nat; 1%nat] [1]) = Some z
    /\ shape z = [1%nat; 2%nat]
    /\ (forall i j, (i < 1)%nat -> (j < 2)%nat ->
          em z i j
          = Rsum 1 (fun k =>
              em (mk_ndarray [1%nat; 1%nat] [1]) i k
              * entry_sum [mk_Dense (1%nat, 2%nat) float64 [1; 2];
                           mk_Dense (1%nat, 2%nat) float64 [3; 4]] k j)).
Proof.
  apply (Sum_apply_is_sum_of_operands
           (mk_Dense (1%nat, 2%nat) float64 [1; 2])
           [mk_Dense (1%nat, 2%nat) float64 [3; 4]] 1 2 1 1
           (mk_ndarray [1%nat; 1%nat] [1])
           (mk_ndarray [2%nat; 1%nat] [1; 1])).
  - repeat constructor.
  - reflexivity.
  - reflexivity.
Defined.

(** X19. [ScalarMul._matmat] keeps the shape of its input and multiplies
    each entry by [c]; two of them compose to the one of the product of
    their scalars; and the [_matmat] of an [Identity] returns every array
    whose entries fill its shape unchanged. *)
Theorem ScalarMul_matmat_scales (c d : R) (v : ndarray) :
  exists y,
    ScalarMul_matmat d v = Some y
    /\ shape y = shape v
    /\ (forall idx, in_shape idx (shape v) -> get y idx = d * get v idx)
    /\ ScalarMul_matmat c y = ScalarMul_matmat (c * d) v
    /\ (wf v -> Identity_matmat v = Some v).
Proof.
  unfold Identity_matmat, ScalarMul_matmat. rewrite !binop_scalar_l.
  eexists. split; [reflexivity|]. split; [reflexivity|].
  split; [intros idx Hidx; now rewrite get_of_fun|].
  split.
  - rewrite binop_scalar_l. cbn [shape of_fun]. f_equal.
    apply of_fun_ext. intros idx Hidx. rewrite get_of_fun by exact Hidx.
    ring.
  - intros Hw. f_equal. transitivity (of_fun (shape v) (get v)).
    + apply of_fun_ext. intros idx _. ring.
    + now apply of_fun_get.
Qed.

End CompositeActionTheorems.

(** ** [Tridiagonal._matmat] on diagonals given as columns *)

Section TridiagonalColumnFacts.
Import NP Operators.

Lemma find_last_seq (i k : nat) :
  forall a p,
    find_last i (seq a k) p
    = if (a <=? i)%nat && (i <? a + k)%nat
      then Some (p + (i - a))%nat else None.
Proof.
  induction k as [|k IH]; intros a p; cbn [seq find_last].
  - destruct (Nat.leb_spec a i), (Nat.ltb_spec i (a + 0)); cbn; try lia;
      reflexivity.
  - rewrite IH.
    destruct (Nat.leb_spec (S a) i), (Nat.ltb_spec i (S a + k)),
             (Nat.leb_spec a i), (Nat.ltb_spec i (a + S k)),
             (Nat.eqb_spec i a); cbn; try lia; try reflexivity;
      f_equal; lia.
Qed.

Lemma bget_column (a : ndarray) (n i j : nat) :
  shape a = [n; 1%nat] -> (i < n)%nat ->
  bget a [i; j] = nth i (data a) 0.
Proof.
  intros Ha Hi. destruct a as [s dat]. simpl in Ha. subst s.
  unfold bget, get. cbn.
  destruct (Nat.eqb_spec n 1); f_equal; lia.
Qed.

Lemma binop_column (op : R -> R -> R) (a X : ndarray) (n b : nat) :
  shape a = [n; 1%nat] -> shape X = [n; b] ->
  exists Y, binop op a X = Some Y /\ shape Y = [n; b] /\ wf Y
    /\ forall i j, (i < n)%nat -> (j < b)%nat ->
         em Y i j = op (nth i (data a) 0) (em X i j).
Proof.
  intros Ha HX. unfold binop. rewrite Ha, HX.
  rewrite broadcast_col. eexists. split; [reflexivity|]. split; [reflexivity|].
  split; [apply of_fun_wf|]. intros i j Hi Hj.
  rewrite em_of_fun by assumption.
  rewrite (bget_column a n i j Ha Hi).
  rewrite bget_self by (rewrite HX; now apply in_shape_2d).
  reflexivity.
Qed.

Lemma find_last_bound (i : nat) (ind : list nat) :
  forall p k, find_last i ind p = Some k ->
              (p <= k < p + length ind)%nat.
Proof.
  induction ind as [|j ind IH]; intros p k; cbn [find_last length];
    [discriminate|].
  destruct (find_last i ind (S p)) as [k'|] eqn:E.
  - intros H. injection H as <-. apply IH in E. lia.
  - destruct (i =? j)%nat; [|discriminate].
    intros H. injection H as <-. lia.
Qed.

Lemma update_rows_entries (a vals : ndarray) (ind : list nat) (n b : nat) :
  shape a = [n; b] -> shape vals = [length ind; b] ->
  forallb (fun i => (i <? n)%nat) ind = true ->
  exists Y, update_rows a vals ind = Some Y /\ shape Y = [n; b] /\ wf Y
    /\ forall i j, (i < n)%nat -> (j < b)%nat ->
         em Y i j = match find_last i ind 0 with
                    | Some k => em vals k j
                    | None => em a i j
                    end.
Proof.
  intros Ha Hv Hind. unfold update_rows. rewrite Ha, Hind, Hv.
  rewrite broadcast_shapes_same, shape_eqb_refl.
  eexists. split; [reflexivity|]. split; [reflexivity|].
  split; [apply of_fun_wf|]. intros i j Hi Hj.
  rewrite em_of_fun by assumption.
  destruct (find_last i ind 0) as [k|] eqn:E; [|reflexivity].
  apply find_last_bound in E.
  apply bget_self. rewrite Hv. apply in_shape_2d; [lia | exact Hj].
Qed.

Lemma iadd_entries (a c : ndarray) (n b : nat) :
  shape a = [n; b] -> shape c = [n; b] ->
  exists Y, iadd a c = Some Y /\ shape Y = [n; b] /\ wf Y
    /\ forall i j, (i < n)%nat -> (j < b)%nat ->
         em Y i j = em a i j + em c i j.
Proof.
  intros Ha Hc. unfold iadd. rewrite binop_same_shape by congruence.
  cbn [shape of_fun]. rewrite shape_eqb_refl.
  eexists. split; [reflexivity|]. rewrite Ha.
  split; [reflexivity|]. split; [apply of_fun_wf|].
  intros i j Hi Hj. now rewrite em_of_fun by assumption.
Qed.

Lemma drop_last_row_entries (X : ndarray) (n b : nat) :
  shape X = [n; b] ->
  exists Y, drop_last_row X = Some Y /\ shape Y = [(n - 1)%nat; b]
    /\ forall i j, (i < n - 1)%nat -> (j < b)%nat -> em Y i j = em X i j.
Proof.
  intros HX. unfold drop_last_row. rewrite HX.
  eexists. split; [reflexivity|]. split; [reflexivity|].
  intros i j Hi Hj. unfold em, get. cbn [shape data]. rewrite HX.
  cbn [ravel size fold_right]. rewrite nth_firstn.
  destruct (Nat.ltb_spec (i * (b * 1) + (j * 1 + 0)) ((n - 1) * (b * 1)));
    [reflexivity | nia].
Qed.

Lemma drop_first_row_entries (X : ndarray) (n b : nat) :
  shape X = [n; b] ->
  exists Y, drop_first_row X = Some Y /\ shape Y = [(n - 1)%nat; b]
    /\ forall i j, em Y i j = em X (S i) j.
Proof.
  intros HX. unfold drop_first_row. rewrite HX.
  eexists. split; [reflexivity|]. split; [reflexivity|].
  intros i j. unfold em, get. cbn [shape data]. rewrite HX.
  cbn [ravel size fold_right]. rewrite nth_skipn. f_equal. lia.
Qed.

Lemma nth_map_seq (f : nat -> R) (n i : nat) :
  (i < n)%nat -> nth i (map f (seq 0 n)) 0 = f i.
Proof.
  intros Hi. rewrite nth_indep with (d' := f 0%nat)
    by (rewrite length_map, length_seq; exact Hi).
  rewrite map_nth, seq_nth by exact Hi. reflexivity.
Qed.

Lemma nth_column (X : ndarray) (n b i j : nat) :
  shape X = [n; b] -> (i < n)%nat -> nth i (column X j) 0 = em X i j.
Proof.
  intros HX Hi. unfold column. rewrite HX. cbn [hd].
  now rewrite nth_map_seq.
Qed.

Lemma column_length (X : ndarray) (n b j : nat) :
  shape X = [n; b] -> length (column X j) = n.
Proof.
  intros HX. unfold column. rewrite HX. cbn [hd].
  now rewrite length_map, length_seq.
Qed.

Lemma index_array_seq (a k : nat) :
  (0 < k)%nat -> index_array (seq a k) = Some (seq a k).
Proof. intros Hk. destruct k; [lia | reflexivity]. Qed.

Lemma forallb_seq_lt (a k n : nat) :
  (k = 0 \/ a + k <= n)%nat ->
  forallb (fun i => (i <? n)%nat) (seq a k) = true.
Proof.
  intros H. apply forallb_forall. intros i Hi. apply in_seq in Hi.
  apply Nat.ltb_lt. lia.
Qed.

(** C8, amended.  With the diagonals given as columns ([alpha] and
    [gamma] of shape [(n-1, 1)], [beta] of shape [(n, 1)]) and [n >= 2],
    [Tridiagonal._matmat] takes a batch [X] of shape [(n, b)] to an array
    of that shape whose column [j] is the banded stencil of column [j] of
    [X]. *)
Theorem Tridiagonal_matmat_column_diagonals (T : Tridiagonal) (X : ndarray)
    (n b : nat) :
  (2 <= n)%nat ->
  shape (tri_alpha T) = [(n - 1)%nat; 1%nat] ->
  shape (tri_beta T) = [n; 1%nat] ->
  shape (tri_gamma T) = [(n - 1)%nat; 1%nat] ->
  shape X = [n; b] ->
  exists Y,
    Tridiagonal_matmat T X = Some Y /\ shape Y = [n; b] /\ wf Y
    /\ forall i j, (i < n)%nat -> (j < b)%nat ->
         get Y [i; j]
         = tridiagonal_stencil (data (tri_alpha T)) (data (tri_beta T))
             (data (tri_gamma T)) (column X j) i.
Proof.
  intros Hn Ha Hb Hg HX. unfold Tridiagonal_matmat.
  destruct (binop_column Rmult _ X n b Hb HX) as (o1 & Ho1 & Hso1 & _ & Eo1).
  rewrite Ho1.
  destruct (drop_last_row_entries X n b HX) as (Xh & HXh & HsXh & EXh).
  rewrite HXh.
  destruct (binop_column Rmult _ Xh _ b Ha HsXh)
    as (ua & Hua & Hsua & _ & Eua).
  rewrite Hua. rewrite Ha. cbn [hd].
  assert (Hinda : map (fun i => (i + 1)%nat) (seq 0 (n - 1)) = seq 1 (n - 1)).
  { rewrite <- seq_shift. apply map_ext. intros i. lia. }
  rewrite Hinda, index_array_seq by lia.
  assert (Hz : shape (zeros (shape X)) = [n; b]) by (now rewrite HX).
  destruct (update_rows_entries (zeros (shape X)) ua (seq 1 (n - 1)) n b Hz)
    as (aa & Haa & Hsaa & _ & Eaa).
  { now rewrite length_seq. }
  { apply forallb_seq_lt. lia. }
  rewrite Haa.
  destruct (iadd_entries o1 aa n b Hso1 Hsaa) as (o2 & Ho2 & Hso2 & _ & Eo2).
  rewrite Ho2.
  destruct (drop_first_row_entries X n b HX) as (Xt & HXt & HsXt & EXt).
  rewrite HXt.
  destruct (binop_column Rmult _ Xt _ b Hg HsXt)
    as (ug & Hug & Hsug & _ & Eug).
  rewrite Hug. rewrite Hg. cbn [hd]. rewrite index_array_seq by lia.
  destruct (update_rows_entries (zeros (shape X)) ug (seq 0 (n - 1)) n b Hz)
    as (ag & Hag & Hsag & _ & Eag).
  { now rewrite length_seq. }
  { apply forallb_seq_lt. lia. }
  rewrite Hag.
  destruct (iadd_entries o2 ag n b Hso2 Hsag) as (Y & HY & HsY & HwY & EY).
  exists Y. split; [exact HY|]. split; [exact HsY|]. split; [exact HwY|].
  intros i j Hi Hj. fold (em Y i j).
  rewrite EY, Eo2, Eo1, Eaa, Eag by assumption.
  rewrite !find_last_seq. unfold tridiagonal_stencil.
  rewrite (column_length X n b j HX).
  rewrite (nth_column X n b i j HX Hi).
  assert (Hzero : em (zeros (shape X)) i j = 0).
  { unfold zeros. rewrite HX. now rewrite em_of_fun by assumption. }
  rewrite Hzero.
  f_equal; [f_equal|].
  - destruct (Nat.leb_spec 1 i), (Nat.ltb_spec i (1 + (n - 1))),
             (Nat.ltb_spec 0 i); cbn [andb]; try lia; try reflexivity.
    cbn [Nat.add]. rewrite Eua, EXh by lia.
    rewrite (nth_column X n b (i - 1) j HX) by lia. reflexivity.
  - destruct (Nat.leb_spec 0 i), (Nat.ltb_spec i (0 + (n - 1))),
             (Nat.ltb_spec (i + 1) n); cbn [andb];
      try lia; try reflexivity.
    cbn [Nat.add]. rewrite Nat.sub_0_r. rewrite Eug, EXt by lia.
    rewrite (nth_column X n b (i + 1) j HX) by lia.
    now rewrite Nat.add_1_r.
Qed.

Lemma Tridiagonal_matmat_column_diagonals_witness :
  exists Y,
    Tridiagonal_matmat
      (mk_Tridiagonal (mk_ndarray [1%nat; 1%nat] [5])
         (mk_ndarray [2%nat; 1%nat] [1; 2])
         (mk_ndarray [1%nat; 1%nat] [7]))
      (mk_ndarray [2%nat; 2%nat] [1; 1; 0; 0]) = Some Y
    /\ shape Y = [2%nat; 2%nat] /\ wf Y
    /\ forall i j, (i < 2)%nat -> (j < 2)%nat ->
         get Y [i; j]
         = tridiagonal_stencil [5] [1; 2] [7]
             (column (mk_ndarray [2%nat; 2%nat] [1; 1; 0; 0]) j) i.
Proof.
  apply (Tridiagonal_matmat_column_diagonals
           (mk_Tridiagonal (mk_ndarray [1%nat; 1%nat] [5])
              (mk_ndarray [2%nat; 1%nat] [1; 2])
              (mk_ndarray [1%nat; 1%nat] [7]))
           (mk_ndarray [2%nat; 2%nat] [1; 1; 0; 0]) 2 2);
    [lia | reflexivity ..].
Defined.

Lemma in_shape_1d (i n : nat) : (i < n)%nat -> in_shape [i] [n].
Proof. intros Hi. now repeat constructor. Qed.

Lemma binop_vector (op : R -> R -> R) (a X : ndarray) (n : nat) :
  shape a = [n] -> shape X = [n] ->
  exists Y, binop op a X = Some Y /\ shape Y = [n]
    /\ forall i, (i < n)%nat -> get Y [i] = op (get a [i]) (get X [i]).
Proof.
  intros Ha HX. rewrite binop_same_shape by congruence. rewrite Ha.
  eexists. split; [reflexivity|]. split; [reflexivity|].
  intros i Hi. now rewrite get_of_fun by now apply in_shape_1d.
Qed.

Lemma update_rows_vector (a vals : ndarray) (ind : list nat) (n : nat) :
  shape a = [n] -> shape vals = [length ind] ->
  forallb (fun i => (i <? n)%nat) ind = true ->
  exists Y, update_rows a vals ind = Some Y /\ shape Y = [n]
    /\ forall i, (i < n)%nat ->
         get Y [i] = match find_last i ind 0 with
                     | Some k => get vals [k]
                     | None => get a [i]
                     end.
Proof.
  intros Ha Hv Hind. unfold update_rows. rewrite Ha, Hind, Hv.
  rewrite broadcast_shapes_same, shape_eqb_refl.
  eexists. split; [reflexivity|]. split; [reflexivity|].
  intros i Hi. rewrite get_of_fun by now apply in_shape_1d.
  destruct (find_last i ind 0) as [k|] eqn:E; [|reflexivity].
  apply find_last_bound in E.
  apply bget_self. rewrite Hv. apply in_shape_1d. lia.
Qed.

Lemma iadd_vector (a c : ndarray) (n : nat) :
  shape a = [n] -> shape c = [n] ->
  exists Y, iadd a c = Some Y /\ shape Y = [n] /\ wf Y
    /\ forall i, (i < n)%nat -> get Y [i] = get a [i] + get c [i].
Proof.
  intros Ha Hc. unfold iadd. rewrite binop_same_shape by congruence.
  cbn [shape of_fun]. rewrite shape_eqb_refl.
  eexists. split; [reflexivity|]. rewrite Ha.
  split; [reflexivity|]. split; [apply of_fun_wf|].
  intros i Hi. now rewrite get_of_fun by now apply in_shape_1d.
Qed.

Lemma drop_last_row_vector (X : ndarray) (n : nat) :
  shape X = [n] ->
  exists Y, drop_last_row X = Some Y /\ shape Y = [(n - 1)%nat]
    /\ forall i, (i < n - 1)%nat -> get Y [i] = get X [i].
Proof.
  intros HX. unfold drop_last_row. rewrite HX.
  eexists. split; [reflexivity|]. split; [reflexivity|].
  intros i Hi. unfold get. cbn [shape data]. rewrite HX.
  cbn [ravel size fold_right]. rewrite nth_firstn.
  destruct (Nat.ltb_spec (i * 1 + 0) ((n - 1) * 1)); [reflexivity | lia].
Qed.

Lemma drop_first_row_vector (X : ndarray) (n : nat) :
  shape X = [n] ->
  exists Y, drop_first_row X = Some Y /\ shape Y = [(n - 1)%nat]
    /\ forall i, get Y [i] = get X [S i].
Proof.
  intros HX. unfold drop_first_row. rewrite HX.
  eexists. split; [reflexivity|]. split; [reflexivity|].
  intros i. unfold get. cbn [shape data]. rewrite HX.
  cbn [ravel size fold_right]. rewrite nth_skipn. f_equal; lia.
Qed.

(** X21. With one-dimensional diagonals ([alpha] and [gamma] of length
    [n - 1], [beta] of length [n]) and [n >= 2], [Tridiagonal._matmat]
    takes a one-dimensional [X] of length [n] to the banded stencil of
    [X]. *)
Theorem Tridiagonal_matmat_vector (T : Tridiagonal) (X : ndarray) (n : nat) :
  (2 <= n)%nat ->
  shape (tri_alpha T) = [(n - 1)%nat] ->
  shape (tri_beta T) = [n] ->
  shape (tri_gamma T) = [(n - 1)%nat] ->
  shape X = [n] -> wf X ->
  exists Y,
    Tridiagonal_matmat T X = Some Y /\ shape Y = [n] /\ wf Y
    /\ forall i, (i < n)%nat ->
         get Y [i]
         = tridiagonal_stencil (data (tri_alpha T)) (data (tri_beta T))
             (data (tri_gamma T)) (data X) i.
Proof.
  intros Hn Ha Hb Hg HX HwX. unfold Tridiagonal_matmat.
  destruct (binop_vector Rmult _ X n Hb HX) as (o1 & Ho1 & Hso1 & Eo1).
  rewrite Ho1.
  destruct (drop_last_row_vector X n HX) as (Xh & HXh & HsXh & EXh).
  rewrite HXh.
  destruct (binop_vector Rmult _ Xh _ Ha HsXh) as (ua & Hua & Hsua & Eua).
  rewrite Hua. rewrite Ha. cbn [hd].
  assert (Hinda : map (fun i => (i + 1)%nat) (seq 0 (n - 1)) = seq 1 (n - 1)).
  { rewrite <- seq_shift. apply map_ext. intros i. lia. }
  rewrite Hinda, index_array_seq by lia.
  assert (Hz : shape (zeros (shape X)) = [n]) by (now rewrite HX).
  destruct (update_rows_vector (zeros (shape X)) ua (seq 1 (n - 1)) n Hz)
    as (aa & Haa & Hsaa & Eaa).
  { now rewrite length_seq. }
  { apply forallb_seq_lt. lia. }
  rewrite Haa.
  destruct (iadd_vector o1 aa n Hso1 Hsaa) as (o2 & Ho2 & Hso2 & _ & Eo2).
  rewrite Ho2.
  destruct (drop_first_row_vector X n HX) as (Xt & HXt & HsXt & EXt).
  rewrite HXt.
  destruct (binop_vector Rmult _ Xt _ Hg HsXt) as (ug & Hug & Hsug & Eug).
  rewrite Hug. rewrite Hg. cbn [hd]. rewrite index_array_seq by lia.
  destruct (update_rows_vector (zeros (shape X)) ug (seq 0 (n - 1)) n Hz)
    as (ag & Hag & Hsag & Eag).
  { now rewrite length_seq. }
  { apply forallb_seq_lt. lia. }
  rewrite Hag.
  destruct (iadd_vector o2 ag n Hso2 Hsag) as (Y & HY & HsY & HwY & EY).
  exists Y. split; [exact HY|]. split; [exact HsY|]. split; [exact HwY|].
  intros i Hi.
  rewrite EY, Eo2, Eo1, Eaa, Eag by assumption.
  rewrite !find_last_seq. unfold tridiagonal_stencil.
  assert (Hlen : length (data X) = n).
  { unfold wf in HwX. rewrite HwX, HX. cbn. lia. }
  rewrite Hlen.
  assert (Hzero : get (zeros (shape X)) [i] = 0).
  { unfold zeros. rewrite HX.
    now rewrite get_of_fun by now apply in_shape_1d. }
  rewrite Hzero.
  rewrite (get_1d _ n i Hb), (get_1d X n i HX).
  f_equal; [f_equal|].
  - destruct (Nat.leb_spec 1 i), (Nat.ltb_spec i (1 + (n - 1))),
             (Nat.ltb_spec 0 i); cbn [andb]; try lia; try reflexivity.
    cbn [Nat.add]. rewrite Eua, EXh by lia.
    now rewrite (get_1d _ _ (i - 1) Ha), (get_1d X n (i - 1) HX).
  - destruct (Nat.leb_spec 0 i), (Nat.ltb_spec i (0 + (n - 1))),
             (Nat.ltb_spec (i + 1) n); cbn [andb];
      try lia; try reflexivity.
    cbn [Nat.add]. rewrite Nat.sub_0_r. rewrite Eug, EXt by lia.
    rewrite (get_1d _ _ i Hg), (get_1d X n (S i) HX).
    now rewrite Nat.add_1_r.
Qed.

Lemma Tridiagonal_matmat_vector_witness :
  exists Y,
    Tridiagonal_matmat
      (mk_Tridiagonal (mk_ndarray [1%nat] [5]) (mk_ndarray [2%nat] [1; 2])
         (mk_ndarray [1%nat] [7]))
      (mk_ndarray [2%nat] [1; 1]) = Some Y
    /\ shape Y = [2%nat] /\ wf Y
    /\ forall i, (i < 2)%nat ->
         get Y [i] = tridiagonal_stencil [5] [1; 2] [7] [1; 1] i.
Proof.
  apply (Tridiagonal_matmat_vector
           (mk_Tridiagonal (mk_ndarray [1%nat] [5]) (mk_ndarray [2%nat] [1; 2])
              (mk_ndarray [1%nat] [7]))
           (mk_ndarray [2%nat] [1; 1]) 2); [lia | reflexivity ..].
Defined.

End TridiagonalColumnFacts.

(** ** [KronSum._matmat] against [KronSum.to_dense] *)

Section KronSumFacts.
Import NP Operators LinearOperators.

(** [1] when the two multi-indices are equal, [0] otherwise. *)
Definition delta (ix jx : list nat) : R :=
  if shape_eqb ix jx then 1 else 0.

(** Entry [(ix, jx)] of the Kronecker sum of the operands: the sum over the
    operands of the entry of one, where the indices of the others agree. *)
Fixpoint ksum (Ms : list Dense) (ix jx : list nat) : R :=
  match Ms, ix, jx with
  | M :: Ms', i :: ix', j :: jx' =>
    entry M i j * delta ix' jx' + delta [i] [j] * ksum Ms' ix' jx'
  | _, _, _ => 0
  end.

Lemma delta_cons (i j : nat) (ix jx : list nat) :
  delta (i :: ix) (j :: jx) = delta [i] [j] * delta ix jx.
Proof.
  unfold delta. cbn [shape_eqb].
  destruct (i =? j)%nat, (shape_eqb ix jx); cbn; ring.
Qed.

Lemma delta_one (i j : nat) :
  delta [i] [j] = if (i =? j)%nat then 1 else 0.
Proof. unfold delta. cbn [shape_eqb]. now destruct (i =? j)%nat. Qed.

Lemma eye_entries (n i j : nat) :
  (i < n)%nat -> (j < n)%nat -> get (eye n) [i; j] = delta [i] [j].
Proof.
  intros Hi Hj. unfold eye. rewrite get_of_fun by now apply in_shape_2d.
  cbn [nth]. now rewrite delta_one.
Qed.

Lemma msum_delta (ns ix : list nat) (g : list nat -> R) :
  in_shape ix ns -> msum ns (fun jx => delta ix jx * g jx) = g ix.
Proof.
  intros H. revert g. induction H as [|i n ix ns Hi _ IH]; intros g.
  - cbn [msum]. unfold delta. cbn. ring.
  - cbn [msum].
    rewrite (Rsum_ext n _ (fun j => if (j =? i)%nat
                                    then g (j :: ix) else 0)).
    + rewrite Rsum_delta. now destruct (Nat.ltb_spec i n); [|lia].
    + intros j Hj.
      rewrite (msum_ext ns _ (fun jx => delta ix jx
                                          * (delta [i] [j] * g (j :: jx)))).
      * rewrite IH. rewrite delta_one, (Nat.eqb_sym j i).
        destruct (i =? j)%nat; ring.
      * intros jx _. rewrite (delta_cons i j ix jx). ring.
Qed.

Lemma msum_plus (ns : list nat) (f g : list nat -> R) :
  msum ns (fun jx => f jx + g jx) = msum ns f + msum ns g.
Proof.
  revert f g. induction ns as [|n ns IH]; intros f g; cbn [msum];
    [reflexivity|].
  rewrite <- Rsum_plus. apply Rsum_ext. intros j _. apply IH.
Qed.

Lemma msum_scal (ns : list nat) (c : R) (f : list nat -> R) :
  msum ns (fun jx => c * f jx) = c * msum ns f.
Proof.
  revert f. induction ns as [|n ns IH]; intros f; cbn [msum];
    [reflexivity|].
  rewrite Rsum_scal. apply Rsum_ext. intros j _. apply IH.
Qed.

Lemma kronsum_spec (a b : ndarray) (m p : nat) :
  shape a = [m; m] -> shape b = [p; p] ->
  exists D,
    kronsum a b = Some D
    /\ shape D = [(m * p)%nat; (m * p)%nat] /\ wf D
    /\ forall I J i j,
         (I < m)%nat -> (J < m)%nat -> (i < p)%nat -> (j < p)%nat ->
         get D [(I * p + i)%nat; (J * p + j)%nat]
         = get a [I; J] * delta [i] [j] + delta [I] [J] * get b [i; j].
Proof.
  intros Ha Hb. unfold kronsum. rewrite Ha, Hb. cbv zeta.
  destruct (kron_spec a (eye p) m m p p Ha eq_refl)
    as (x & Hx & Hsx & _ & Ex).
  destruct (kron_spec (eye m) b m m p p eq_refl Hb)
    as (y & Hy & Hsy & _ & Ey).
  rewrite Hx, Hy. rewrite binop_same_shape by congruence.
  eexists. split; [reflexivity|]. rewrite Hsx.
  split; [reflexivity|]. split; [apply of_fun_wf|].
  intros I J i j HI HJ Hi Hj.
  rewrite get_of_fun by (apply in_shape_2d; nia).
  rewrite Ex, Ey by assumption.
  now rewrite !eye_entries by assumption.
Qed.

Lemma reduce_kronsum_spec (Ms : list Dense) :
  forall (acc : ndarray) (ma : nat),
  Forall (fun M => rows M = cols M) Ms ->
  shape acc = [ma; ma] ->
  exists D,
    reduce_kronsum acc (map to_array Ms) = Some D
    /\ shape D = [(ma * size (map cols Ms))%nat;
                  (ma * size (map cols Ms))%nat]
    /\ (Ms <> [] \/ wf acc -> wf D)
    /\ forall I J ix jx,
         (I < ma)%nat -> (J < ma)%nat ->
         in_shape ix (map cols Ms) -> in_shape jx (map cols Ms) ->
         get D [(I * size (map cols Ms) + ravel (map cols Ms) ix)%nat;
                (J * size (map cols Ms) + ravel (map cols Ms) jx)%nat]
         = get acc [I; J] * delta ix jx + delta [I] [J] * ksum Ms ix jx.
Proof.
  induction Ms as [|M Ms IH]; intros acc ma Hsq Hacc.
  - exists acc. split; [reflexivity|]. cbn [map size fold_right].
    split; [now rewrite !Nat.mul_1_r|].
    split; [intros [H|H]; [congruence | exact H]|].
    intros I J ix jx HI HJ Hix Hjx. inversion Hix; inversion Hjx; subst.
    cbn [ravel ksum]. rewrite !Nat.mul_1_r, !Nat.add_0_r.
    unfold delta at 1. cbn. ring.
  - inversion Hsq as [|? ? HM Hsq']; subst.
    assert (HsM : shape (to_array M) = [cols M; cols M]).
    { unfold to_array. fold (rows M) (cols M). now rewrite HM. }
    cbn [map reduce_kronsum].
    destruct (kronsum_spec acc (to_array M) ma (cols M) Hacc HsM)
      as (acc' & Hk & Hs' & Hw' & E').
    rewrite Hk.
    destruct (IH acc' (ma * cols M)%nat Hsq' Hs')
      as (D & HD & HsD & HwD & ED).
    exists D. split; [exact HD|].
    cbn [size fold_right]. fold (size (map cols Ms)).
    split; [rewrite HsD; now rewrite !Nat.mul_assoc|].
    split; [intros _; apply HwD; now right|].
    intros I J ix jx HI HJ Hix Hjx.
    inversion Hix as [|i n ix' ns' Hi Hix']; subst.
    inversion Hjx as [|j n jx' ns' Hj Hjx']; subst.
    cbn [ravel].
    replace (I * (cols M * size (map cols Ms))
             + (i * size (map cols Ms) + ravel (map cols Ms) ix'))%nat
      with ((I * cols M + i) * size (map cols Ms)
            + ravel (map cols Ms) ix')%nat by lia.
    replace (J * (cols M * size (map cols Ms))
             + (j * size (map cols Ms) + ravel (map cols Ms) jx'))%nat
      with ((J * cols M + j) * size (map cols Ms)
            + ravel (map cols Ms) jx')%nat by lia.
    rewrite ED by (try assumption; nia).
    rewrite E' by assumption. cbn [ksum]. rewrite (delta_cons i j ix' jx').
    assert (Hd : delta [(I * cols M + i)%nat] [(J * cols M + j)%nat]
                 = delta [I] [J] * delta [i] [j]).
    { rewrite !delta_one.
      destruct (Nat.eqb_spec (I * cols M + i) (J * cols M + j)),
               (Nat.eqb_spec I J), (Nat.eqb_spec i j);
        try ring; exfalso; nia. }
    rewrite Hd. unfold entry. ring.
Qed.

Lemma KronSum_loop_cons (M : Dense) (Ms : list Dense) (i : nat)
    (ev out : ndarray) :
  KronSum_loop (M :: Ms) i ev out =
  match Kronecker_step M i ev with
  | Some t =>
    match iadd out t with
    | Some out' => KronSum_loop Ms (S i) ev out'
    | None => None
    end
  | None => None
  end.
Proof.
  unfold Kronecker_step. cbn [KronSum_loop].
  destruct (moveaxis ev i 0); [|reflexivity].
  destruct (reshape_infer _ _); [|reflexivity].
  destruct (op_matmul M _); [|reflexivity].
  destruct (reshape _ _); [|reflexivity].
  reflexivity.
Qed.

Lemma iadd_same_shape (a c : ndarray) :
  shape a = shape c ->
  iadd a c = Some (of_fun (shape a) (fun idx => get a idx + get c idx)).
Proof.
  intros Hs. unfold iadd. rewrite binop_same_shape by exact Hs.
  cbn [shape of_fun]. now rewrite shape_eqb_refl.
Qed.

(** The loop of [KronSum._matmat] from the axis [length pre_s] on, for
    square operands. *)
Lemma KronSum_loop_spec (Ms : list Dense) :
  forall (pre_s : list nat) (ev out : ndarray) (B : nat),
  Forall (fun M => (0 < cols M)%nat) Ms ->
  Forall (fun M => rows M = cols M) Ms ->
  shape ev = pre_s ++ map cols Ms ++ [B] ->
  shape out = shape ev ->
  exists out',
    KronSum_loop Ms (length pre_s) ev out = Some out'
    /\ shape out' = shape ev
    /\ (wf out -> wf out')
    /\ forall pre ix b,
         in_shape pre pre_s -> in_shape ix (map cols Ms) -> (b < B)%nat ->
         get out' (pre ++ ix ++ [b])
         = get out (pre ++ ix ++ [b])
           + msum (map cols Ms)
               (fun jx => ksum Ms ix jx * get ev (pre ++ jx ++ [b])).
Proof.
  induction Ms as [|M Ms IH]; intros pre_s ev out B Hpos Hsq Hs Hso.
  - exists out. split; [reflexivity|]. split; [exact Hso|].
    split; [auto|].
    intros pre ix b Hpre His Hb. inversion His; subst. cbn. ring.
  - inversion Hpos as [|? ? HM Hpos']; subst.
    inversion Hsq as [|? ? HMsq Hsq']; subst.
    cbn [map] in Hs. rewrite <- app_comm_cons in Hs.
    destruct (Kronecker_step_spec M ev pre_s (map cols Ms ++ [B]) HM Hs)
      as (t & Hstep & Hst & Hwt & Hgett).
    rewrite HMsq in Hst.
    assert (Hot : shape out = shape t) by congruence.
    rewrite KronSum_loop_cons, Hstep, (iadd_same_shape out t Hot).
    set (out1 := of_fun (shape out) (fun idx => get out idx + get t idx)).
    assert (Hs1 : shape ev = (pre_s ++ [cols M]) ++ map cols Ms ++ [B]).
    { rewrite Hs, <- app_assoc. reflexivity. }
    destruct (IH (pre_s ++ [cols M]) ev out1 B Hpos' Hsq' Hs1 Hso)
      as (out' & Hloop & Hs' & Hw' & Hget').
    rewrite length_app, Nat.add_comm in Hloop. cbn [length Nat.add] in Hloop.
    exists out'. split; [exact Hloop|]. split; [exact Hs'|].
    split; [intros _; apply Hw'; apply of_fun_wf|].
    intros pre ix b Hpre His Hb.
    cbn [map] in His. inversion His as [|a n ix' ns' Ha His']; subst.
    replace (pre ++ (a :: ix') ++ [b]) with ((pre ++ [a]) ++ ix' ++ [b])
      by (rewrite <- app_assoc; reflexivity).
    rewrite Hget'; [| apply in_shape_app; [exact Hpre | now repeat constructor]
                    | exact His' | exact Hb].
    assert (Hin : in_shape ((pre ++ [a]) ++ ix' ++ [b]) (shape out)).
    { rewrite Hso, Hs1. apply in_shape_app.
      - apply in_shape_app; [exact Hpre | now repeat constructor].
      - apply in_shape_app; [exact His' | now repeat constructor]. }
    unfold out1 at 1. rewrite get_of_fun by exact Hin.
    rewrite <- !app_assoc. cbn [app].
    rewrite Hgett; [| exact Hpre | now rewrite HMsq
                    | apply in_shape_app; [exact His' | now repeat constructor]].
    cbn [map msum].
    assert (E : Rsum (cols M) (fun j => msum (map cols Ms) (fun js =>
                  ksum (M :: Ms) (a :: ix') (j :: js)
                  * get ev (pre ++ (j :: js) ++ [b])))
                = Rsum (cols M) (fun j =>
                    entry M a j * get ev (pre ++ j :: ix' ++ [b]))
                  + msum (map cols Ms) (fun jx =>
                      ksum Ms ix' jx * get ev (pre ++ a :: jx ++ [b]))).
    { transitivity
        (Rsum (cols M) (fun j =>
           entry M a j * get ev (pre ++ j :: ix' ++ [b])
           + (if (j =? a)%nat
              then msum (map cols Ms) (fun jx =>
                     ksum Ms ix' jx * get ev (pre ++ j :: jx ++ [b]))
              else 0))).
      - apply Rsum_ext. intros j Hj. cbn [ksum].
        rewrite (msum_ext (map cols Ms) _
          (fun jx => delta ix' jx
                     * (entry M a j * get ev (pre ++ j :: jx ++ [b]))
                     + delta [a] [j]
                       * (ksum Ms ix' jx * get ev (pre ++ j :: jx ++ [b]))))
          by (intros jx _; cbn [app]; ring).
        rewrite msum_plus, msum_scal, msum_delta by exact His'.
        rewrite delta_one, (Nat.eqb_sym j a).
        destruct (a =? j)%nat; ring.
      - rewrite Rsum_plus, Rsum_delta.
        now destruct (Nat.ltb_spec a (cols M)); [|lia]. }
    rewrite E.
    rewrite (msum_ext (map cols Ms)
               (fun jx => ksum Ms ix' jx * get ev ((pre ++ [a]) ++ jx ++ [b]))
               (fun jx => ksum Ms ix' jx * get ev (pre ++ a :: jx ++ [b])))
      by (intros jx _; now rewrite <- app_assoc).
    ring.
Qed.

(** X22. For square operands [M0 :: Ms] with at least one column each and
    an input [X] of shape [(N, B)], [N] the product of the operands' sizes:
    the [KronSum] operator is constructed, and its [_matmat] returns the
    product of its dense form [to_dense()], the Kronecker sum of the
    operands, with [X]. *)
Theorem KronSum_matmat_is_dense_matmul (M0 : Dense) (Ms : list Dense)
    (X : ndarray) (B : nat) :
  Forall (fun M => (0 < cols M)%nat) (M0 :: Ms) ->
  Forall (fun M => rows M = cols M) (M0 :: Ms) ->
  shape X = [size (map cols (M0 :: Ms)); B] ->
  exists self D Y,
    KronSum_init (M0 :: Ms) fresh = (self, None)
    /\ KronSum_to_dense self = Some D
    /\ matmul D X = Some Y
    /\ KronSum_matmat self X = Some Y.
Proof.
  intros Hpos Hsq HX.
  set (all := M0 :: Ms) in *.
  set (ns := map cols all) in *.
  assert (Hms : map rows all = ns).
  { unfold ns. clear - Hsq. induction Hsq as [|M l HM _ IH]; [reflexivity|].
    cbn [map]. now rewrite HM, IH. }
  assert (Hns : (0 < size ns)%nat).
  { apply size_pos. unfold ns. clear - Hpos.
    induction Hpos; simpl; constructor; assumption. }
  (* construction *)
  assert (Hinit : KronSum_init all fresh
                  = (mk_instance (Some all) (Some (op_dtype M0))
                       (Some (size ns, size ns)), None)).
  { unfold KronSum_init.
    change (map (fun Mi => fst (op_shape Mi)) all) with (map rows all).
    change (map (fun Mi => snd (op_shape Mi)) all) with ns.
    rewrite Hms.
    rewrite !product_size by (unfold ns, all; simpl; congruence).
    reflexivity. }
  (* the dense form *)
  inversion Hsq as [|? ? HM0 Hsq']; subst.
  assert (HsM0 : shape (to_array M0) = [cols M0; cols M0]).
  { unfold to_array. fold (rows M0) (cols M0). now rewrite HM0. }
  destruct (reduce_kronsum_spec Ms (to_array M0) (cols M0) Hsq' HsM0)
    as (D & HD & HsD & _ & HgetD).
  assert (HsD' : shape D = [size ns; size ns]) by exact HsD.
  assert (HDk : forall ix jx, in_shape ix ns -> in_shape jx ns ->
            get D [ravel ns ix; ravel ns jx] = ksum all ix jx).
  { intros ix jx Hix Hjx.
    inversion Hix as [|i m ix' ms' Hi Hix']; subst.
    inversion Hjx as [|j n jx' ns' Hj Hjx']; subst.
    cbn [ravel ksum]. unfold entry. apply HgetD; assumption. }
  (* the product with the dense form *)
  assert (HY : matmul D X
               = Some (of_fun [size ns; B]
                   (fun idx => Rsum (size ns) (fun k =>
                      get D [nth 0 idx 0%nat; k] * get X [k; nth 1 idx 0%nat])))).
  { unfold matmul. rewrite HsD', HX. now rewrite Nat.eqb_refl. }
  (* the mode sums *)
  pose (ev0 := mk_ndarray (ns ++ [B]) (data X)).
  pose (out0 := of_fun (shape ev0) (fun idx => 0 * get ev0 idx)).
  destruct (KronSum_loop_spec all [] ev0 out0 B Hpos Hsq eq_refl eq_refl)
    as (out' & Hloop & Hs' & Hwf' & Hget').
  cbn [app length] in Hloop, Hs'. fold ns in Hget'.
  assert (Hwf : wf out') by (apply Hwf'; apply of_fun_wf).
  assert (Happly : KronSum_matmat
                     (mk_instance (Some all) (Some (op_dtype M0))
                        (Some (size ns, size ns))) X
                   = Some (mk_ndarray [size ns; B] (data out'))).
  { unfold KronSum_matmat. cbn [self_Ms self_shape fst].
    change (map (fun Mi => snd (op_shape Mi)) all) with ns.
    rewrite (reshape_infer_batch X ns B Hns HX). fold ev0.
    rewrite binop_scalar_l. fold out0. rewrite Hloop.
    unfold reshape. rewrite Hs'. cbn [ev0 shape].
    rewrite last_snoc, size_app.
    replace (size [size ns; B] =? size ns * size [B])%nat with true
      by (symmetry; apply Nat.eqb_eq; simpl; lia).
    reflexivity. }
  do 3 eexists. split; [exact Hinit|].
  split; [exact HD|]. split; [exact HY|].
  rewrite Happly. f_equal.
  apply ndarray_ext.
  - unfold wf in *. cbn [data shape]. rewrite Hwf, Hs'. cbn [ev0 shape].
    rewrite size_app. simpl. lia.
  - apply of_fun_wf.
  - reflexivity.
  - intros idx Hidx. cbn [shape] in Hidx.
    inversion Hidx as [|I ? idx1 ? HI Hidx1]; subst.
    inversion Hidx1 as [|b ? idx2 ? Hb Hidx2]; subst.
    inversion Hidx2; subst.
    rewrite get_of_fun by exact Hidx. cbn [nth].
    pose proof (unravel_in_shape ns I HI) as Hix.
    pose proof (ravel_unravel ns I HI) as HrI.
    assert (E1 : get (mk_ndarray [size ns; B] (data out')) [I; b]
                 = get out' ([] ++ unravel ns I ++ [b])).
    { unfold get. cbn [shape app]. rewrite Hs'. cbn [ev0 shape].
      rewrite ravel_snoc by exact Hix. rewrite HrI.
      f_equal. simpl. lia. }
    rewrite E1, Hget'; [| constructor | exact Hix | exact Hb].
    assert (E0 : get out0 ([] ++ unravel ns I ++ [b]) = 0).
    { unfold out0. rewrite get_of_fun; [ring|]. cbn [ev0 shape app].
      apply in_shape_app; [exact Hix | now repeat constructor]. }
    rewrite E0, Rplus_0_l.
    rewrite Rsum_size_msum. apply msum_ext. intros jx Hjx.
    rewrite <- HrI at 2. rewrite HDk by assumption. f_equal.
    unfold get, ev0. cbn [shape data app]. rewrite HX.
    rewrite ravel_snoc by exact Hjx. f_equal. simpl. lia.
Qed.

Lemma KronSum_matmat_is_dense_matmul_witness :
  exists self D Y,
    KronSum_init [mk_Dense (2, 2)%nat float64 [1; 2; 3; 4];
                  mk_Dense (1, 1)%nat float64 [5]] fresh = (self, None)
    /\ KronSum_to_dense self = Some D
    /\ matmul D (mk_ndarray [2%nat; 1%nat] [1; 0]) = Some Y
    /\ KronSum_matmat self (mk_ndarray [2%nat; 1%nat] [1; 0]) = Some Y.
Proof.
  apply (KronSum_matmat_is_dense_matmul
           (mk_Dense (2, 2)%nat float64 [1; 2; 3; 4])
           [mk_Dense (1, 1)%nat float64 [5]]
           (mk_ndarray [2%nat; 1%nat] [1; 0]) 1%nat).
  - repeat constructor.
  - repeat constructor.
  - reflexivity.
Defined.

End KronSumFacts.

(** ** Construction and apply of the composite operators *)

Section CompositeConstructionFacts.
Import NP Operators LinearOperators.






End CompositeConstructionFacts.
